(** * Coverage attribution tools: a shallow embedding and its properties

    The development follows two scripts of the repository,
    [tools/coverage_uncovered.py] and [tools/map_uncovered_to_functions.py].

    Conventions of the embedding:
    - a Python [int] is a [Z];
    - a Python [str] is a [list ascii] (type [str]); a character stands for
      the code point of the same number, so texts range over the code
      points 0..255;
    - a Python [dict] is an insertion-ordered association list with unique
      keys (module [Dict]): iteration order is insertion order, and
      assigning to an existing key keeps the key's position;
    - [set(...)] is a [gset Z] and [sorted(...)] is a merge sort for [Z.le];
    - a function that can raise returns an [option], or an [outcome] when
      the error message matters. *)

From Stdlib Require Import ZArith Ascii String Lia DecimalString.
From stdpp Require Import base list sorting gmap strings.

Open Scope Z_scope.

(** ** Python values *)

Definition str := list ascii.

Definition lit (s : string) : str := list_ascii_of_string s.

(** [sorted(l)] on integers. *)
Definition sorted (l : list Z) : list Z := merge_sort Z.le l.

(** [len(l)] *)
Definition len {A} (l : list A) : Z := Z.of_nat (length l).

(** ** Characters and text primitives *)

Definition code (c : ascii) : N := N_of_ascii c.

Definition between (lo hi : N) (c : ascii) : bool :=
  ((lo <=? code c) && (code c <=? hi))%N.

(** [str.isspace()] and the regex class [\s] on code points below 256:
    TAB..CR, FS..US, SPACE, NEL and NBSP. *)
Definition is_space (c : ascii) : bool :=
  between 9 13 c || between 28 32 c || between 133 133 c
  || between 160 160 c.

(** The regex class [\d] on code points below 256, which is also [[0-9]]. *)
Definition is_digit (c : ascii) : bool := between 48 57 c.

(** The regex class [\w] on code points below 256: letters, digits and
    numeric characters ([str.isalnum()]) and the underscore. *)
Definition is_word (c : ascii) : bool :=
  between 48 57 c || between 65 90 c || between 97 122 c
  || between 95 95 c
  || between 170 170 c || between 178 179 c || between 181 181 c
  || between 185 186 c || between 188 190 c
  || between 192 214 c || between 216 246 c || between 248 255 c.

(** The line boundaries of [str.splitlines()] below 256:
    LF, VT, FF, CR, FS, GS, RS and NEL. *)
Definition is_linebreak (c : ascii) : bool :=
  between 10 13 c || between 28 30 c || between 133 133 c.

Definition bar : ascii := "|".
Definition dot : ascii := ".".
Definition percent : ascii := "%".
Definition lbrace : ascii := "{".
Definition rbrace : ascii := "}".
Definition lparen : ascii := "(".
Definition rparen : ascii := ")".
Definition colon : ascii := ":".
Definition LF : ascii := "010".
Definition CR : ascii := "013".

Definition eqc (a b : ascii) : bool := bool_decide (a = b).

(** Longest prefix whose characters satisfy [p], and what follows it: how a
    greedy [c*] or [c+] of a regex consumes its input. *)
Fixpoint take_while {A} (p : A → bool) (l : list A) : list A :=
  match l with
  | [] => []
  | x :: l' => if p x then x :: take_while p l' else []
  end.

Fixpoint drop_while {A} (p : A → bool) (l : list A) : list A :=
  match l with
  | [] => []
  | x :: l' => if p x then drop_while p l' else l
  end.

(** [c in s] for a single character *)
Definition char_in (c : ascii) (s : str) : bool := existsb (eqc c) s.

(** [s.count(c)] for a single character *)
Definition count_char (c : ascii) (s : str) : Z := len (filter (λ x, x = c) s).

(** [s.startswith(p)] *)
Fixpoint startswith (p s : str) : bool :=
  match p, s with
  | [], _ => true
  | a :: p', b :: s' => eqc a b && startswith p' s'
  | _ :: _, [] => false
  end.

(** [s.endswith(p)] *)
Definition endswith (p s : str) : bool := startswith (reverse p) (reverse s).

(** [needle in hay] *)
Fixpoint contains (needle hay : str) : bool :=
  startswith needle hay ||
  match hay with
  | [] => false
  | _ :: hay' => contains needle hay'
  end.

(** [s.strip()] *)
Definition lstrip (s : str) : str := drop_while is_space s.
Definition rstrip (s : str) : str := reverse (drop_while is_space (reverse s)).
Definition strip (s : str) : str := rstrip (lstrip s).

(** [s.split()]: the maximal runs of non-space characters. [cur] is the
    run being read. *)
Fixpoint split_go (cur : str) (s : str) : list str :=
  match s with
  | [] => match cur with [] => [] | _ => [cur] end
  | c :: s' =>
      if is_space c
      then match cur with [] => split_go [] s' | _ => cur :: split_go [] s' end
      else split_go (cur ++ [c]) s'
  end.

Definition split (s : str) : list str := split_go [] s.

(** [s.splitlines()]: a CR LF pair is one boundary, and no empty last line
    is produced. [cur] is the line being read. *)
Fixpoint splitlines_go (cur : str) (s : str) : list str :=
  match s with
  | [] => match cur with [] => [] | _ => [cur] end
  | c :: s' =>
      if is_linebreak c
      then cur :: match s' with
                  | c' :: s'' =>
                      if eqc c CR && eqc c' LF
                      then splitlines_go [] s''
                      else splitlines_go [] s'
                  | [] => splitlines_go [] s'
                  end
      else splitlines_go (cur ++ [c]) s'
  end.

Definition splitlines (s : str) : list str := splitlines_go [] s.

(** [int(s)] on a string of decimal digits. CPython refuses to convert a
    text of more than [sys.int_info.default_max_str_digits] digits, leading
    zeros counted, and raises [ValueError]: that is [None] here. *)
Definition digit_value (c : ascii) : Z := Z.of_N (code c) - 48.

Definition max_str_digits : Z := 4300.

Definition int (s : str) : option Z :=
  if decide (len s ≤ max_str_digits)
  then Some (foldl (λ acc c, 10 * acc + digit_value c) 0 s)
  else None.

(** [s.find(c)] and [s.rfind(c)] for a single character: [-1] when absent. *)
Fixpoint find_char (c : ascii) (s : str) : Z :=
  match s with
  | [] => -1
  | x :: s' =>
      if eqc x c then 0
      else let r := find_char c s' in if decide (r = -1) then -1 else r + 1
  end.

Fixpoint rfind_char (c : ascii) (s : str) : Z :=
  match s with
  | [] => -1
  | x :: s' =>
      let r := rfind_char c s' in
      if decide (r = -1) then (if eqc x c then 0 else -1) else r + 1
  end.

(** Slices [s[i:]] and [s[:j]] for indices that are not negative. *)
Definition slice_from (i : Z) (s : str) : str := drop (Z.to_nat i) s.
Definition slice_to (j : Z) (s : str) : str := take (Z.to_nat j) s.

(** ** Insertion-ordered dictionaries with [str] keys *)

Module Dict.
Section dict.
Context {V : Type}.

Definition t := list (str * V).

(** [d[k]]; [None] stands for [KeyError]. *)
Fixpoint get (d : t) (k : str) : option V :=
  match d with
  | [] => None
  | (k', v) :: d' => if decide (k' = k) then Some v else get d' k
  end.

(** [d[k] = v]: an existing key keeps its position, a new key goes last. *)
Fixpoint set (d : t) (k : str) (v : V) : t :=
  match d with
  | [] => [(k, v)]
  | (k', v') :: d' =>
      if decide (k' = k) then (k, v) :: d' else (k', v') :: set d' k v
  end.

(** [d.items()] *)
Definition items (d : t) : list (str * V) := d.

Definition keys (d : t) : list str := d.*1.
End dict.
Arguments t : clear implicits.
End Dict.

(** ** [coverage_uncovered.py] *)

Module CoverageUncovered.

(** The tail [.*$] of [line_rx]: [.] is any character but LF, and [$]
    stands at the end of the text or before a last LF. *)
Definition dot_star_end (s : str) : bool :=
  negb (char_in LF (if endswith [LF] s then removelast s else s)).

(** [line_rx.match(ln)] for [line_rx = ^\s*(\d+)\|\s*([0-9]+)?\|.*$]: the
    groups 1 and 2 of the match, group 2 being [None] when it took no part.
    The classes [\s], [\d] and the bar are disjoint, so the greedy runs are
    the only way to match and backtracking finds nothing else. *)
Definition line_rx_match (ln : str) : option (str * option str) :=
  let s1 := drop_while is_space ln in
  match take_while is_digit s1, drop_while is_digit s1 with
  | (_ :: _) as g1, c1 :: s2 =>
      if eqc c1 bar then
        let s3 := drop_while is_space s2 in
        match drop_while is_digit s3 with
        | c2 :: rest =>
            if eqc c2 bar && dot_star_end rest then
              Some (g1, match take_while is_digit s3 with
                        | [] => None
                        | g2 => Some g2
                        end)
            else None
        | [] => None
        end
      else None
  | _, _ => None
  end.

(** The loop of [parse_annotated] over the lines, on the list [uncovered].
    [None] is the [ValueError] of [int], which is called on the line number
    of every matched line, before the count is looked at. *)
Fixpoint parse_lines (lines : list str) (uncovered : list Z)
  : option (list Z) :=
  match lines with
  | [] => Some uncovered
  | ln :: lines' =>
      match line_rx_match ln with
      | None => parse_lines lines' uncovered
      | Some (g1, count) =>
          lineno ← int g1;
          match count with
          | None => parse_lines lines' uncovered
          | Some count =>
              if decide (count = lit "0")
              then parse_lines lines' (uncovered ++ [lineno])
              else parse_lines lines' uncovered
          end
      end
  end.

Definition parse_annotated (output : str) : option (list Z) :=
  parse_lines (splitlines output) [].

(** The loop of [compress_ranges] over [lines[1:]], on the state
    [(ranges, start, prev)]. *)
Fixpoint compress_loop (ranges : list (Z * Z)) (start prev : Z)
    (rest : list Z) : list (Z * Z) :=
  match rest with
  | [] => ranges ++ [(start, prev)]
  | n :: rest' =>
      if decide (n = prev + 1) then compress_loop ranges start n rest'
      else compress_loop (ranges ++ [(start, prev)]) n n rest'
  end.

(** [None] stands for the [IndexError] of [lines[0]]. *)
Definition compress_ranges (lines : list Z) : option (list (Z * Z)) :=
  match lines with
  | [] => Some []
  | _ =>
      let lines := sorted (elements (list_to_set lines : gset Z)) in
      first ← head lines;
      Some (compress_loop [] first first (tail lines))
  end.

(** A match of [pct_rx = (\d+\.\d+)%] at the start of [s]: group 1 and the
    text after the match. *)
Definition pct_rx_match (s : str) : option (str * str) :=
  match take_while is_digit s, drop_while is_digit s with
  | (_ :: _) as d1, c1 :: s2 =>
      if eqc c1 dot then
        match take_while is_digit s2, drop_while is_digit s2 with
        | (_ :: _) as d2, c2 :: rest =>
            if eqc c2 percent then Some (d1 ++ dot :: d2, rest) else None
        | _, _ => None
        end
      else None
  | _, _ => None
  end.

(** [pct_rx.findall(s)]: matches are tried at each position from the left,
    and the search resumes where a match ends. [None] when [fuel] runs out. *)
Fixpoint pct_rx_findall_from (fuel : nat) (s : str) : option (list str) :=
  match fuel with
  | O => None
  | S fuel' =>
      match pct_rx_match s with
      | Some (g, rest) => (g ::.) <$> pct_rx_findall_from fuel' rest
      | None =>
          match s with
          | [] => Some []
          | _ :: s' => pct_rx_findall_from fuel' s'
          end
      end
  end.

Definition pct_rx_findall (s : str) : option (list str) :=
  pct_rx_findall_from (S (length s)) s.

(** The loop of [extract_report_for_file]. The pair is the returned tuple,
    whose first component is Python's [None] or the line. *)
Fixpoint extract_loop (lines : list str) (filename : str)
  : option (option str * list str) :=
  match lines with
  | [] => Some (None, [])
  | line :: lines' =>
      if contains filename line then
        pcts ← pct_rx_findall line;
        Some (Some line, pcts)
      else extract_loop lines' filename
  end.

Definition extract_report_for_file (report_output filename : str)
  : option (option str * list str) :=
  extract_loop (splitlines report_output) filename.

End CoverageUncovered.

(** ** [map_uncovered_to_functions.py] *)

Module MapUncovered.

(** An element of [funcs], as built by [find_functions]. *)
Record span := Span {
  name : str;
  start : Z;
  body_start : Z;
  end_ : Z
}.

(** What a call ends in: a returned value or a raised [RuntimeError]. *)
Inductive outcome (J : Type) :=
  | Returned (j : J)
  | Raised (msg : str).
Arguments Returned {J} j.
Arguments Raised {J} msg.

Section get_uncovered.
(** The values of parsed JSON documents. *)
Context {J : Type}.
(** [run(cmd)]: exit code and captured output of the shell command. *)
Variable run : str → Z * str.
Variable shlex_quote : str → str.
(** [json.loads(text)]: the parsed value, or the text [str(e)] of the
    exception [e] it raises. *)
Variable json_loads : str → str + J.

(** The first component lists the texts given to [json.loads], in call
    order. *)
Definition get_uncovered (file_path cov_script : str)
  : list str * outcome J :=
  let cmd := shlex_quote cov_script ++ lit " --file "
             ++ shlex_quote file_path ++ lit " --json" in
  let '(code, out) := run cmd in
  match out with
  | [] => ([], Raised (lit "coverage_uncovered produced no output"))
  | _ =>
      let first_brace := find_char lbrace out in
      if decide (first_brace = -1) then
        ([], Raised (lit "coverage_uncovered did not print JSON:"
                     ++ [LF] ++ out))
      else
        let json_text := slice_from first_brace out in
        match json_loads json_text with
        | inr j => ([json_text], Returned j)
        | inl _ =>
            let last_brace := rfind_char rbrace json_text in
            if decide (last_brace = -1) then
              ([json_text],
               Raised (lit "coverage_uncovered JSON parse failed:"
                       ++ [LF] ++ out))
            else
              let trimmed := slice_to (last_brace + 1) json_text in
              match json_loads trimmed with
              | inr j => ([json_text; trimmed], Returned j)
              | inl e =>
                  ([json_text; trimmed],
                   Raised (lit "coverage_uncovered JSON parse failed: "
                           ++ e ++ [LF] ++ lit "Full output:"
                           ++ [LF] ++ out))
              end
        end
  end.
End get_uncovered.

(** *** [find_functions] *)

Definition control_kw : list str :=
  [lit "if"; lit "for"; lit "while"; lit "switch"; lit "catch"; lit "else"].

(** The class [[\w:\~<>]] of [sig_rx]. *)
Definition is_sig_char (c : ascii) : bool :=
  is_word c || eqc c colon || eqc c "~" || eqc c "<" || eqc c ">".

(** A match of [sig_rx = ([\w:\~<>]+)\s*\(] at the start of [s]: group 1.
    A shorter run than the greedy one is followed by a character of the
    class, so backtracking finds nothing else. *)
Definition sig_rx_match (s : str) : option str :=
  match take_while is_sig_char s with
  | [] => None
  | token =>
      match drop_while is_space (drop_while is_sig_char s) with
      | c :: _ => if eqc c lparen then Some token else None
      | [] => None
      end
  end.

(** [sig_rx.search(s)]: the leftmost position with a match. *)
Fixpoint sig_rx_search (s : str) : option str :=
  match sig_rx_match s with
  | Some token => Some token
  | None =>
      match s with
      | [] => None
      | _ :: s' => sig_rx_search s'
      end
  end.

(** [token.split('::')[-1]]: separators are found from the left. [cur] is
    the segment being read. *)
Fixpoint last_segment (cur : str) (s : str) : str :=
  match s with
  | [] => cur
  | c :: s' =>
      match s' with
      | c' :: s'' =>
          if eqc c colon && eqc c' colon then last_segment [] s''
          else last_segment (cur ++ [c]) s'
      | [] => last_segment (cur ++ [c]) s'
      end
  end.

(** The name taken from the signature line. *)
Definition function_name (line : str) : str :=
  match sig_rx_search line with
  | Some token => last_segment [] token
  | None =>
      let before := take_while (λ c, negb (eqc c lparen)) line in
      let parts := split (strip before) in
      default (lit "unknown") (last parts)
  end.

(** [range(a, b)] *)
Definition range (a b : nat) : list nat := seq a (b - a).

(** [for j in range(...): if '{' in source_lines[j]: brace_line = j; break].
    The outer [None] stands for an [IndexError], the inner one for Python's
    [None]. *)
Fixpoint look_ahead (source_lines : list str) (js : list nat)
  : option (option nat) :=
  match js with
  | [] => Some None
  | j :: js' =>
      l ← source_lines !! j;
      if char_in lbrace l then Some (Some j) else look_ahead source_lines js'
  end.

(** [for k in range(brace_line, n): ...] on the state
    [(brace_count, end_line)]; the result is the final [end_line]. *)
Fixpoint match_braces (source_lines : list str) (ks : list nat)
    (brace_count : Z) (end_line : nat) : option nat :=
  match ks with
  | [] => Some end_line
  | k :: ks' =>
      l ← source_lines !! k;
      let brace_count := brace_count + count_char lbrace l in
      let brace_count := brace_count - count_char rbrace l in
      if decide (brace_count = 0) then Some k
      else match_braces source_lines ks' brace_count k
  end.

(** The [while i < n] loop on the state [(i, funcs)]. [None] stands for an
    [IndexError] or for [fuel] running out. *)
Fixpoint find_functions_loop (fuel : nat) (source_lines : list str)
    (i : nat) (funcs : list span) : option (list span) :=
  let n := length source_lines in
  if decide (i < n)%nat then
    match fuel with
    | O => None
    | S fuel' =>
        line ← source_lines !! i;
        let stripped := strip line in
        if startswith (lit "#") stripped || startswith (lit "//") stripped
        then find_functions_loop fuel' source_lines (i + 1) funcs
        else if char_in lparen line && char_in rparen line
                && negb (endswith (lit ";") stripped) then
          let first_word := default [] (head (split stripped)) in
          if bool_decide (first_word ∈ control_kw)
          then find_functions_loop fuel' source_lines (i + 1) funcs
          else
            brace_line ←
              (if char_in lbrace line then Some (Some i)
               else look_ahead source_lines
                      (range (i + 1) (Nat.min (i + 6) n)));
            match brace_line with
            | Some brace_line =>
                let fname := function_name line in
                end_line ←
                  match_braces source_lines (range brace_line n) 0 brace_line;
                find_functions_loop fuel' source_lines (end_line + 1)
                  (funcs ++ [Span fname (Z.of_nat i + 1)
                               (Z.of_nat brace_line + 1)
                               (Z.of_nat end_line + 1)])
            | None => find_functions_loop fuel' source_lines (i + 1) funcs
            end
        else find_functions_loop fuel' source_lines (i + 1) funcs
    end
  else Some funcs.

Definition find_functions (source_lines : list str) : option (list span) :=
  find_functions_loop (length source_lines) source_lines 0 [].

(** *** [map_uncovered_to_functions] *)

(** A value of [func_map]. *)
Record fdata := FData {
  d_start : Z;
  d_end : Z;
  d_uncovered_lines : list Z
}.

(** An element of the returned [result] list. *)
Record entry := Entry {
  e_name : str;
  e_start : Z;
  e_end : Z;
  e_uncovered_count : Z;
  e_uncovered_lines : list Z
}.

(** First loop: [func_map[f['name']] = {...}] for each [f]. *)
Definition init_func_map (funcs : list span) : Dict.t fdata :=
  foldl (λ func_map f,
           Dict.set func_map (name f) (FData (start f) (end_ f) []))
        [] funcs.

(** [ln >= f['start'] and ln <= f['end']] *)
Definition in_span (ln : Z) (f : span) : bool :=
  (start f <=? ln) && (ln <=? end_ f).

(** Inner loop [for f in funcs: if ...: ...; break]: the span at which the
    loop breaks, if any. *)
Fixpoint first_match (ln : Z) (funcs : list span) : option span :=
  match funcs with
  | [] => None
  | f :: funcs' => if in_span ln f then Some f else first_match ln funcs'
  end.

(** [func_map[k]['uncovered_lines'].append(ln)] *)
Definition append_line (func_map : Dict.t fdata) (k : str) (ln : Z)
  : option (Dict.t fdata) :=
  d ← Dict.get func_map k;
  Some (Dict.set func_map k
          (FData (d_start d) (d_end d) (d_uncovered_lines d ++ [ln]))).

(** Second loop, over [uncovered_lines], on the state [(func_map, others)]. *)
Fixpoint attribute_lines (funcs : list span) (func_map : Dict.t fdata)
    (others : list Z) (uncovered_lines : list Z)
  : option (Dict.t fdata * list Z) :=
  match uncovered_lines with
  | [] => Some (func_map, others)
  | ln :: rest =>
      match first_match ln funcs with
      | Some f =>
          func_map' ← append_line func_map (name f) ln;
          attribute_lines funcs func_map' others rest
      | None => attribute_lines funcs func_map (others ++ [ln]) rest
      end
  end.

(** Third loop: one output record per item of [func_map]. *)
Definition to_entry (item : str * fdata) : entry :=
  let lines := sorted (d_uncovered_lines item.2) in
  Entry item.1 (d_start item.2) (d_end item.2) (len lines) lines.

Definition map_uncovered_to_functions (uncovered_lines : list Z)
    (funcs : list span) : option (list entry * list Z) :=
  '(func_map, others) ←
    attribute_lines funcs (init_func_map funcs) [] uncovered_lines;
  Some (to_entry <$> Dict.items func_map, sorted others).

(** *** [compress_ranges], which builds two-element lists *)

Fixpoint compress_loop (ranges : list (list Z)) (start prev : Z)
    (rest : list Z) : list (list Z) :=
  match rest with
  | [] => ranges ++ [[start; prev]]
  | n :: rest' =>
      if decide (n = prev + 1) then compress_loop ranges start n rest'
      else compress_loop (ranges ++ [[start; prev]]) n n rest'
  end.

Definition compress_ranges (lines : list Z) : option (list (list Z)) :=
  match lines with
  | [] => Some []
  | _ =>
      let lines := sorted (elements (list_to_set lines : gset Z)) in
      first ← head lines;
      Some (compress_loop [] first first (tail lines))
  end.

End MapUncovered.

(** ** The [main] functions *)

(** [str(n)] for an integer. *)
Definition str_int (n : Z) : str :=
  list_ascii_of_string (NilZero.string_of_int (Z.to_int n)).

(** [sep.join(parts)] *)
Fixpoint join (sep : str) (parts : list str) : str :=
  match parts with
  | [] => []
  | [p] => p
  | p :: parts' => p ++ sep ++ join sep parts'
  end.

(** The slice [l[:j]] of a list, for any integer [j]. *)
Definition slice_list_to {A} (j : Z) (l : list A) : list A :=
  if decide (j < 0) then take (Z.to_nat (len l + j)) l
  else take (Z.to_nat j) l.

(** *** [coverage_uncovered.py], [main] *)

Module CoverageUncoveredMain.
Import CoverageUncovered.

(** The parsed command line. *)
Record args := Args {
  file : str;
  binary : str;
  profdata : str;
  obj : str;
  json : bool
}.

(** The dictionaries that [main] builds for [json.dumps]. *)
Inductive doc :=
  | ErrorDoc (file error stdout : str)
  | ResultDoc (file : str) (total_uncovered_lines : Z)
      (uncovered_ranges : list (list Z)) (uncovered_lines : list Z)
      (report_line : option str) (report_percentages : list str).

(** What one call of [print] writes: a text, or a dictionary through
    [json.dumps], with [indent=2] or without. *)
Inductive item :=
  | Text (s : str)
  | Json (indent : bool) (d : doc).

(** How [main] ends: it returns a status, or the [ValueError] that [int]
    raises inside [parse_annotated] goes through it, as nothing catches
    it. *)
Inductive ending :=
  | Return (code : Z)
  | ValueError.

(** The line printed for a range. *)
Definition range_line (r : Z * Z) : item :=
  Text (if decide (r.1 = r.2) then lit "  " ++ str_int r.1
        else lit "  " ++ str_int r.1 ++ lit "-" ++ str_int r.2).

(** The summary block, which [main] has twice. *)
Definition summary (file : str) (uncovered_lines : list Z)
    (ranges : list (Z * Z)) : list item :=
  Text ([LF] ++ lit "Coverage summary for:" ++ lit " " ++ file)
  :: match uncovered_lines with
     | [] => [Text (lit "All instrumented lines appear covered (no zero-hit lines found).")]
     | _ =>
         [Text (lit "Total uncovered lines: " ++ str_int (len uncovered_lines));
          Text (lit "Uncovered ranges:")]
         ++ (range_line <$> ranges)
     end.

(** The report block, which [main] has twice. An empty line counts as no
    line, as [None] does. *)
Definition report_block (rep_line : option str) (pcts : list str)
  : list item :=
  Text ([LF] ++ lit "llvm-cov report line for file:")
  :: match rep_line with
     | Some ((_ :: _) as l) =>
         Text l
         :: match pcts with
            | [] => []
            | _ => [Text (lit "Detected percent values in report:"
                          ++ lit " " ++ join (lit ", ") pcts)]
            end
     | _ => [Text (lit "No report line found for file (check path equivalence)")]
     end.

Section main.
(** [os.path.exists] *)
Variable path_exists : str → bool.
(** [subprocess.run]: exit code and captured output of a shell command. *)
Variable run_proc : str → Z * str.
Variable shlex_quote : str → str.

(** [run(cmd)] prints the command and runs it. *)
Definition run (cmd : str) : list item * (Z * str) :=
  ([Text (lit "> " ++ cmd)], run_proc cmd).

Definition show_cmd (a : args) : str :=
  lit "xcrun llvm-cov show " ++ shlex_quote (binary a)
  ++ lit " -instr-profile=" ++ shlex_quote (profdata a)
  ++ lit " -object " ++ shlex_quote (obj a)
  ++ lit " -format=text " ++ shlex_quote (file a).

Definition report_cmd (a : args) : str :=
  lit "xcrun llvm-cov report " ++ shlex_quote (binary a)
  ++ lit " -instr-profile=" ++ shlex_quote (profdata a)
  ++ lit " -object " ++ shlex_quote (obj a).

Definition show_failed (out : str) : list item :=
  [Text (lit "llvm-cov show failed or returned non-zero; output below:");
   Text out].

(** The line printed when the profile file is missing. *)
Definition not_found (a : args) : item :=
  Text (lit "profdata " ++ profdata a
        ++ lit " not found; run the instrumented tests and merge first").

(** What [main] prints, and how it ends. [None] stands for an exception
    inside [compress_ranges] or [extract_report_for_file]. *)
Definition main (a : args) : option (list item * ending) :=
  if negb (path_exists (profdata a)) then Some ([not_found a], Return 2)
  else
    let '(o1, (code, out)) := run (show_cmd a) in
    if decide (code ≠ 0) then Some (o1 ++ show_failed out, Return 3)
    else if decide (code ≠ 0) then
      if json a then
        Some (o1 ++ [Json false
                       (ErrorDoc (file a) (lit "llvm-cov show failed") out)],
              Return 3)
      else Some (o1 ++ show_failed out, Return 3)
    else
      match parse_annotated out with
      | None => Some (o1, ValueError)
      | Some uncovered_lines =>
          ranges ← compress_ranges uncovered_lines;
          let o2 := summary (file a) uncovered_lines ranges in
          let total_uncovered := len uncovered_lines in
          let o3 := if json a then []
                    else summary (file a) uncovered_lines ranges in
          let '(o4, (_, report_out)) := run (report_cmd a) in
          '(rep_line, pcts) ← extract_report_for_file report_out (file a);
          let o5 := report_block rep_line pcts in
          let result := ResultDoc (file a) total_uncovered
                          ((λ r, [r.1; r.2]) <$> ranges) uncovered_lines
                          rep_line pcts in
          let o6 := if json a then [Json true result]
                    else report_block rep_line pcts in
          Some (o1 ++ o2 ++ o3 ++ o4 ++ o5 ++ o6, Return 0)
      end.
End main.

End CoverageUncoveredMain.

(** *** [map_uncovered_to_functions.py], [main] *)

Module MapUncoveredMain.
Import MapUncovered.

(** [sorted(mapped, key=lambda x: x['uncovered_count'], reverse=True)]. The
    sort of Python is stable, with [reverse=True] too: entries of equal
    count keep their order. An entry is put before the first entry whose
    count is not greater than its own. *)
Fixpoint insert_by_count (e : entry) (l : list entry) : list entry :=
  match l with
  | [] => [e]
  | x :: l' =>
      if decide (e_uncovered_count e < e_uncovered_count x)
      then x :: insert_by_count e l'
      else e :: l
  end.

Definition sorted_by_count (l : list entry) : list entry :=
  foldr insert_by_count [] l.

(** The dictionary [out]. *)
Record out_doc := OutDoc {
  o_file : str;
  o_total_uncovered_lines : Z;
  o_functions : list entry;
  o_others_uncovered_lines : list Z
}.

(** What one call of [print] writes: a text, or [out] through
    [json.dumps(out, indent=2)]. *)
Inductive item :=
  | Text (s : str)
  | JsonOut (d : out_doc).

(** The line printed for a function of the top list. *)
Definition top_line (fn : entry) : item :=
  Text (lit "- " ++ e_name fn ++ lit " (" ++ str_int (e_start fn)
        ++ lit ".." ++ str_int (e_end fn) ++ lit "): "
        ++ str_int (e_uncovered_count fn) ++ lit " lines").

Section main.
Context {J : Type}.
Variable run : str → Z * str.
Variable shlex_quote : str → str.
Variable json_loads : str → str + J.
(** [data.get('uncovered_lines', [])], or the message of the exception. *)
Variable uncovered_lines_of : J → str + list Z.
(** [open(path).readlines()], or the message of the exception. *)
Variable readlines : str → str + list str.

(** What [main] prints and the status it returns, or the exception that
    ends it. [None] stands for an exception inside [find_functions] or
    [map_uncovered_to_functions]. *)
Definition main (file : str) (top : Z)
  : option (outcome (list item * Z)) :=
  match (get_uncovered run shlex_quote json_loads file
           (lit "./tools/coverage_uncovered.py")).2 with
  | Raised msg => Some (Raised msg)
  | Returned data =>
      match uncovered_lines_of data with
      | inl msg => Some (Raised msg)
      | inr uncovered_lines =>
          match readlines file with
          | inl msg => Some (Raised msg)
          | inr src_lines =>
              funcs ← find_functions src_lines;
              '(mapped, others) ←
                map_uncovered_to_functions uncovered_lines funcs;
              let mapped_sorted := sorted_by_count mapped in
              let out := OutDoc file (len uncovered_lines) mapped_sorted
                           others in
              Some (Returned
                      ([Text (lit "Top " ++ str_int top
                              ++ lit " functions by uncovered lines:")]
                       ++ (top_line <$> slice_list_to top mapped_sorted)
                       ++ [Text ([LF] ++ lit "JSON output:"); JsonOut out],
                       0))
          end
      end
  end.
End main.

End MapUncoveredMain.

(** ** Notions used in the statements *)

(** A text line as [readlines()] yields it, with its LF. *)
Definition nl (s : string) : str := lit s ++ [LF].

(** The bucket of a line for the attributor: the name of the span at which
    the scan of [funcs] stops. *)
Definition bucket (funcs : list MapUncovered.span) (ln : Z) : option str :=
  MapUncovered.name <$> MapUncovered.first_match ln funcs.

(** The integers of a list of inclusive ranges. *)
Definition expand (ranges : list (Z * Z)) : list Z :=
  r ← ranges; seqZ r.1 (r.2 - r.1 + 1).

(** [r2] lies after [r1] with a gap: the two can not be merged. *)
Definition separated (r1 r2 : Z * Z) : Prop := r1.2 + 1 < r2.1.

(** Sum of a list of integers. *)
Definition sum_Z (l : list Z) : Z := foldr Z.add 0 l.

(** The dictionary [func_map] after the lines [u] have gone through the
    attribution loop: each item has received the lines of its bucket, in
    input order. *)
Definition add_lines (funcs : list MapUncovered.span) (u : list Z)
    (func_map : Dict.t MapUncovered.fdata) : Dict.t MapUncovered.fdata :=
  (λ kv, (kv.1,
          MapUncovered.FData (MapUncovered.d_start kv.2)
            (MapUncovered.d_end kv.2)
            (MapUncovered.d_uncovered_lines kv.2
             ++ filter (λ ln, bucket funcs ln = Some kv.1) u)))
  <$> func_map.

(** The last span of [funcs] that carries the name [n]. *)
Definition last_named (n : str) (funcs : list MapUncovered.span)
  : option MapUncovered.span :=
  last (filter (λ f, MapUncovered.name f = n) funcs).

(** The entry of the result for the item [kv] of the initial dictionary,
    given the input lines [u]. *)
Definition entry_of (funcs : list MapUncovered.span) (u : list Z)
    (kv : str * MapUncovered.fdata) : MapUncovered.entry :=
  let lines := sorted (filter (λ ln, bucket funcs ln = Some kv.1) u) in
  MapUncovered.Entry kv.1 (MapUncovered.d_start kv.2)
    (MapUncovered.d_end kv.2) (len lines) lines.

(** Every character of [s] is in the class [p]. *)
Definition all_of (p : ascii → bool) (s : str) : Prop :=
  Forall (λ c, p c = true) s.

(** The shape [<ws>*<lineno>|<ws>*<count>?|<text>] of a data line of the
    annotated listing, read off the pattern [line_rx]: [g1] is the line
    number and [count] the execution count, [None] when the field has no
    digits. *)
Definition line_shape (ln g1 : str) (count : option str) : Prop :=
  ∃ ws1 ws2 text,
    ln = ws1 ++ g1 ++ bar :: ws2 ++ default [] count ++ bar :: text
    ∧ all_of is_space ws1 ∧ all_of is_digit g1 ∧ g1 ≠ []
    ∧ all_of is_space ws2
    ∧ all_of is_digit (default [] count) ∧ count ≠ Some [].

(** [ln] is a data line whose count field is the text [0], and [n] is its
    line number. *)
Definition uncovered_line (ln : str) (n : Z) : Prop :=
  ∃ g1, line_shape ln g1 (Some (lit "0")) ∧ int g1 = Some n.

(** [ln] is a data line whose line number has more digits than [int]
    converts. *)
Definition long_number (ln : str) : Prop :=
  ∃ g1 count, line_shape ln g1 count ∧ max_str_digits < len g1.

(** The test of [long_number] on the lines of a listing, through the
    pattern: no matched line has a number of too many digits. *)
Definition short_numbers (lines : list str) : bool :=
  forallb (λ ln, match CoverageUncovered.line_rx_match ln with
                 | Some (g1, _) => bool_decide (len g1 ≤ max_str_digits)
                 | None => true
                 end) lines.

(** [ns] lists, in order, the numbers of the lines of [lines] that are
    uncovered lines, and nothing else. *)
Inductive classified : list str → list Z → Prop :=
  | classified_nil : classified [] []
  | classified_uncovered ln n lines ns :
      uncovered_line ln n → classified lines ns →
      classified (ln :: lines) (n :: ns)
  | classified_skip ln lines ns :
      (∀ n, ¬ uncovered_line ln n) → classified lines ns →
      classified (ln :: lines) ns.

(** What one line adds to the list [uncovered] in [parse_annotated], or
    [None] when [int] raises on it. *)
Definition line_result (ln : str) : option (list Z) :=
  match CoverageUncovered.line_rx_match ln with
  | Some (g1, count) =>
      lineno ← int g1;
      Some (match count with
            | Some count => if decide (count = lit "0") then [lineno] else []
            | None => []
            end)
  | None => Some []
  end.

(** [needle] occurs in [hay]. *)
Definition substring (needle hay : str) : Prop :=
  ∃ a b, hay = a ++ needle ++ b.



(** What holds of the spans that [find_functions] has recorded when its
    cursor is at [i]: each is well formed and ends at or before line [i],
    and each starts after the end of every earlier one. *)
Definition spans_before (i : nat) (funcs : list MapUncovered.span) : Prop :=
  Forall (λ f, MapUncovered.start f ≤ MapUncovered.body_start f
               ∧ MapUncovered.body_start f ≤ MapUncovered.end_ f
               ∧ MapUncovered.end_ f ≤ Z.of_nat i) funcs
  ∧ StronglySorted (λ f g, MapUncovered.end_ f < MapUncovered.start g) funcs.

(** A list of ranges in canonical form: no range is empty, and each range
    lies after the one before it with a gap. *)
Definition canonical (ranges : list (Z * Z)) : Prop :=
  Forall (λ r, r.1 ≤ r.2) ranges ∧ Sorted separated ranges.

(** The number of integers of a range. *)
Definition range_size (r : Z * Z) : Z := r.2 - r.1 + 1.

(** The test of [find_functions] for a line that may open a function: it is
    no preprocessor line and no comment, it has both parentheses, it does
    not end with a semicolon, and its first word is no control keyword. *)
Definition is_signature_line (line : str) : bool :=
  let stripped := strip line in
  negb (startswith (lit "#") stripped || startswith (lit "//") stripped)
  && (char_in lparen line && char_in rparen line
      && negb (endswith (lit ";") stripped))
  && negb (bool_decide (default [] (head (split stripped))
                        ∈ MapUncovered.control_kw)).

(** Line [j] (from 0) of the source has an opening brace. *)
Definition has_brace (source_lines : list str) (j : nat) : Prop :=
  ∃ l, source_lines !! j = Some l ∧ char_in lbrace l = true.

(** Line [i] is a signature line with an opening brace on it or on one of
    the five lines after it. *)
Definition candidate (source_lines : list str) (i : nat) : Prop :=
  ∃ line, source_lines !! i = Some line ∧ is_signature_line line = true
          ∧ ∃ j, (i ≤ j ≤ i + 5)%nat ∧ has_brace source_lines j.

(** Opening minus closing braces of a line, and of a list of lines. *)
Definition brace_delta (l : str) : Z :=
  count_char lbrace l - count_char rbrace l.

Definition brace_balance (ls : list str) : Z := sum_Z (brace_delta <$> ls).

(** The lines [a..b] (from 0, both included). *)
Definition lines_between (source_lines : list str) (a b : nat) : list str :=
  take (b + 1 - a) (drop a source_lines).

(** The span [f] opens at line [i], has its brace at line [bl] and ends at
    line [el] (all from 0), as [find_functions] finds them. *)
Definition span_at (source_lines : list str) (f : MapUncovered.span)
    (i bl el : nat) : Prop :=
  MapUncovered.start f = Z.of_nat i + 1
  ∧ MapUncovered.body_start f = Z.of_nat bl + 1
  ∧ MapUncovered.end_ f = Z.of_nat el + 1
  ∧ (i ≤ bl ≤ el)%nat ∧ (el < length source_lines)%nat ∧ (bl ≤ i + 5)%nat
  ∧ (∃ line, source_lines !! i = Some line ∧ is_signature_line line = true
             ∧ MapUncovered.name f = MapUncovered.function_name line)
  ∧ has_brace source_lines bl
  ∧ (∀ j, (i ≤ j < bl)%nat → ¬ has_brace source_lines j)
  ∧ (brace_balance (lines_between source_lines bl el) = 0
     ∨ S el = length source_lines)
  ∧ (∀ k, (bl ≤ k < el)%nat →
          brace_balance (lines_between source_lines bl k) ≠ 0).

(** The item is a text, not a dictionary. *)
Definition is_text (it : CoverageUncoveredMain.item) : Prop :=
  ∃ s, it = CoverageUncoveredMain.Text s.

(** The item is the error dictionary. *)
Definition is_error_doc (it : CoverageUncoveredMain.item) : Prop :=
  ∃ indent f e s,
    it = CoverageUncoveredMain.Json indent (CoverageUncoveredMain.ErrorDoc f e s).

(** Entries in the order of the ranking: the count does not go up. *)
Definition count_ge (a b : MapUncovered.entry) : Prop :=
  MapUncovered.e_uncovered_count b ≤ MapUncovered.e_uncovered_count a.

(** The item is a text, not the dictionary. *)
Definition is_text_item (it : MapUncoveredMain.item) : Prop :=
  ∃ s, it = MapUncoveredMain.Text s.

(** * Properties *)

(** ** Dictionaries *)

Module DictFacts.
Section facts.
Context {V : Type}.
Implicit Types (d : Dict.t V) (k : str) (v : V).

Lemma keys_set d k v :
  Dict.keys (Dict.set d k v) =
  if bool_decide (k ∈ Dict.keys d) then Dict.keys d else Dict.keys d ++ [k].
Proof.
  unfold Dict.keys.
  induction d as [|[k' v'] d IH]; csimpl; [done|].
  destruct (decide (k' = k)) as [->|Hne]; csimpl.
  - rewrite bool_decide_eq_true_2; [done|]. by left.
  - rewrite IH.
    destruct (bool_decide (k ∈ d.*1)) eqn:E.
    + apply bool_decide_eq_true_1 in E.
      rewrite bool_decide_eq_true_2; [done|]. by right.
    + apply bool_decide_eq_false_1 in E.
      rewrite bool_decide_eq_false_2; [done|].
      intros [?|?]%elem_of_cons; congruence.
Qed.

Lemma keys_set_NoDup d k v :
  NoDup (Dict.keys d) → NoDup (Dict.keys (Dict.set d k v)).
Proof.
  intros Hd. rewrite keys_set. case_bool_decide as E; [done|].
  apply NoDup_app. split_and!; [done| |apply NoDup_singleton].
  intros x Hx ->%list_elem_of_singleton. done.
Qed.

Lemma get_set d k k' v :
  Dict.get (Dict.set d k v) k' =
  if decide (k = k') then Some v else Dict.get d k'.
Proof.
  induction d as [|[k0 v0] d IH]; csimpl.
  - destruct (decide (k = k')); done.
  - destruct (decide (k0 = k)) as [->|Hne]; csimpl.
    + destruct (decide (k = k')); done.
    + destruct (decide (k0 = k')) as [->|?]; [|done].
      by rewrite decide_False.
Qed.

Lemma get_is_Some d k : k ∈ Dict.keys d → is_Some (Dict.get d k).
Proof.
  induction d as [|[k0 v0] d IH]; csimpl; [by intros ?%elem_of_nil|].
  intros [->|Hin]%elem_of_cons.
  - rewrite decide_True; eauto.
  - destruct (decide (k0 = k)); eauto.
Qed.

Lemma get_Some_elem_of d k v :
  NoDup (Dict.keys d) → Dict.get d k = Some v ↔ (k, v) ∈ d.
Proof.
  induction d as [|[k0 v0] d IH]; csimpl.
  - intros _. split; [done|by intros ?%elem_of_nil].
  - intros [Hk0 Hd]%NoDup_cons. specialize (IH Hd).
    destruct (decide (k0 = k)) as [->|Hne].
    + split; [intros [= ->]; by left|].
      intros [[= ->]|Hin]%elem_of_cons; [done|].
      destruct Hk0. apply list_elem_of_fmap. by exists (k, v).
    + rewrite IH. split; [by right|].
      intros [[= ? ?]|?]%elem_of_cons; [congruence|done].
Qed.

(** Assigning to a key that is present rewrites its item in place. *)
Lemma set_present d k v :
  NoDup (Dict.keys d) → k ∈ Dict.keys d →
  Dict.set d k v = (λ kv, if decide (kv.1 = k) then (k, v) else kv) <$> d.
Proof.
  induction d as [|[k0 v0] d IH]; csimpl; [by intros _ ?%elem_of_nil|].
  intros [Hk0 Hd]%NoDup_cons Hin.
  destruct (decide (k0 = k)) as [->|Hne].
  - f_equal. clear IH Hin Hd.
    induction d as [|[k1 v1] d IH]; csimpl; [done|].
    csimpl in Hk0. apply not_elem_of_cons in Hk0 as [? ?].
    rewrite decide_False by done. f_equal. by apply IH.
  - apply elem_of_cons in Hin as [?|Hin]; [congruence|].
    f_equal. by apply IH.
Qed.
End facts.
End DictFacts.

(** ** The attributor *)

Module AttributorFacts.
Import MapUncovered.

Lemma first_match_Some ln funcs f :
  first_match ln funcs = Some f ↔
  ∃ pre post, funcs = pre ++ f :: post ∧ in_span ln f = true
              ∧ ∀ g, g ∈ pre → in_span ln g = false.
Proof.
  induction funcs as [|g funcs IH]; simpl.
  - split; [done|]. intros (pre & post & E & _). by destruct pre.
  - destruct (in_span ln g) eqn:Hg.
    + split.
      * intros [= ->]. exists [], funcs. split_and!; [done..|].
        by intros ? ?%elem_of_nil.
      * intros ([|g' pre] & post & E & Hf & Hpre); simplify_eq/=; [done|].
        rewrite Hpre in Hg; [done|by left].
    + rewrite IH. split.
      * intros (pre & post & -> & Hf & Hpre). exists (g :: pre), post.
        split_and!; [done..|]. intros g' [->|?]%elem_of_cons; auto.
      * intros ([|g' pre] & post & E & Hf & Hpre); simplify_eq/=.
        { congruence. }
        exists pre, post. split_and!; [done..|]. intros; apply Hpre. by right.
Qed.

Lemma first_match_None ln funcs :
  first_match ln funcs = None ↔ ∀ g, g ∈ funcs → in_span ln g = false.
Proof.
  induction funcs as [|g funcs IH]; simpl.
  - split; [by intros _ ? ?%elem_of_nil|done].
  - destruct (in_span ln g) eqn:Hg.
    + split; [done|]. intros H. rewrite H in Hg; [done|by left].
    + rewrite IH. split.
      * intros H g' [->|?]%elem_of_cons; auto.
      * intros H g' ?. apply H. by right.
Qed.

Lemma in_span_true ln f : in_span ln f = true ↔ start f ≤ ln ≤ end_ f.
Proof. unfold in_span. rewrite andb_true_iff, !Z.leb_le. done. Qed.

Lemma in_span_false ln f : in_span ln f = false ↔ ¬ (start f ≤ ln ≤ end_ f).
Proof. rewrite <-in_span_true. by destruct (in_span ln f). Qed.

Lemma first_match_name_elem_of ln funcs f :
  first_match ln funcs = Some f → f ∈ funcs.
Proof.
  intros (pre & post & -> & _)%first_match_Some. set_solver.
Qed.

(** *** The first loop *)

Lemma init_func_map_snoc funcs f :
  init_func_map (funcs ++ [f]) =
  Dict.set (init_func_map funcs) (name f) (FData (start f) (end_ f) []).
Proof. unfold init_func_map. by rewrite foldl_snoc. Qed.

Lemma init_func_map_NoDup funcs : NoDup (Dict.keys (init_func_map funcs)).
Proof.
  induction funcs as [|f funcs IH] using rev_ind; [constructor|].
  rewrite init_func_map_snoc. by apply DictFacts.keys_set_NoDup.
Qed.

Lemma init_func_map_keys funcs n :
  n ∈ Dict.keys (init_func_map funcs) ↔ n ∈ name <$> funcs.
Proof.
  induction funcs as [|f funcs IH] using rev_ind.
  - done.
  - rewrite init_func_map_snoc, DictFacts.keys_set, fmap_app. csimpl.
    rewrite elem_of_app, list_elem_of_singleton, <-IH.
    case_bool_decide as E.
    + split; [tauto|]. intros [?| ->]; done.
    + by rewrite elem_of_app, list_elem_of_singleton.
Qed.

Lemma init_func_map_get funcs n :
  Dict.get (init_func_map funcs) n =
  (λ f, FData (start f) (end_ f) []) <$> last_named n funcs.
Proof.
  unfold last_named.
  induction funcs as [|f funcs IH] using rev_ind; [done|].
  rewrite init_func_map_snoc, DictFacts.get_set, filter_app.
  rewrite filter_cons, filter_nil.
  destruct (decide (name f = n)) as [<-|Hne].
  - by rewrite last_snoc.
  - by rewrite app_nil_r.
Qed.

(** *** The second loop *)

Lemma add_lines_keys funcs u m : Dict.keys (add_lines funcs u m) = Dict.keys m.
Proof.
  unfold Dict.keys, add_lines. rewrite <-list_fmap_compose.
  by apply list_fmap_ext.
Qed.

Lemma add_lines_nil funcs m : add_lines funcs [] m = m.
Proof.
  unfold add_lines. rewrite <-(list_fmap_id m) at 2.
  apply list_fmap_ext. intros _ [k [s e l]] _. simpl.
  by rewrite filter_nil, app_nil_r.
Qed.

Lemma add_lines_cons funcs ln u m :
  add_lines funcs (ln :: u) m = add_lines funcs u (add_lines funcs [ln] m).
Proof.
  unfold add_lines. rewrite <-list_fmap_compose.
  apply list_fmap_ext. intros _ [k [s e l]] _. simpl.
  rewrite !filter_cons, filter_nil.
  case_decide; by rewrite <-?app_assoc, ?app_nil_r.
Qed.

Lemma append_line_present funcs m f ln :
  NoDup (Dict.keys m) → name f ∈ Dict.keys m →
  bucket funcs ln = Some (name f) →
  append_line m (name f) ln = Some (add_lines funcs [ln] m).
Proof.
  intros Hnd Hin Hb. unfold append_line.
  destruct (DictFacts.get_is_Some m (name f) Hin) as [d Hd].
  rewrite Hd. csimpl. f_equal.
  rewrite DictFacts.set_present by done.
  unfold add_lines. apply list_fmap_ext. intros i [k d'] Hi. simpl.
  rewrite filter_cons, filter_nil.
  destruct (decide (k = name f)) as [->|Hne].
  - rewrite decide_True by done.
    assert (d' = d) as ->; [|done].
    apply list_elem_of_lookup_2 in Hi.
    apply DictFacts.get_Some_elem_of in Hi; [congruence|done].
  - rewrite decide_False by congruence. by rewrite app_nil_r; destruct d'.
Qed.

Lemma append_line_absent funcs m ln :
  bucket funcs ln = None → add_lines funcs [ln] m = m.
Proof.
  intros Hb. unfold add_lines. rewrite <-(list_fmap_id m) at 2.
  apply list_fmap_ext. intros _ [k [s e l]] _. simpl.
  rewrite filter_cons, filter_nil, decide_False by congruence.
  by rewrite app_nil_r.
Qed.

(** The second loop never raises, and sorts each line into its bucket. *)
Lemma attribute_lines_spec funcs m others u :
  NoDup (Dict.keys m) → (∀ f, f ∈ funcs → name f ∈ Dict.keys m) →
  attribute_lines funcs m others u =
  Some (add_lines funcs u m, others ++ filter (λ ln, bucket funcs ln = None) u).
Proof.
  revert m others. induction u as [|ln u IH]; intros m others Hnd Hkeys.
  - simpl. by rewrite add_lines_nil, filter_nil, app_nil_r.
  - simpl. rewrite add_lines_cons, filter_cons.
    destruct (first_match ln funcs) as [f|] eqn:Hfm.
    + assert (bucket funcs ln = Some (name f)) as Hb
        by (unfold bucket; by rewrite Hfm).
      rewrite (append_line_present funcs) by
        eauto using first_match_name_elem_of.
      csimpl. rewrite IH.
      * by rewrite decide_False by congruence.
      * by rewrite add_lines_keys.
      * intros. rewrite add_lines_keys. auto.
    + assert (bucket funcs ln = None) as Hb
        by (unfold bucket; by rewrite Hfm).
      rewrite (append_line_absent _ _ _ Hb), decide_True by done.
      rewrite IH by done. by rewrite <-app_assoc.
Qed.

(** The function never raises; its result in closed form. *)
Lemma map_uncovered_to_functions_spec uncovered funcs :
  map_uncovered_to_functions uncovered funcs =
  Some (to_entry <$> add_lines funcs uncovered (init_func_map funcs),
        sorted (filter (λ ln, bucket funcs ln = None) uncovered)).
Proof.
  unfold map_uncovered_to_functions.
  rewrite attribute_lines_spec; [done|apply init_func_map_NoDup|].
  intros f Hf. apply init_func_map_keys. set_solver.
Qed.

(** *** The third loop *)

Lemma elem_of_set_inv {V} (d : Dict.t V) k v kv :
  kv ∈ Dict.set d k v → kv = (k, v) ∨ kv ∈ d.
Proof.
  induction d as [|[k0 v0] d IH]; csimpl.
  - intros ->%list_elem_of_singleton. by left.
  - destruct (decide (k0 = k)) as [->|Hne].
    + intros [->|?]%elem_of_cons; [by left|right; by right].
    + intros [->|Hin]%elem_of_cons; [right; by left|].
      destruct (IH Hin) as [?|?]; [by left|right; by right].
Qed.

Lemma init_func_map_lines funcs kv :
  kv ∈ init_func_map funcs → d_uncovered_lines kv.2 = [].
Proof.
  induction funcs as [|f funcs IH] using rev_ind.
  - by intros ?%elem_of_nil.
  - rewrite init_func_map_snoc. intros [->|?]%elem_of_set_inv; auto.
Qed.

Lemma result_entries funcs u :
  to_entry <$> add_lines funcs u (init_func_map funcs) =
  entry_of funcs u <$> init_func_map funcs.
Proof.
  unfold add_lines. rewrite <-list_fmap_compose.
  apply list_fmap_ext. intros i kv Hi.
  apply list_elem_of_lookup_2, init_func_map_lines in Hi.
  unfold to_entry, entry_of. simpl. by rewrite Hi.
Qed.

Lemma result_closed_form uncovered funcs :
  map_uncovered_to_functions uncovered funcs =
  Some (entry_of funcs uncovered <$> init_func_map funcs,
        sorted (filter (λ ln, bucket funcs ln = None) uncovered)).
Proof. by rewrite map_uncovered_to_functions_spec, result_entries. Qed.

Lemma result_lines funcs u :
  e_uncovered_lines <$> (entry_of funcs u <$> init_func_map funcs) =
  (λ k, sorted (filter (λ ln, bucket funcs ln = Some k) u))
  <$> Dict.keys (init_func_map funcs).
Proof.
  unfold Dict.keys. rewrite <-!list_fmap_compose. by apply list_fmap_ext.
Qed.

Lemma result_names funcs u :
  e_name <$> (entry_of funcs u <$> init_func_map funcs) =
  Dict.keys (init_func_map funcs).
Proof.
  unfold Dict.keys. rewrite <-!list_fmap_compose. by apply list_fmap_ext.
Qed.

Lemma bucket_Some_key funcs ln k :
  bucket funcs ln = Some k → k ∈ Dict.keys (init_func_map funcs).
Proof.
  unfold bucket. destruct (first_match ln funcs) as [f|] eqn:E; [|done].
  intros [= <-]. apply init_func_map_keys, list_elem_of_fmap.
  eauto using first_match_name_elem_of.
Qed.

(** *** Counting *)

Section partition.
Context (b : Z → option str).

Lemma concat_buckets_nil (ks : list str) :
  concat ((λ k, filter (λ ln, b ln = Some k) []) <$> ks) = [].
Proof. induction ks as [|k ks IH]; csimpl; [done|]. exact IH. Qed.

Lemma concat_buckets_skip (ks : list str) ln u :
  b ln = None →
  concat ((λ k, filter (λ ln, b ln = Some k) (ln :: u)) <$> ks) =
  concat ((λ k, filter (λ ln, b ln = Some k) u) <$> ks).
Proof.
  intros Hb. f_equal. apply list_fmap_ext. intros _ k _.
  by rewrite filter_cons, decide_False by congruence.
Qed.

Lemma concat_buckets_absent (ks : list str) k0 ln u :
  b ln = Some k0 → k0 ∉ ks →
  concat ((λ k, filter (λ ln, b ln = Some k) (ln :: u)) <$> ks) =
  concat ((λ k, filter (λ ln, b ln = Some k) u) <$> ks).
Proof.
  intros Hb Hk. f_equal. apply list_fmap_ext. intros i k Hi.
  rewrite filter_cons, decide_False; [done|].
  intros E. rewrite Hb in E. injection E as <-.
  apply Hk. by apply list_elem_of_lookup_2 in Hi.
Qed.

Lemma concat_buckets_take (ks : list str) k0 ln u :
  b ln = Some k0 → NoDup ks → k0 ∈ ks →
  concat ((λ k, filter (λ ln, b ln = Some k) (ln :: u)) <$> ks) ≡ₚ
  ln :: concat ((λ k, filter (λ ln, b ln = Some k) u) <$> ks).
Proof.
  intros Hb. induction ks as [|k ks IH]; [by intros _ ?%elem_of_nil|].
  intros [Hk Hnd]%NoDup_cons Hin. csimpl. rewrite filter_cons.
  destruct (decide (k = k0)) as [->|Hne].
  - rewrite decide_True by done.
    by rewrite (concat_buckets_absent ks k0).
  - rewrite decide_False by congruence.
    apply elem_of_cons in Hin as [?|Hin]; [congruence|].
    rewrite IH by done. by rewrite Permutation_middle.
Qed.

(** The buckets of the keys and the unattributed bucket split the input. *)
Lemma buckets_partition (ks : list str) u :
  NoDup ks → (∀ ln k, b ln = Some k → k ∈ ks) →
  concat ((λ k, filter (λ ln, b ln = Some k) u) <$> ks)
  ++ filter (λ ln, b ln = None) u ≡ₚ u.
Proof.
  intros Hnd Hks. induction u as [|ln u IH].
  - by rewrite concat_buckets_nil, filter_nil.
  - rewrite (filter_cons (λ ln, b ln = None)).
    destruct (b ln) as [k0|] eqn:Hb.
    + rewrite decide_False by done.
      rewrite (concat_buckets_take ks k0) by eauto. csimpl. by rewrite IH.
    + rewrite decide_True by done.
      rewrite concat_buckets_skip by done.
      by rewrite <-Permutation_middle, IH.
Qed.
End partition.

Lemma concat_sorted_Permutation {A} (F : A → list Z) (ks : list A) :
  concat ((λ k, sorted (F k)) <$> ks) ≡ₚ concat (F <$> ks).
Proof.
  induction ks as [|k ks IH]; csimpl; [done|].
  unfold sorted at 1. by rewrite merge_sort_Permutation, IH.
Qed.

Lemma Sorted_le_NoDup_lt (l : list Z) :
  Sorted Z.le l → NoDup l → Sorted Z.lt l.
Proof.
  intros Hs%Sorted_StronglySorted; [|intros ???; lia].
  induction Hs as [|x l Hl IH Hx]; intros Hnd; [constructor|].
  apply NoDup_cons in Hnd as [Hx' Hnd].
  constructor; [by apply IH|].
  destruct l as [|y l]; constructor.
  apply Forall_cons in Hx as [Hxy _].
  assert (x ≠ y) by (intros ->; apply Hx'; by left). lia.
Qed.

Lemma sum_counts (es : list entry) :
  Forall (λ e, e_uncovered_count e = len (e_uncovered_lines e)) es →
  sum_Z (e_uncovered_count <$> es) = len (concat (e_uncovered_lines <$> es)).
Proof.
  unfold len. induction 1 as [|e es He _ IH]; csimpl; [done|].
  rewrite IH, He, length_app. unfold len. lia.
Qed.

End AttributorFacts.

(** ** The results of [map_uncovered_to_functions] *)

Import MapUncovered.


(** C1. Lines are conserved: the call returns, the counts of the entries
    and the length of the unattributed list add up to the number of input
    lines, and the lines of the entries together with the unattributed ones
    are the input lines, each occurrence in one bucket. *)
Theorem map_uncovered_conserves_lines (uncovered : list Z) (funcs : list span) :
  ∃ result others,
    map_uncovered_to_functions uncovered funcs = Some (result, others)
    ∧ sum_Z (e_uncovered_count <$> result) + len others = len uncovered
    ∧ concat (e_uncovered_lines <$> result) ++ others ≡ₚ uncovered.
Proof.
  eexists _, _. split; [apply AttributorFacts.result_closed_form|].
  assert (concat (e_uncovered_lines <$>
            (entry_of funcs uncovered <$> init_func_map funcs))
          ++ sorted (filter (λ ln, bucket funcs ln = None) uncovered)
          ≡ₚ uncovered) as HP.
  { rewrite AttributorFacts.result_lines.
    rewrite AttributorFacts.concat_sorted_Permutation.
    unfold sorted. rewrite merge_sort_Permutation.
    apply AttributorFacts.buckets_partition.
    - apply AttributorFacts.init_func_map_NoDup.
    - apply AttributorFacts.bucket_Some_key. }
  split; [|done].
  rewrite AttributorFacts.sum_counts.
  - apply Permutation_length in HP. rewrite length_app in HP.
    unfold len. lia.
  - apply Forall_fmap, Forall_forall. done.
Qed.

(** C3. Two spans that carry one name get one entry, not one each: on a
    source with two overloads of [f], [find_functions] reports two spans and
    the attributor returns a single entry, which has the bounds of the second
    span and the lines of both. *)
Theorem same_name_spans_one_entry :
  let source_lines := [nl "void f(int a) {"; nl "}";
                       nl "void f(double a) {"; nl "}"] in
  let funcs := [Span (lit "f") 1 1 2; Span (lit "f") 3 3 4] in
  find_functions source_lines = Some funcs
  ∧ map_uncovered_to_functions [2; 3] funcs
    = Some ([Entry (lit "f") 3 4 2 [2; 3]], [])
  ∧ length funcs = 2%nat.
Proof. split_and!; reflexivity. Qed.

(** C5. A line does not reach the span it was matched with when a later
    span carries the same name: on a source with two overloads of [f], line 2
    lies in the first span only, which is its first match, and the attributor
    lists it in the one entry named [f], whose bounds are those of the second
    span. *)
Theorem first_match_other_bounds :
  let source_lines := [nl "void f(int a) {"; nl "}";
                       nl "void f(double a) {"; nl "}"] in
  let funcs := [Span (lit "f") 1 1 2; Span (lit "f") 3 3 4] in
  find_functions source_lines = Some funcs
  ∧ first_match 2 funcs = Some (Span (lit "f") 1 1 2)
  ∧ map_uncovered_to_functions [2] funcs
    = Some ([Entry (lit "f") 3 4 1 [2]], []).
Proof. split_and!; reflexivity. Qed.

(** X27. A line that lies in a span is listed in the entry that carries
    the name of the first such span, in the order of [funcs], in no entry of
    another name and not among the unattributed lines. A line that lies in no
    span is unattributed and listed in no entry. *)
Theorem first_match_attribution (uncovered : list Z) (funcs : list span)
    (ln : Z) :
  ln ∈ uncovered →
  ∃ result others,
    map_uncovered_to_functions uncovered funcs = Some (result, others)
    ∧ (∀ pre f post,
         funcs = pre ++ f :: post →
         start f ≤ ln ≤ end_ f →
         (∀ g, g ∈ pre → ¬ (start g ≤ ln ≤ end_ g)) →
         (∃ e, e ∈ result ∧ e_name e = name f ∧ ln ∈ e_uncovered_lines e)
         ∧ (∀ e, e ∈ result → ln ∈ e_uncovered_lines e → e_name e = name f)
         ∧ ln ∉ others)
    ∧ ((∀ g, g ∈ funcs → ¬ (start g ≤ ln ≤ end_ g)) →
       ln ∈ others ∧ ∀ e, e ∈ result → ln ∉ e_uncovered_lines e).
Proof.
  intros Hln. eexists _, _.
  split; [apply AttributorFacts.result_closed_form|].
  assert (∀ l, ln ∈ sorted l ↔ ln ∈ l) as Hsorted.
  { intros l. unfold sorted. by rewrite merge_sort_Permutation. }
  assert (∀ e, e ∈ entry_of funcs uncovered <$> init_func_map funcs →
               ln ∈ e_uncovered_lines e → bucket funcs ln = Some (e_name e))
    as Hentry.
  { intros e (kv & -> & _)%list_elem_of_fmap. simpl.
    rewrite Hsorted, list_elem_of_filter. tauto. }
  split.
  - intros pre f post Hfuncs Hf Hpre.
    assert (bucket funcs ln = Some (name f)) as Hb.
    { unfold bucket.
      rewrite (proj2 (AttributorFacts.first_match_Some ln funcs f)); [done|].
      exists pre, post. split_and!; [done|by apply AttributorFacts.in_span_true|].
      intros g Hg. by apply AttributorFacts.in_span_false, Hpre. }
    split_and!.
    + destruct (DictFacts.get_is_Some (init_func_map funcs) (name f))
        as [d Hd].
      { apply AttributorFacts.init_func_map_keys. subst funcs.
        rewrite fmap_app, fmap_cons. apply elem_of_app. right. by left. }
      apply DictFacts.get_Some_elem_of in Hd;
        [|apply AttributorFacts.init_func_map_NoDup].
      exists (entry_of funcs uncovered (name f, d)). split_and!; [|done|].
      * apply list_elem_of_fmap. eauto.
      * simpl. rewrite Hsorted, list_elem_of_filter. done.
    + intros e He Hin. specialize (Hentry e He Hin). congruence.
    + rewrite Hsorted, list_elem_of_filter. intros [? _]. congruence.
  - intros Hnone.
    assert (bucket funcs ln = None) as Hb.
    { unfold bucket.
      rewrite (proj2 (AttributorFacts.first_match_None ln funcs)); [done|].
      intros g Hg. by apply AttributorFacts.in_span_false, Hnone. }
    split.
    + rewrite Hsorted, list_elem_of_filter. done.
    + intros e He Hin. specialize (Hentry e He Hin). congruence.
Qed.

Lemma first_match_attribution_witness :
  ∃ result others,
    map_uncovered_to_functions [5; 2; 9; 5; 30]
      [Span (lit "f") 1 1 6; Span (lit "g") 4 4 10; Span (lit "f") 20 21 40]
    = Some (result, others)
    ∧ (∃ e, e ∈ result ∧ e_name e = lit "f" ∧ 5 ∈ e_uncovered_lines e)
    ∧ (∀ e, e ∈ result → 5 ∈ e_uncovered_lines e → e_name e = lit "f")
    ∧ 5 ∉ others.
Proof.
  destruct (first_match_attribution [5; 2; 9; 5; 30]
              [Span (lit "f") 1 1 6; Span (lit "g") 4 4 10;
               Span (lit "f") 20 21 40] 5)
    as (result & others & Hmap & Hfirst & _).
  { by left. }
  exists result, others. split; [exact Hmap|].
  apply (Hfirst [] (Span (lit "f") 1 1 6)
           [Span (lit "g") 4 4 10; Span (lit "f") 20 21 40]).
  - reflexivity.
  - simpl. lia.
  - intros g Hg. by apply elem_of_nil in Hg.
Defined.

(** C7, as the code has it. The lines of each entry and the unattributed
    lines are in ascending order; they are free of duplicates when the input
    lines are. *)
Theorem uncovered_lines_sorted (uncovered : list Z) (funcs : list span) :
  ∃ result others,
    map_uncovered_to_functions uncovered funcs = Some (result, others)
    ∧ Forall (λ e, Sorted Z.le (e_uncovered_lines e)) result
    ∧ Sorted Z.le others
    ∧ (NoDup uncovered →
       Forall (λ e, Sorted Z.lt (e_uncovered_lines e)) result
       ∧ Sorted Z.lt others).
Proof.
  eexists _, _. split; [apply AttributorFacts.result_closed_form|].
  assert (∀ l, Sorted Z.le (sorted l)) as Hle.
  { intros l. apply (Sorted_merge_sort Z.le). }
  assert (∀ (P : Z → Prop) `{!∀ x, Decision (P x)},
            NoDup uncovered → Sorted Z.lt (sorted (filter P uncovered)))
    as Hlt.
  { intros P ? Hnd. apply AttributorFacts.Sorted_le_NoDup_lt; [apply Hle|].
    unfold sorted. rewrite merge_sort_Permutation. by apply NoDup_filter. }
  split_and!.
  - apply Forall_fmap, Forall_forall. intros kv _. apply Hle.
  - apply Hle.
  - intros Hnd. split; [|by apply (Hlt (λ ln, bucket funcs ln = None) _)].
    apply Forall_fmap, Forall_forall. intros kv _.
    by apply (Hlt (λ ln, bucket funcs ln = Some kv.1) _).
Qed.

Lemma uncovered_lines_sorted_witness :
  ∃ result others,
    map_uncovered_to_functions [7; 5; 30; 2]
      [Span (lit "f") 1 1 10; Span (lit "g") 20 21 40]
    = Some (result, others)
    ∧ Forall (λ e, Sorted Z.lt (e_uncovered_lines e)) result
    ∧ Sorted Z.lt others.
Proof.
  destruct (uncovered_lines_sorted [7; 5; 30; 2]
              [Span (lit "f") 1 1 10; Span (lit "g") 20 21 40])
    as (result & others & Hmap & _ & _ & Hstrict).
  exists result, others. split; [exact Hmap|].
  apply Hstrict. apply (bool_decide_unpack _). vm_compute. exact I.
Defined.

(** C7 as stated fails: an input line that occurs twice occurs twice in the
    lines of its entry. *)
Lemma uncovered_lines_duplicate :
  ∃ result others,
    map_uncovered_to_functions [5; 5] [Span (lit "f") 1 1 10]
    = Some (result, others)
    ∧ ¬ Forall (λ e, NoDup (e_uncovered_lines e)) result.
Proof.
  exists [Entry (lit "f") 1 10 2 [5; 5]], []. split; [reflexivity|].
  intros [Hnd _]%Forall_cons. simpl in Hnd.
  apply NoDup_cons in Hnd as [Hin _]. apply Hin. by left.
Qed.

(** C10. Spans that share a name [n] come out as one entry: the names of
    the entries are pairwise distinct, and the entry named [n] has the bounds
    of the last span named [n] and, sorted, every input line whose first
    matching span is named [n]. *)
Theorem same_name_spans_merged (uncovered : list Z) (funcs : list span)
    (n : str) :
  n ∈ name <$> funcs →
  ∃ result others e last_f,
    map_uncovered_to_functions uncovered funcs = Some (result, others)
    ∧ NoDup (e_name <$> result)
    ∧ e ∈ result ∧ e_name e = n
    ∧ last_named n funcs = Some last_f
    ∧ e_start e = start last_f ∧ e_end e = end_ last_f
    ∧ e_uncovered_lines e
      = sorted (filter (λ ln, bucket funcs ln = Some n) uncovered)
    ∧ e_uncovered_count e = len (e_uncovered_lines e).
Proof.
  intros Hn.
  destruct (DictFacts.get_is_Some (init_func_map funcs) n) as [d Hd].
  { by apply AttributorFacts.init_func_map_keys. }
  pose proof Hd as Hget.
  rewrite AttributorFacts.init_func_map_get in Hget.
  destruct (last_named n funcs) as [last_f|] eqn:Hlast; [|done].
  injection Hget as <-.
  apply DictFacts.get_Some_elem_of in Hd;
    [|apply AttributorFacts.init_func_map_NoDup].
  eexists _, _,
    (entry_of funcs uncovered (n, FData (start last_f) (end_ last_f) [])),
    last_f.
  split; [apply AttributorFacts.result_closed_form|].
  split_and!; try reflexivity.
  - rewrite AttributorFacts.result_names.
    apply AttributorFacts.init_func_map_NoDup.
  - apply list_elem_of_fmap. eauto.
Qed.

Lemma same_name_spans_merged_witness :
  ∃ result others e,
    map_uncovered_to_functions [5; 2; 9; 5; 30]
      [Span (lit "f") 1 1 3; Span (lit "g") 4 4 10; Span (lit "f") 20 21 40]
    = Some (result, others)
    ∧ NoDup (e_name <$> result)
    ∧ e ∈ result ∧ e_name e = lit "f"
    ∧ e_start e = 20 ∧ e_end e = 40 ∧ e_uncovered_lines e = [2; 30].
Proof.
  destruct (same_name_spans_merged [5; 2; 9; 5; 30]
              [Span (lit "f") 1 1 3; Span (lit "g") 4 4 10;
               Span (lit "f") 20 21 40] (lit "f"))
    as (result & others & e & last_f & Hmap & Hnd & He & Hname & Hlast
        & Hstart & Hend & Hlines & _).
  { by left. }
  exists result, others, e.
  injection Hlast as <-.
  split_and!; try done.
Defined.

(** ** [compress_ranges] *)

Module CompressFacts.
Import CoverageUncovered.

Lemma compress_loop_acc ranges start prev rest :
  compress_loop ranges start prev rest =
  ranges ++ compress_loop [] start prev rest.
Proof.
  revert ranges start prev.
  induction rest as [|n rest IH]; intros ranges start prev; simpl; [done|].
  case_decide; [apply IH|].
  rewrite (IH (ranges ++ _)), (IH [_]). by rewrite <-app_assoc.
Qed.

Lemma compress_loop_cons start prev n rest :
  compress_loop [] start prev (n :: rest) =
  if decide (n = prev + 1) then compress_loop [] start n rest
  else (start, prev) :: compress_loop [] n n rest.
Proof. simpl. case_decide; [done|]. by rewrite compress_loop_acc. Qed.

Lemma elem_of_expand x ranges :
  x ∈ expand ranges ↔ ∃ r, r ∈ ranges ∧ r.1 ≤ x ≤ r.2.
Proof.
  unfold expand. rewrite list_elem_of_bind.
  split; intros (r & H1 & H2); exists r.
  - apply elem_of_seqZ in H1. split; [done|lia].
  - split; [|done]. apply elem_of_seqZ. lia.
Qed.

(** The loop on a strictly ascending input that starts above [prev]. *)
Lemma compress_loop_spec rest : ∀ start prev,
  start ≤ prev → StronglySorted Z.lt (prev :: rest) →
  let ranges := compress_loop [] start prev rest in
  Forall (λ r, start ≤ r.1 ∧ r.1 ≤ r.2) ranges
  ∧ StronglySorted separated ranges
  ∧ ∀ x, x ∈ expand ranges ↔ start ≤ x ≤ prev ∨ x ∈ rest.
Proof.
  induction rest as [|n rest IH]; intros start prev Hle Hs.
  - change (compress_loop [] start prev []) with [(start, prev)].
    cbv zeta. split_and!.
    + by repeat constructor.
    + by repeat constructor.
    + intros x. rewrite elem_of_expand. split.
      * intros (r & ->%list_elem_of_singleton & ?). by left.
      * intros [?|?%elem_of_nil]; [|done]. exists (start, prev).
        split; [by left|done].
  - cbv zeta. rewrite compress_loop_cons.
    apply StronglySorted_inv in Hs as [Hs Hprev].
    pose proof Hprev as [Hn Hrest]%Forall_cons.
    destruct (IH n n) as (IH1 & IH2 & IH3); [lia|done|].
    case_decide as Hadj.
    + destruct (IH start n) as (H1 & H2 & H3); [lia|done|].
      split_and!; [done..|]. intros x. rewrite H3, elem_of_cons.
      intuition lia.
    + split_and!.
      * constructor; [simpl; lia|].
        eapply Forall_impl; [exact IH1|]. simpl. lia.
      * constructor; [done|].
        eapply Forall_impl; [exact IH1|]. unfold separated. simpl. lia.
      * intros x. rewrite elem_of_cons.
        rewrite elem_of_expand. setoid_rewrite elem_of_cons.
        specialize (IH3 x). rewrite elem_of_expand in IH3. split.
        -- intros (r & [->|Hr] & Hx); [by left|].
           destruct (proj1 IH3) as [?|?]; eauto. right. left. lia.
        -- intros [?|[->|?]].
           ++ exists (start, prev). split; [by left|done].
           ++ destruct (proj2 IH3) as (r & ? & ?); [left; lia|]. eauto.
           ++ destruct (proj2 IH3) as (r & ? & ?); [by right|]. eauto.
Qed.

(** [sorted(set(lines))] *)
Lemma sorted_set_spec (lines : list Z) :
  let l := sorted (elements (list_to_set lines : gset Z)) in
  StronglySorted Z.lt l ∧ ∀ x, x ∈ l ↔ x ∈ lines.
Proof.
  cbv zeta. unfold sorted. split.
  - apply Sorted_StronglySorted; [intros ???; lia|].
    apply AttributorFacts.Sorted_le_NoDup_lt.
    + apply (Sorted_merge_sort Z.le).
    + rewrite merge_sort_Permutation. apply NoDup_elements.
  - intros x. rewrite merge_sort_Permutation, elem_of_elements.
    apply elem_of_list_to_set.
Qed.

(** The two scripts compute the same ranges, as pairs and as lists. *)
Lemma compress_loop_lists ranges start prev rest :
  MapUncovered.compress_loop ((λ r, [r.1; r.2]) <$> ranges) start prev rest =
  (λ r, [r.1; r.2]) <$> compress_loop ranges start prev rest.
Proof.
  revert ranges start prev.
  induction rest as [|n rest IH]; intros ranges start prev; simpl.
  - by rewrite fmap_app.
  - case_decide; [apply IH|]. rewrite <-IH. by rewrite fmap_app.
Qed.

Lemma compress_ranges_lists lines :
  MapUncovered.compress_ranges lines =
  fmap (M:=list) (λ r : Z * Z, [r.1; r.2]) <$> compress_ranges lines.
Proof.
  unfold MapUncovered.compress_ranges, compress_ranges.
  destruct lines as [|x lines]; [done|].
  destruct (head _); [|done]. csimpl. f_equal.
  apply (compress_loop_lists []).
Qed.

End CompressFacts.

(** C2. [compress_ranges] returns for every input; its ranges are in
    ascending order and any two of them are apart by a gap (so they neither
    overlap nor touch), their integers are those of the input, and the empty
    input gives no range. The copy in [map_uncovered_to_functions.py] gives
    the same ranges as two-element lists. *)
Theorem compress_ranges_canonical (lines : list Z) :
  (∃ ranges,
     CoverageUncovered.compress_ranges lines = Some ranges
     ∧ MapUncovered.compress_ranges lines
       = Some ((λ r, [r.1; r.2]) <$> ranges)
     ∧ Forall (λ r, r.1 ≤ r.2) ranges
     ∧ StronglySorted separated ranges
     ∧ (list_to_set (expand ranges) : gset Z) = list_to_set lines)
  ∧ CoverageUncovered.compress_ranges [] = Some []
  ∧ MapUncovered.compress_ranges [] = Some [].
Proof.
  split; [|done].
  assert (∃ ranges, CoverageUncovered.compress_ranges lines = Some ranges
     ∧ Forall (λ r, r.1 ≤ r.2) ranges
     ∧ StronglySorted separated ranges
     ∧ ∀ x, x ∈ expand ranges ↔ x ∈ lines) as (ranges & Hc & H1 & H2 & H3).
  { unfold CoverageUncovered.compress_ranges.
    destruct lines as [|x0 lines].
    { exists []. split_and!; [done|constructor|constructor|done]. }
    destruct (CompressFacts.sorted_set_spec (x0 :: lines)) as [Hs Hin].
    destruct (sorted _) as [|first rest] eqn:E.
    { exfalso. apply (elem_of_nil x0), Hin. by left. }
    csimpl. eexists. split; [done|].
    destruct (CompressFacts.compress_loop_spec rest first first)
      as (G1 & G2 & G3); [lia|done|].
    split_and!; [|done|].
    - eapply Forall_impl; [exact G1|]. simpl. lia.
    - intros x. rewrite G3, <-Hin, elem_of_cons. intuition lia. }
  exists ranges. split_and!; [done| |done|done|].
  - by rewrite CompressFacts.compress_ranges_lists, Hc.
  - apply set_eq. intros x. by rewrite !elem_of_list_to_set.
Qed.

(** ** Text primitives *)

Module TextFacts.

Lemma take_drop_while {A} (p : A → bool) l :
  take_while p l ++ drop_while p l = l.
Proof. induction l as [|x l IH]; simpl; [done|]. destruct (p x); by f_equal/=. Qed.

Lemma take_while_all {A} (p : A → bool) l :
  Forall (λ c, p c = true) (take_while p l).
Proof.
  induction l as [|x l IH]; simpl; [constructor|].
  destruct (p x) eqn:E; by constructor.
Qed.


(** A run of [p] that is followed by a character outside [p] is the greedy
    run. *)
Lemma run_stop {A} (p : A → bool) a c t :
  Forall (λ c, p c = true) a → p c = false →
  take_while p (a ++ c :: t) = a ∧ drop_while p (a ++ c :: t) = c :: t.
Proof.
  intros Ha Hc. induction Ha as [|x a Hx _ IH]; simpl.
  - by rewrite Hc.
  - rewrite Hx. destruct IH as [-> ->]. done.
Qed.

Lemma run_end {A} (p : A → bool) a :
  Forall (λ c, p c = true) a → take_while p a = a ∧ drop_while p a = [].
Proof.
  intros Ha. induction Ha as [|x a Hx _ IH]; simpl; [done|].
  rewrite Hx. destruct IH as [-> ->]. done.
Qed.

Lemma eqc_true a b : eqc a b = true ↔ a = b.
Proof. unfold eqc. apply bool_decide_eq_true. Qed.

Lemma eqc_false a b : eqc a b = false ↔ a ≠ b.
Proof. unfold eqc. apply bool_decide_eq_false. Qed.

Lemma char_in_true c s : char_in c s = true ↔ c ∈ s.
Proof.
  unfold char_in. induction s as [|x s IH]; simpl.
  - split; [done|by intros ?%elem_of_nil].
  - rewrite orb_true_iff, IH, eqc_true, elem_of_cons. done.
Qed.

Lemma char_in_false c s : char_in c s = false ↔ c ∉ s.
Proof. rewrite <-char_in_true. by destruct (char_in c s). Qed.

Lemma digit_not_space c : is_digit c = true → is_space c = false.
Proof. by destruct c as [[] [] [] [] [] [] [] []]. Qed.

Lemma linebreak_LF : is_linebreak LF = true.
Proof. reflexivity. Qed.

(** *** [splitlines] *)

Lemma splitlines_go_no_break cur s ln :
  Forall (λ c, is_linebreak c = false) cur →
  ln ∈ splitlines_go cur s → Forall (λ c, is_linebreak c = false) ln.
Proof.
  revert cur. induction s as [s IH] using (induction_ltof1 _ length).
  unfold ltof in IH. intros cur Hcur. destruct s as [|c s]; simpl.
  - destruct cur; [by intros ?%elem_of_nil|].
    by intros ->%list_elem_of_singleton.
  - destruct (is_linebreak c) eqn:Hc.
    + intros [->|Hin]%elem_of_cons; [done|]. revert Hin.
      destruct s as [|c' s]; simpl; [by intros ?%elem_of_nil|].
      destruct (eqc c CR && eqc c' LF).
      * apply IH; [simpl; lia|constructor].
      * apply (IH (c' :: s)); [simpl; lia|constructor].
    + apply IH; [simpl; lia|]. apply Forall_app. by repeat constructor.
Qed.

Lemma splitlines_no_break s ln :
  ln ∈ splitlines s → Forall (λ c, is_linebreak c = false) ln.
Proof. apply splitlines_go_no_break. constructor. Qed.

End TextFacts.

(** ** [parse_annotated] *)

Module ParseFacts.
Import CoverageUncovered TextFacts.

Lemma dot_star_end_no_LF text : LF ∉ text → dot_star_end text = true.
Proof.
  intros Hno. unfold dot_star_end. apply negb_true_iff, char_in_false.
  destruct (endswith [LF] text); [|done].
  intros Hin. apply Hno.
  destruct text as [|c text] using rev_ind; [done|].
  rewrite removelast_last in Hin. apply elem_of_app. by left.
Qed.

(** The match computed by [line_rx_match] has the shape of the pattern. *)
Lemma line_rx_match_shape ln g1 count :
  line_rx_match ln = Some (g1, count) → line_shape ln g1 count.
Proof.
  unfold line_rx_match.
  pose proof (take_drop_while is_space ln) as E1.
  pose proof (take_while_all is_space ln) as A1.
  set (s1 := drop_while is_space ln) in *.
  pose proof (take_drop_while is_digit s1) as E2.
  pose proof (take_while_all is_digit s1) as A2.
  destruct (take_while is_digit s1) as [|d g] eqn:Eg1; [done|].
  destruct (drop_while is_digit s1) as [|c1 s2]; [done|].
  destruct (eqc c1 bar) eqn:Ec1; [|done]. apply eqc_true in Ec1 as ->.
  pose proof (take_drop_while is_space s2) as E3.
  pose proof (take_while_all is_space s2) as A3.
  set (s3 := drop_while is_space s2) in *.
  pose proof (take_drop_while is_digit s3) as E4.
  pose proof (take_while_all is_digit s3) as A4.
  destruct (drop_while is_digit s3) as [|c2 text]; [done|].
  destruct (eqc c2 bar) eqn:Ec2; [|done]. apply eqc_true in Ec2 as ->.
  destruct (dot_star_end text); [|done]. simpl.
  intros [= <- <-].
  exists (take_while is_space ln), (take_while is_space s2), text.
  assert (default [] match take_while is_digit s3 with
                     | [] => None
                     | a :: l => Some (a :: l)
                     end = take_while is_digit s3) as Hd
    by (by destruct (take_while is_digit s3)).
  rewrite Hd. split_and!; try done.
  - by rewrite E4, E3, E2.
  - by destruct (take_while is_digit s3).
Qed.

(** A line of the shape, with no line feed in it, is matched, and with
    these groups. *)
Lemma shape_line_rx_match ln g1 count :
  LF ∉ ln → line_shape ln g1 count → line_rx_match ln = Some (g1, count).
Proof.
  intros HLF (ws1 & ws2 & text & -> & A1 & A2 & Hne & A3 & A4 & Hc).
  unfold line_rx_match.
  destruct g1 as [|d g]; [done|]. clear Hne.
  pose proof A2 as [Hd _]%Forall_cons.
  change ((d :: g) ++ ?t) with (d :: g ++ t).
  destruct (run_stop is_space ws1 d
              (g ++ bar :: ws2 ++ default [] count ++ bar :: text))
    as [_ ->]; [done|by apply digit_not_space|].
  destruct (run_stop is_digit (d :: g) bar
              (ws2 ++ default [] count ++ bar :: text))
    as [T1 D1]; [done..|].
  change (d :: g ++ ?t) with ((d :: g) ++ t).
  rewrite T1, D1.
  change (eqc bar bar) with true. cbv iota.
  assert (drop_while is_space (ws2 ++ default [] count ++ bar :: text)
          = default [] count ++ bar :: text) as ->.
  { destruct (default [] count) as [|d2 g2] eqn:Ecnt.
    - by apply run_stop.
    - apply Forall_cons in A4 as [Hd2 _].
      apply (run_stop is_space ws2 d2); [done|by apply digit_not_space]. }
  destruct (run_stop is_digit (default [] count) bar text)
    as [T2 D2]; [done..|].
  rewrite T2, D2. change (eqc bar bar) with true.
  rewrite dot_star_end_no_LF.
  - simpl. do 2 f_equal. destruct count as [[|??]|]; done.
  - intros Hin. apply HLF. rewrite !elem_of_app, !elem_of_cons, !elem_of_app,
      !elem_of_cons. tauto.
Qed.

Lemma line_rx_match_iff ln g1 count :
  LF ∉ ln → line_rx_match ln = Some (g1, count) ↔ line_shape ln g1 count.
Proof.
  split; [apply line_rx_match_shape|by apply shape_line_rx_match].
Qed.

(** A line has at most one reading as a data line. *)
Lemma line_shape_unique ln g1 count g1' count' :
  LF ∉ ln → line_shape ln g1 count → line_shape ln g1' count' →
  g1 = g1' ∧ count = count'.
Proof.
  intros HLF H1%shape_line_rx_match H2%shape_line_rx_match; [|done..].
  rewrite H1 in H2. by injection H2.
Qed.

Lemma parse_lines_cons ln lines uncovered :
  parse_lines (ln :: lines) uncovered
  = r ← line_result ln; parse_lines lines (uncovered ++ r).
Proof.
  cbn [parse_lines]. unfold line_result.
  destruct (line_rx_match ln) as [[g1 count]|]; cbn [mbind option_bind];
    [|by rewrite app_nil_r].
  destruct (int g1) as [lineno|]; cbn [mbind option_bind]; [|done].
  change ["0"%char] with (lit "0").
  destruct count as [count|]; [|by rewrite app_nil_r].
  destruct (decide (count = lit "0")); [done|by rewrite app_nil_r].
Qed.

Lemma parse_lines_app lines uncovered :
  parse_lines lines uncovered
  = rs ← mapM line_result lines; Some (uncovered ++ concat rs).
Proof.
  revert uncovered. induction lines as [|ln lines IH]; intros uncovered.
  - csimpl. by rewrite app_nil_r.
  - rewrite parse_lines_cons. cbn [mapM].
    destruct (line_result ln) as [r|]; cbn [mbind option_bind]; [|done].
    rewrite IH. destruct (mapM line_result lines) as [rs|]; csimpl; [|done].
    by rewrite <-app_assoc.
Qed.

Lemma int_None g1 : int g1 = None ↔ max_str_digits < len g1.
Proof. unfold int. case_decide; split; try done; lia. Qed.

(** [int] raises on a line exactly when the line is a data line with a
    number of too many digits. *)
Lemma line_result_None ln : LF ∉ ln → line_result ln = None ↔ long_number ln.
Proof.
  intros HLF. unfold line_result. split.
  - destruct (line_rx_match ln) as [[g1 count]|] eqn:E; [|done].
    apply line_rx_match_iff in E; [|done].
    destruct (int g1) eqn:Ei; [done|]. intros _. exists g1, count.
    split; [done|]. by apply int_None.
  - intros (g1 & count & Hs & Hlong).
    apply shape_line_rx_match in Hs; [|done]. rewrite Hs.
    apply int_None in Hlong. by rewrite Hlong.
Qed.

Lemma line_result_uncovered ln r :
  LF ∉ ln → line_result ln = Some r →
  (∃ n, r = [n] ∧ uncovered_line ln n)
  ∨ (r = [] ∧ ∀ n, ¬ uncovered_line ln n).
Proof.
  intros HLF. unfold line_result.
  destruct (line_rx_match ln) as [[g1 count]|] eqn:E.
  - apply line_rx_match_iff in E; [|done].
    destruct (int g1) as [lineno|] eqn:Ei; [|done]. csimpl. intros [= <-].
    destruct count as [count|].
    + case_decide as Hc.
      * subst count. left. exists lineno. split; [done|]. by exists g1.
      * right. split; [done|]. intros n (g1' & Hs & _).
        destruct (line_shape_unique _ _ _ _ _ HLF E Hs) as [_ [= ->]].
        by destruct Hc.
    + right. split; [done|]. intros n (g1' & Hs & _).
      by destruct (line_shape_unique _ _ _ _ _ HLF E Hs) as [_ ?].
  - intros [= <-]. right. split; [done|]. intros n (g1' & Hs & _).
    apply shape_line_rx_match in Hs; [congruence|done].
Qed.

Lemma lines_classified lines rs :
  Forall (λ ln, LF ∉ ln) lines →
  Forall2 (λ ln r, line_result ln = Some r) lines rs →
  classified lines (concat rs).
Proof.
  intros HLF Hrs. induction Hrs as [|ln r lines rs Hr _ IH]; csimpl;
    [constructor|].
  apply Forall_cons in HLF as [Hln HLF].
  destruct (line_result_uncovered ln r Hln Hr) as [(n & -> & Hn)|[-> Hn]];
    simpl.
  - constructor; auto.
  - apply classified_skip; auto.
Qed.

Lemma lines_uncovered lines rs n :
  Forall (λ ln, LF ∉ ln) lines →
  Forall2 (λ ln r, line_result ln = Some r) lines rs →
  n ∈ concat rs ↔ ∃ ln, ln ∈ lines ∧ uncovered_line ln n.
Proof.
  intros HLF Hrs. induction Hrs as [|ln r lines rs Hr _ IH]; csimpl.
  - split; [by intros ?%elem_of_nil|]. by intros (ln & ?%elem_of_nil & _).
  - apply Forall_cons in HLF as [Hln HLF].
    rewrite elem_of_app, IH by done. setoid_rewrite elem_of_cons.
    destruct (line_result_uncovered ln r Hln Hr) as [(m & -> & Hm)|[-> Hm]].
    + rewrite list_elem_of_singleton. split.
      * intros [->|(l & ? & ?)]; eauto.
      * intros (l & [->|?] & Hl); [|eauto]. left.
        destruct Hl as (g & Hg & Hn), Hm as (g' & Hg' & Hm).
        destruct (line_shape_unique _ _ _ _ _ Hln Hg Hg') as [-> _].
        congruence.
    + split.
      * intros [?%elem_of_nil|(l & ? & ?)]; [done|eauto].
      * intros (l & [->|?] & Hl); [by destruct (Hm n)|eauto].
Qed.

Lemma splitlines_no_LF s : Forall (λ ln, LF ∉ ln) (splitlines s).
Proof.
  apply Forall_forall. intros ln Hln%splitlines_no_break Hin.
  rewrite Forall_forall in Hln. apply Hln in Hin. done.
Qed.

(** The call returns the numbers that the lines add, one line after the
    other. *)
Lemma parse_annotated_Some output lines :
  parse_annotated output = Some lines ↔
  ∃ rs, Forall2 (λ ln r, line_result ln = Some r) (splitlines output) rs
        ∧ lines = concat rs.
Proof.
  unfold parse_annotated. rewrite parse_lines_app. split.
  - destruct (mapM line_result (splitlines output)) as [rs|] eqn:E; [|done].
    csimpl. intros [= <-]. exists rs. split; [|done]. by apply mapM_Some.
  - intros (rs & Hrs%mapM_Some & ->). by rewrite Hrs.
Qed.

(** The call raises exactly when a line has a number of too many digits. *)
Lemma parse_annotated_None output :
  parse_annotated output = None ↔
  ∃ ln, ln ∈ splitlines output ∧ long_number ln.
Proof.
  unfold parse_annotated. rewrite parse_lines_app.
  pose proof (splitlines_no_LF output) as HLF.
  rewrite Forall_forall in HLF. split.
  - destruct (mapM line_result (splitlines output)) as [rs|] eqn:E; [done|].
    intros _. apply eq_None_not_Some in E. rewrite mapM_is_Some in E.
    apply not_Forall_Exists in E; [|intros ln; apply _].
    apply Exists_exists in E as (ln & Hin & Hln). exists ln. split; [done|].
    apply line_result_None; [by apply HLF|].
    by apply eq_None_not_Some.
  - intros (ln & Hin & Hlong).
    destruct (mapM line_result (splitlines output)) as [rs|] eqn:E; [|done].
    apply mapM_Some in E.
    apply list_elem_of_lookup in Hin as [i Hi].
    destruct (Forall2_lookup_l _ _ _ i ln E Hi) as (r & _ & Hr).
    apply line_result_None in Hlong; [congruence|].
    apply HLF. by eapply list_elem_of_lookup_2.
Qed.

Lemma short_numbers_spec output :
  short_numbers (splitlines output) = true ↔
  ∀ ln, ln ∈ splitlines output → ¬ long_number ln.
Proof.
  pose proof (splitlines_no_LF output) as HLF.
  rewrite Forall_forall in HLF.
  unfold short_numbers. rewrite forallb_forall.
  split; intros H ln Hin.
  - pose proof (H ln (proj1 (list_elem_of_In _ _) Hin)) as Hc.
    intros (g1 & count & Hs & Hlong).
    apply shape_line_rx_match in Hs; [|by apply HLF].
    rewrite Hs in Hc. apply bool_decide_eq_true in Hc. lia.
  - apply list_elem_of_In in Hin.
    destruct (line_rx_match ln) as [[g1 count]|] eqn:E; [|done].
    apply bool_decide_eq_true. apply line_rx_match_iff in E; [|by apply HLF].
    destruct (decide (len g1 ≤ max_str_digits)); [done|].
    destruct (H ln Hin). exists g1, count. split; [done|lia].
Qed.

End ParseFacts.

(** C4, as the code has it. On a text in which no data line has a line
    number of more digits than [int] converts, [parse_annotated] returns.
    Its result lists, in order, the line numbers of exactly those lines that
    have the shape of a data line with the count field [0]: a number is
    reported only for such a line, and a line that has the shape with no
    count or with another count is reported under no number. *)
Theorem parse_annotated_zero_count (output : str) :
  (∀ ln, ln ∈ splitlines output → ¬ long_number ln) →
  ∃ lines,
    CoverageUncovered.parse_annotated output = Some lines
    ∧ classified (splitlines output) lines
    ∧ (∀ n, n ∈ lines ↔
            ∃ ln, ln ∈ splitlines output ∧ uncovered_line ln n)
    ∧ (∀ ln g1 count,
         ln ∈ splitlines output → line_shape ln g1 count →
         count ≠ Some (lit "0") → ∀ n, ¬ uncovered_line ln n).
Proof.
  intros Hshort.
  pose proof (ParseFacts.splitlines_no_LF output) as HLF.
  destruct (CoverageUncovered.parse_annotated output) as [lines|] eqn:E.
  - exists lines. split; [done|].
    apply ParseFacts.parse_annotated_Some in E as (rs & Hrs & ->).
    split_and!.
    + by apply ParseFacts.lines_classified.
    + intros n. by apply ParseFacts.lines_uncovered.
    + intros ln g1 count Hin Hs Hc n (g1' & Hs' & _).
      rewrite Forall_forall in HLF.
      destruct (ParseFacts.line_shape_unique _ _ _ _ _ (HLF _ Hin) Hs Hs').
      congruence.
  - apply ParseFacts.parse_annotated_None in E as (ln & Hin & Hlong).
    by destruct (Hshort ln Hin).
Qed.

Lemma parse_annotated_zero_count_witness :
  let output := nl "  2|     0|  return 1;" ++ nl "  3|      |}" in
  ∃ lines,
    CoverageUncovered.parse_annotated output = Some lines
    ∧ classified (splitlines output) lines
    ∧ ∀ n, ¬ uncovered_line (lit "  3|      |}") n.
Proof.
  cbv zeta.
  destruct (parse_annotated_zero_count
              (nl "  2|     0|  return 1;" ++ nl "  3|      |}"))
    as (lines & Hlines & Hclass & _ & Hskip).
  { apply ParseFacts.short_numbers_spec. reflexivity. }
  exists lines. split_and!; [exact Hlines|exact Hclass|].
  apply (Hskip (lit "  3|      |}") (lit "3") None).
  - assert (splitlines (nl "  2|     0|  return 1;" ++ nl "  3|      |}")
            = [lit "  2|     0|  return 1;"; lit "  3|      |}"]) as ->
      by reflexivity.
    right. left.
  - exists (lit "  "), (lit "      "), (lit "}").
    split_and!; try reflexivity; try discriminate; repeat constructor.
  - discriminate.
Defined.

(** C4 as stated fails: [parse_annotated] raises on a data line whose line
    number has 4301 digits, here a line with the count 1, which the claim
    has silently left out of the result. *)
Lemma parse_annotated_long_number :
  line_shape (replicate 4301 "1"%char ++ lit "|1|x")
    (replicate 4301 "1"%char) (Some (lit "1"))
  ∧ CoverageUncovered.parse_annotated
      (replicate 4301 "1"%char ++ lit "|1|x") = None.
Proof.
  split.
  - exists [], [], (lit "x"). split_and!.
    + reflexivity.
    + constructor.
    + apply Forall_forall. by intros c ->%elem_of_replicate_inv.
    + intros H%(f_equal length). by rewrite length_replicate in H.
    + constructor.
    + repeat constructor.
    + discriminate.
  - vm_compute. reflexivity.
Qed.

(** The scenario of the listing with one covered, one uncovered and one
    uninstrumented line. *)
Example parse_annotated_scenario :
  CoverageUncovered.parse_annotated
    (nl "  1|     1|int f() {" ++ nl "  2|     0|  return 1;"
     ++ nl "  3|      |}") = Some [2].
Proof. reflexivity. Qed.

(** ** [extract_report_for_file] *)

Module ExtractFacts.
Import CoverageUncovered TextFacts.

Lemma startswith_true p s : startswith p s = true ↔ ∃ t, s = p ++ t.
Proof.
  revert s. induction p as [|a p IH]; intros s; simpl.
  - split; [eauto|done].
  - destruct s as [|b s].
    + split; [done|]. by intros (t & ?).
    + rewrite andb_true_iff, eqc_true, IH. split.
      * intros (-> & t & ->). eauto.
      * intros (t & [= -> ->]). eauto.
Qed.

Lemma contains_true needle hay :
  contains needle hay = true ↔ substring needle hay.
Proof.
  unfold substring. induction hay as [|c hay IH]; simpl.
  - rewrite orb_false_r, startswith_true. split.
    + intros (t & E). exists [], t. done.
    + intros (a & b & E). symmetry in E.
      apply app_eq_nil in E as [-> [-> ->]%app_eq_nil]. by exists [].
  - rewrite orb_true_iff, startswith_true, IH. split.
    + intros [(t & E)|(a & b & E)].
      * exists [], t. done.
      * exists (c :: a), b. by rewrite E.
    + intros ([|c' a] & b & E).
      * left. eauto.
      * right. injection E as -> ->. eauto.
Qed.

Lemma contains_false needle hay :
  contains needle hay = false ↔ ¬ substring needle hay.
Proof. rewrite <-contains_true. by destruct (contains needle hay). Qed.





(** A match of [pct_rx] at the start of [s]. *)
Lemma pct_rx_match_Some s g rest :
  pct_rx_match s = Some (g, rest) ↔
  ∃ d1 d2, g = d1 ++ dot :: d2 ∧ s = d1 ++ dot :: d2 ++ percent :: rest
           ∧ all_of is_digit d1 ∧ d1 ≠ [] ∧ all_of is_digit d2 ∧ d2 ≠ [].
Proof.
  unfold pct_rx_match. split.
  - pose proof (take_drop_while is_digit s) as E1.
    pose proof (take_while_all is_digit s) as A1.
    destruct (take_while is_digit s) as [|x d1] eqn:T1; [done|].
    destruct (drop_while is_digit s) as [|c1 s2]; [done|].
    destruct (eqc c1 dot) eqn:Ec1; [|done]. apply eqc_true in Ec1 as ->.
    pose proof (take_drop_while is_digit s2) as E2.
    pose proof (take_while_all is_digit s2) as A2.
    destruct (take_while is_digit s2) as [|y d2] eqn:T2; [done|].
    destruct (drop_while is_digit s2) as [|c2 rest']; [done|].
    destruct (eqc c2 percent) eqn:Ec2; [|done]. apply eqc_true in Ec2 as ->.
    intros [= <- <-]. exists (x :: d1), (y :: d2).
    split_and!; try done. by rewrite E2, E1.
  - intros (d1 & d2 & -> & -> & A1 & N1 & A2 & N2).
    destruct (run_stop is_digit d1 dot (d2 ++ percent :: rest))
      as [-> ->]; [done..|].
    destruct d1 as [|x d1]; [done|].
    change (eqc dot dot) with true. cbv iota.
    destruct (run_stop is_digit d2 percent rest) as [-> ->]; [done..|].
    by destruct d2.
Qed.

Lemma pct_rx_match_shorter s g rest :
  pct_rx_match s = Some (g, rest) → (length rest < length s)%nat.
Proof.
  intros (d1 & d2 & _ & -> & _)%pct_rx_match_Some.
  rewrite length_app. simpl. rewrite length_app. simpl. lia.
Qed.

(** [findall] returns when the fuel exceeds the length of the text. *)
Lemma findall_total fuel : ∀ s,
  (length s < fuel)%nat → is_Some (pct_rx_findall_from fuel s).
Proof.
  induction fuel as [|fuel IH]; intros s Hlen; [lia|]. simpl.
  destruct (pct_rx_match s) as [[g rest]|] eqn:E.
  - apply pct_rx_match_shorter in E.
    destruct (IH rest) as [l ->]; [lia|]. by eexists.
  - destruct s as [|c s]; [by eexists|]. apply IH. simpl in Hlen. lia.
Qed.







End ExtractFacts.



(** The scenario of a report with one row for [src/foo.cpp]. *)
Example extract_report_scenario :
  let report := nl "Filename  Cover" ++ nl "src/foo.cpp    85.00%    90.00%" in
  CoverageUncovered.extract_report_for_file report (lit "src/foo.cpp")
  = Some (Some (lit "src/foo.cpp    85.00%    90.00%"),
          [lit "85.00"; lit "90.00"])
  ∧ CoverageUncovered.extract_report_for_file report (lit "src/bar.cpp")
    = Some (None, []).
Proof. split; reflexivity. Qed.

(** ** [get_uncovered] *)

Module JsonFacts.
Import TextFacts.

Lemma find_char_spec c s :
  (find_char c s = -1 ∧ c ∉ s)
  ∨ ∃ pre post, s = pre ++ c :: post ∧ (c ∉ pre) ∧ find_char c s = len pre.
Proof.
  induction s as [|x s IH]; simpl.
  - left. split; [done|]. by intros ?%elem_of_nil.
  - destruct (eqc x c) eqn:E.
    + apply eqc_true in E as ->. right. exists [], s.
      split_and!; [done| |done]. by intros ?%elem_of_nil.
    + apply eqc_false in E.
      destruct IH as [[-> Hno]|(pre & post & -> & Hpre & ->)].
      * left. rewrite decide_True by done. split; [done|].
        intros [?|?]%elem_of_cons; by simplify_eq.
      * right. exists (x :: pre), post. unfold len.
        rewrite decide_False by lia. split_and!; [done| |simpl; lia].
        intros [?|?]%elem_of_cons; by simplify_eq.
Qed.

Lemma rfind_char_spec c s :
  (rfind_char c s = -1 ∧ c ∉ s)
  ∨ ∃ pre post, s = pre ++ c :: post ∧ (c ∉ post) ∧ rfind_char c s = len pre.
Proof.
  induction s as [|x s IH]; simpl.
  - left. split; [done|]. by intros ?%elem_of_nil.
  - destruct IH as [[-> Hno]|(pre & post & -> & Hpost & ->)].
    + rewrite decide_True by done. destruct (eqc x c) eqn:E.
      * apply eqc_true in E as ->. right. exists [], s. done.
      * apply eqc_false in E.
        left. split; [done|]. intros [?|?]%elem_of_cons; by simplify_eq.
    + right. exists (x :: pre), post. unfold len.
      rewrite decide_False by lia. split_and!; [done|done|simpl; lia].
Qed.

Lemma slice_from_len (pre s : str) : slice_from (len pre) (pre ++ s) = s.
Proof.
  unfold slice_from, len. rewrite Nat2Z.id. by rewrite drop_app_length.
Qed.

Lemma slice_to_len (pre : str) c s :
  slice_to (len pre + 1) (pre ++ c :: s) = pre ++ [c].
Proof.
  unfold slice_to, len.
  replace (Z.to_nat (Z.of_nat (length pre) + 1)) with (length (pre ++ [c]))
    by (rewrite length_app; simpl; lia).
  replace (pre ++ c :: s) with ((pre ++ [c]) ++ s) by (by rewrite <-app_assoc).
  apply take_app_length.
Qed.

Lemma substring_refl (s : str) : substring s s.
Proof. exists [], []. by rewrite app_nil_r. Qed.

Lemma substring_app_r (a b s : str) : substring s b → substring s (a ++ b).
Proof. intros (x & y & ->). exists (a ++ x), y. by rewrite <-app_assoc. Qed.

(** The text between the first opening and the last closing brace. *)
Lemma outermost_braces out :
  find_char lbrace out ≠ -1 →
  let json_text := slice_from (find_char lbrace out) out in
  rfind_char rbrace json_text ≠ -1 →
  ∃ pre mid suf,
    out = pre ++ lbrace :: mid ++ rbrace :: suf
    ∧ (lbrace ∉ pre) ∧ (rbrace ∉ suf)
    ∧ slice_to (rfind_char rbrace json_text + 1) json_text
      = lbrace :: mid ++ [rbrace].
Proof.
  intros Hf. cbv zeta.
  destruct (find_char_spec lbrace out)
    as [[? _]|(pre & post & -> & Hpre & ->)]; [done|].
  rewrite slice_from_len. intros Hr.
  destruct (rfind_char_spec rbrace (lbrace :: post))
    as [[? _]|(pre' & suf & E & Hsuf & Er)]; [done|].
  rewrite Er, E, slice_to_len.
  destruct pre' as [|c mid]; [done|]. injection E as <- ->.
  exists pre, mid, suf. done.
Qed.

End JsonFacts.

(** C9. When the text from the first opening brace does not parse and has
    a closing brace, [get_uncovered] calls [json.loads] once more, on the
    text from the first opening brace to the last closing brace, and on no
    other text. It returns what that call returns, or raises an error whose
    message holds the whole output when that call fails. *)
Theorem get_uncovered_retries_once {J : Type} (run : str → Z * str)
    (shlex_quote : str → str) (json_loads : str → str + J)
    (file_path cov_script out : str) (e : str) :
  let cmd := shlex_quote cov_script ++ lit " --file "
             ++ shlex_quote file_path ++ lit " --json" in
  let json_text := slice_from (find_char lbrace out) out in
  (run cmd).2 = out → out ≠ [] →
  find_char lbrace out ≠ -1 →
  json_loads json_text = inl e →
  rfind_char rbrace json_text ≠ -1 →
  ∃ pre mid suf,
    out = pre ++ lbrace :: mid ++ rbrace :: suf
    ∧ (lbrace ∉ pre) ∧ (rbrace ∉ suf)
    ∧ let trimmed := lbrace :: mid ++ [rbrace] in
      let '(calls, res) := get_uncovered run shlex_quote json_loads
                             file_path cov_script in
      calls = [json_text; trimmed]
      ∧ match json_loads trimmed with
        | inr j => res = Returned j
        | inl e' => ∃ msg, res = Raised msg ∧ substring out msg
        end.
Proof.
  cbv zeta. intros Hrun Hout Hf Hfail Hr.
  destruct (JsonFacts.outermost_braces out Hf Hr)
    as (pre & mid & suf & E & Hpre & Hsuf & Htrim).
  exists pre, mid, suf. split_and!; [done..|].
  unfold get_uncovered. destruct (run _) as [code out']. simpl in Hrun.
  subst out'. destruct out as [|c0 out0] eqn:Eout; [done|].
  rewrite <-Eout in *. clear Eout.
  rewrite decide_False by done. rewrite Hfail.
  rewrite decide_False by done. rewrite Htrim.
  destruct (json_loads (lbrace :: mid ++ [rbrace])) as [e'|j];
    cbv beta iota; split; try done.
  eexists. split; [reflexivity|].
  do 5 apply JsonFacts.substring_app_r. apply JsonFacts.substring_refl.
Qed.

(** Without a closing brace there is nothing to trim: the error with the
    whole output is raised after the one call of [json.loads]. *)
Lemma get_uncovered_no_closing_brace {J : Type} (run : str → Z * str)
    (shlex_quote : str → str) (json_loads : str → str + J)
    (file_path cov_script out : str) (e : str) :
  let cmd := shlex_quote cov_script ++ lit " --file "
             ++ shlex_quote file_path ++ lit " --json" in
  let json_text := slice_from (find_char lbrace out) out in
  (run cmd).2 = out → out ≠ [] →
  find_char lbrace out ≠ -1 →
  json_loads json_text = inl e →
  rfind_char rbrace json_text = -1 →
  ∃ msg,
    get_uncovered run shlex_quote json_loads file_path cov_script
    = ([json_text], Raised msg)
    ∧ substring out msg.
Proof.
  cbv zeta. intros Hrun Hout Hf Hfail Hr.
  unfold get_uncovered. destruct (run _) as [code out']. simpl in Hrun.
  subst out'. destruct out as [|c0 out0] eqn:Eout; [done|].
  rewrite <-Eout in *. clear Eout.
  rewrite decide_False by done. rewrite Hfail.
  rewrite decide_True by done.
  eexists. split; [reflexivity|].
  do 2 apply JsonFacts.substring_app_r. apply JsonFacts.substring_refl.
Qed.

Lemma get_uncovered_retries_once_witness :
  let run := λ _ : str, (0, lit "> cmd {} bye") in
  let json_loads := λ s : str,
    if decide (s = lit "{}") then inr () else inl (lit "Extra data") in
  ∃ pre mid suf,
    lit "> cmd {} bye" = pre ++ lbrace :: mid ++ rbrace :: suf
    ∧ (lbrace ∉ pre) ∧ (rbrace ∉ suf)
    ∧ let trimmed := lbrace :: mid ++ [rbrace] in
      let '(calls, res) := get_uncovered run id json_loads
                             (lit "a.cpp") (lit "cov.py") in
      calls = [lit "{} bye"; trimmed]
      ∧ match json_loads trimmed with
        | inr j => res = Returned j
        | inl e' => ∃ msg, res = Raised msg ∧ substring (lit "> cmd {} bye") msg
        end.
Proof.
  cbv zeta.
  apply (get_uncovered_retries_once (λ _ : str, (0, lit "> cmd {} bye")) id
           (λ s : str,
              if decide (s = lit "{}") then inr () else inl (lit "Extra data"))
           (lit "a.cpp") (lit "cov.py") (lit "> cmd {} bye")
           (lit "Extra data")).
  - reflexivity.
  - discriminate.
  - vm_compute. discriminate.
  - reflexivity.
  - vm_compute. discriminate.
Defined.

(** ** [find_functions] *)

Module FindFacts.
Import MapUncovered.

Lemma elem_of_range j a b : j ∈ range a b ↔ (a ≤ j < b)%nat.
Proof. unfold range. rewrite elem_of_seq. lia. Qed.

Lemma look_ahead_spec source_lines js :
  (∀ j, j ∈ js → (j < length source_lines)%nat) →
  ∃ r, look_ahead source_lines js = Some r
       ∧ ∀ brace_line, r = Some brace_line → brace_line ∈ js.
Proof.
  induction js as [|j js IH]; intros Hjs; simpl.
  - by exists None.
  - destruct (lookup_lt_is_Some_2 source_lines j) as [l ->];
      [apply Hjs; by left|]. csimpl.
    destruct (char_in lbrace l).
    + exists (Some j). split; [done|]. intros ? [= <-]. by left.
    + destruct IH as (r & -> & Hr); [intros; apply Hjs; by right|].
      exists r. split; [done|]. intros b Hb. right. auto.
Qed.

Lemma match_braces_spec source_lines ks : ∀ brace_count end_line,
  (∀ k, k ∈ ks → (k < length source_lines)%nat) →
  ∃ e, match_braces source_lines ks brace_count end_line = Some e
       ∧ (e = end_line ∨ e ∈ ks).
Proof.
  induction ks as [|k ks IH]; intros brace_count end_line Hks; simpl.
  - exists end_line. by split; [|left].
  - destruct (lookup_lt_is_Some_2 source_lines k) as [l ->];
      [apply Hks; by left|]. csimpl.
    case_decide.
    + exists k. split; [done|]. right. by left.
    + destruct (IH (brace_count + count_char lbrace l - count_char rbrace l) k)
        as (e & -> & He); [intros; apply Hks; by right|].
      exists e. split; [done|]. right.
      destruct He as [->|?]; [by left|by right].
Qed.

(** Closes the cases in which the loop goes on to the next line. *)
Local Ltac move_on :=
  eexists _, _; split; [reflexivity|left; split; reflexivity].

(** One turn of the [while] loop: the cursor moves on by one line, or a
    span from line [i] is recorded and the cursor moves past its end. *)
Lemma find_functions_loop_step fuel source_lines i funcs :
  (i < length source_lines)%nat →
  ∃ i' funcs',
    find_functions_loop (S fuel) source_lines i funcs
    = find_functions_loop fuel source_lines i' funcs'
    ∧ ((i' = (i + 1)%nat ∧ funcs' = funcs)
       ∨ ∃ fname brace_line end_line,
           (i ≤ brace_line ≤ end_line)%nat
           ∧ (end_line < length source_lines)%nat
           ∧ i' = (end_line + 1)%nat
           ∧ funcs' = funcs ++ [Span fname (Z.of_nat i + 1)
                                  (Z.of_nat brace_line + 1)
                                  (Z.of_nat end_line + 1)]).
Proof.
  intros Hi. simpl. rewrite decide_True by done.
  destruct (lookup_lt_is_Some_2 source_lines i Hi) as [line ->]. csimpl.
  destruct (_ || _); [move_on|].
  destruct (_ && _); [|move_on].
  destruct (bool_decide _); [move_on|].
  assert (∃ r, (if char_in lbrace line then Some (Some i)
                else look_ahead source_lines
                       (range (i + 1) (Nat.min (i + 6) (length source_lines))))
               = Some r
               ∧ ∀ brace_line, r = Some brace_line →
                   (i ≤ brace_line < length source_lines)%nat)
    as (r & -> & Hr).
  { destruct (char_in lbrace line).
    - exists (Some i). split; [done|]. intros ? [= <-]. lia.
    - destruct (look_ahead_spec source_lines
                  (range (i + 1) (Nat.min (i + 6) (length source_lines))))
        as (r & -> & Hr).
      { intros j Hj%elem_of_range. lia. }
      exists r. split; [done|]. intros b Hb%Hr%elem_of_range. lia. }
  csimpl. destruct r as [brace_line|]; [|move_on].
  specialize (Hr brace_line eq_refl).
  destruct (match_braces_spec source_lines
              (range brace_line (length source_lines)) 0 brace_line)
    as (end_line & -> & He).
  { intros k Hk%elem_of_range. lia. }
  csimpl. eexists _, _. split; [done|]. right.
  exists (function_name line), brace_line, end_line.
  assert (brace_line ≤ end_line < length source_lines)%nat
    by (destruct He as [->|He%elem_of_range]; lia).
  split_and!; try reflexivity; lia.
Qed.

Lemma spans_before_mono i j funcs :
  (i ≤ j)%nat → spans_before i funcs → spans_before j funcs.
Proof.
  intros Hij [H1 H2]. split; [|done].
  eapply Forall_impl; [exact H1|]. simpl. lia.
Qed.

Lemma spans_before_snoc i funcs fname brace_line end_line :
  (i ≤ brace_line ≤ end_line)%nat → spans_before i funcs →
  spans_before (end_line + 1)
    (funcs ++ [Span fname (Z.of_nat i + 1) (Z.of_nat brace_line + 1)
                 (Z.of_nat end_line + 1)]).
Proof.
  intros Hle [H1 H2]. split.
  - apply Forall_app. split.
    + eapply Forall_impl; [exact H1|]. simpl. lia.
    + repeat constructor; simpl; lia.
  - apply StronglySorted_app_2; [|done|by repeat constructor].
    intros f g Hf ->%list_elem_of_singleton. simpl.
    rewrite Forall_forall in H1. specialize (H1 f Hf). lia.
Qed.

(** The loop returns when the fuel covers the lines left, and keeps the
    spans in order. *)
Lemma find_functions_loop_spec fuel : ∀ source_lines i funcs,
  (length source_lines - i ≤ fuel)%nat → spans_before i funcs →
  ∃ funcs', find_functions_loop fuel source_lines i funcs = Some funcs'
            ∧ spans_before (length source_lines `max` i) funcs'.
Proof.
  induction fuel as [|fuel IH]; intros source_lines i funcs Hfuel Hinv.
  - exists funcs. split.
    + simpl. rewrite decide_False by lia. done.
    + eapply spans_before_mono; [|done]. lia.
  - destruct (decide (i < length source_lines)%nat) as [Hi|Hi].
    + destruct (find_functions_loop_step fuel source_lines i funcs Hi)
        as (i' & funcs1 & -> & [[-> ->]|Hspan]).
      * destruct (IH source_lines (i + 1)%nat funcs) as (funcs' & -> & H');
          [lia|eapply spans_before_mono; [|done]; lia|].
        exists funcs'. split; [done|].
        eapply spans_before_mono; [|done]. lia.
      * destruct Hspan as (fname & bl & el & Hle & Hel & -> & ->).
        destruct (IH source_lines (el + 1)%nat
                    (funcs ++ [Span fname (Z.of_nat i + 1) (Z.of_nat bl + 1)
                                 (Z.of_nat el + 1)]))
          as (funcs' & -> & H'); [lia|by apply spans_before_snoc|].
        exists funcs'. split; [done|].
        eapply spans_before_mono; [|done]. lia.
    + exists funcs. split.
      * simpl. rewrite decide_False by done. done.
      * eapply spans_before_mono; [|done]. lia.
Qed.

End FindFacts.

(** C6. [find_functions] returns for every sequence of source lines. Each
    span it returns has [start ≤ body_start ≤ end], and the spans are in
    source order: each one starts after the end of every earlier one. *)
Theorem find_functions_spans_ordered (source_lines : list str) :
  ∃ funcs,
    find_functions source_lines = Some funcs
    ∧ Forall (λ f, start f ≤ body_start f ≤ end_ f) funcs
    ∧ StronglySorted (λ f g, end_ f < start g) funcs.
Proof.
  destruct (FindFacts.find_functions_loop_spec (length source_lines)
              source_lines 0 [])
    as (funcs & Hf & H1 & H2); [lia|by split; constructor|].
  exists funcs. split_and!; [done| |done].
  eapply Forall_impl; [exact H1|]. simpl. tauto.
Qed.

(** A function written on one line gives one span on that line. *)
Example find_functions_one_line :
  find_functions [nl "int foo() { return 1; }"]
  = Some [Span (lit "foo") 1 1 1].
Proof. reflexivity. Qed.

(** ** More on [compress_ranges] *)

Module CompressMore.
Import CoverageUncovered.

(** The loop, read as a list: it covers [start..prev] and then the rest of
    the input, in order. *)
Lemma expand_compress_loop rest : ∀ start prev,
  start ≤ prev →
  expand (compress_loop [] start prev rest)
  = seqZ start (prev - start + 1) ++ rest.
Proof.
  induction rest as [|n rest IH]; intros start prev Hle.
  - change (compress_loop [] start prev []) with [(start, prev)].
    unfold expand. csimpl. by rewrite app_nil_r.
  - rewrite CompressFacts.compress_loop_cons. case_decide as Hn.
    + rewrite IH by lia. subst n.
      replace (prev + 1 - start + 1) with ((prev - start + 1) + 1) by lia.
      rewrite seqZ_app by lia. rewrite <-app_assoc. f_equal.
      rewrite seqZ_cons, seqZ_nil by lia. simpl. f_equal. lia.
    + change (expand ((start, prev) :: ?l))
        with (seqZ start (prev - start + 1) ++ expand l).
      rewrite IH by lia. f_equal.
      replace (n - n + 1) with 1 by lia.
      by rewrite seqZ_cons, seqZ_nil by lia.
Qed.

Lemma sorted_nil : sorted [] = [].
Proof. reflexivity. Qed.

(** A run of consecutive integers extends the current range. *)
Lemma compress_loop_run (k : nat) : ∀ start prev tail,
  compress_loop [] start prev (seqZ (prev + 1) (Z.of_nat k) ++ tail)
  = compress_loop [] start (prev + Z.of_nat k) tail.
Proof.
  induction k as [|k IH]; intros start prev tail.
  - simpl. by rewrite Z.add_0_r.
  - rewrite seqZ_cons by lia.
    change ((?x :: ?l) ++ tail) with (x :: l ++ tail).
    rewrite CompressFacts.compress_loop_cons, decide_True by done.
    replace (Z.pred (Z.of_nat (S k))) with (Z.of_nat k) by lia.
    replace (Z.succ (prev + 1)) with (prev + 1 + 1) by lia.
    rewrite IH. f_equal. lia.
Qed.

Lemma expand_cons s e ranges :
  s ≤ e → expand ((s, e) :: ranges) = s :: seqZ (s + 1) (e - s) ++ expand ranges.
Proof.
  intros Hle.
  change (expand ((s, e) :: ranges)) with (seqZ s (e - s + 1) ++ expand ranges).
  rewrite seqZ_cons by lia.
  replace (Z.succ s) with (s + 1) by lia.
  by replace (Z.pred (e - s + 1)) with (e - s) by lia.
Qed.

(** The loop rebuilds a canonical list from its integers. *)
Lemma compress_loop_expand ranges : ∀ s e,
  canonical ((s, e) :: ranges) →
  compress_loop [] s s (seqZ (s + 1) (e - s) ++ expand ranges)
  = (s, e) :: ranges.
Proof.
  induction ranges as [|[s' e'] ranges IH]; intros s e [Hne Hsep].
  - apply Forall_cons in Hne as [Hse _]. simpl in Hse.
    replace (e - s) with (Z.of_nat (Z.to_nat (e - s))) by lia.
    rewrite compress_loop_run. simpl. do 2 f_equal. lia.
  - pose proof Hne as [Hse [Hse' _]%Forall_cons]%Forall_cons.
    simpl in Hse, Hse'.
    apply Sorted_inv in Hsep as [Hsep Hhd].
    apply HdRel_inv in Hhd. unfold separated in Hhd. simpl in Hhd.
    replace (e - s) with (Z.of_nat (Z.to_nat (e - s))) by lia.
    rewrite compress_loop_run, expand_cons by done.
    rewrite CompressFacts.compress_loop_cons, decide_False by lia.
    rewrite IH.
    + do 2 f_equal. lia.
    + split; [by apply Forall_cons in Hne as [_ ?]|done].
Qed.

Lemma seqZ_Sorted m n : Sorted Z.lt (seqZ m n).
Proof.
  destruct (decide (n ≤ 0)) as [?|Hn]; [rewrite seqZ_nil by done; constructor|].
  replace n with (Z.of_nat (Z.to_nat n)) by lia.
  generalize (Z.to_nat n) as k. clear. intros k. revert m.
  induction k as [|k IH]; intros m; [constructor|].
  rewrite seqZ_cons by lia.
  replace (Z.pred (Z.of_nat (S k))) with (Z.of_nat k) by lia.
  constructor; [apply IH|].
  destruct k as [|k]; [constructor|].
  rewrite seqZ_cons by lia. constructor. lia.
Qed.

(** A canonical list is made of ranges that are not empty. *)
Lemma canonical_nonempty ranges :
  canonical ranges → Forall (λ r, r.1 ≤ r.2) ranges.
Proof. by intros [? _]. Qed.

(** The integers of a canonical list are in strictly ascending order. *)
Lemma expand_canonical_sorted ranges :
  canonical ranges → Sorted Z.lt (expand ranges)
  ∧ ∀ x, x ∈ expand ranges → ∀ r, head ranges = Some r → r.1 ≤ x.
Proof.
  induction ranges as [|[s e] ranges IH]; intros [Hne Hsep].
  - split; [constructor|]. by intros ? ?%elem_of_nil.
  - apply Forall_cons in Hne as [Hse Hne]. simpl in Hse.
    apply Sorted_inv in Hsep as [Hsep Hhd].
    destruct IH as [IH1 IH2]; [done|].
    assert (∀ x, x ∈ expand ranges → e + 1 < x) as Habove.
    { intros x Hx. destruct ranges as [|r ranges]; [by apply elem_of_nil in Hx|].
      apply HdRel_inv in Hhd. specialize (IH2 x Hx r eq_refl).
      unfold separated in Hhd. simpl in Hhd. lia. }
    change (expand ((s, e) :: ranges))
      with (seqZ s (e - s + 1) ++ expand ranges).
    split.
    + apply Sorted_StronglySorted in IH1; [|intros ???; lia].
      apply StronglySorted_Sorted, StronglySorted_app_2.
      * intros x y Hx%elem_of_seqZ Hy%Habove. lia.
      * apply Sorted_StronglySorted; [intros ???; lia|]. apply seqZ_Sorted.
      * done.
    + intros x [Hx%elem_of_seqZ|Hx%Habove]%elem_of_app r [= <-]; simpl; lia.
Qed.

Lemma Sorted_lt_le (l : list Z) : Sorted Z.lt l → Sorted Z.le l.
Proof.
  intros Hl. rewrite <-(list_fmap_id l).
  apply (Sorted_fmap id Z.lt Z.le); [|done]. intros x y. simpl. lia.
Qed.

(** [sorted(set(l))] leaves a strictly ascending list as it is. *)
Lemma sorted_set_fixed (l : list Z) :
  Sorted Z.lt l → sorted (elements (list_to_set l : gset Z)) = l.
Proof.
  intros Hl.
  destruct (CompressFacts.sorted_set_spec l) as [Hs Hin]. cbv zeta in *.
  apply (Sorted_unique Z.le).
  - apply (Sorted_merge_sort Z.le).
  - by apply Sorted_lt_le.
  - apply NoDup_Permutation.
    + unfold sorted. rewrite merge_sort_Permutation. apply NoDup_elements.
    + apply Sorted_StronglySorted in Hl; [|intros ???; lia].
      clear -Hl. induction Hl as [|x l _ IH Hx]; constructor; [|done].
      intros Hin. rewrite Forall_forall in Hx. specialize (Hx x Hin). lia.
    + done.
Qed.

Lemma compress_expand (ranges : list (Z * Z)) :
  canonical ranges →
  compress_ranges (expand ranges) = Some ranges.
Proof.
  intros Hc. destruct ranges as [|[s e] ranges]; [done|].
  pose proof Hc as [[Hse _]%Forall_cons _]. simpl in Hse.
  unfold compress_ranges.
  rewrite (sorted_set_fixed (expand ((s, e) :: ranges)))
    by apply expand_canonical_sorted, Hc.
  rewrite expand_cons by done. csimpl.
  by rewrite compress_loop_expand.
Qed.

(** The ranges returned are not empty. *)
Lemma compress_ranges_nonempty lines ranges :
  compress_ranges lines = Some ranges → Forall (λ r, r.1 ≤ r.2) ranges.
Proof.
  unfold compress_ranges. destruct lines as [|x0 lines].
  { intros [= <-]. constructor. }
  destruct (CompressFacts.sorted_set_spec (x0 :: lines)) as [Hs _].
  destruct (sorted _) as [|first rest]; [done|]. csimpl. intros [= <-].
  destruct (CompressFacts.compress_loop_spec rest first first)
    as (G1 & _); [lia|done|].
  eapply Forall_impl; [exact G1|]. simpl. lia.
Qed.

Lemma expand_compress_ranges (lines : list Z) :
  ∃ ranges,
    compress_ranges lines = Some ranges
    ∧ expand ranges = sorted (elements (list_to_set lines : gset Z)).
Proof.
  unfold compress_ranges.
  destruct lines as [|x0 lines].
  { exists []. split; [done|]. by rewrite list_to_set_nil, elements_empty. }
  destruct (CompressFacts.sorted_set_spec (x0 :: lines)) as [_ Hin].
  destruct (sorted _) as [|first rest] eqn:E.
  { exfalso. apply (elem_of_nil x0), Hin. by left. }
  csimpl. eexists. split; [done|].
  rewrite expand_compress_loop by lia.
  replace (first - first + 1) with 1 by lia.
  by rewrite seqZ_cons, seqZ_nil by lia.
Qed.

Lemma size_list_to_set_le (l : list Z) :
  (size (list_to_set l : gset Z) ≤ length l)%nat.
Proof.
  induction l as [|x l IH]; [done|].
  rewrite list_to_set_cons, size_union_alt, size_singleton. simpl.
  assert (list_to_set l ∖ {[x]} ⊆ (list_to_set l : gset Z)) as Hsub
    by (by intros y [? _]%elem_of_difference).
  apply subseteq_size in Hsub. lia.
Qed.

Lemma length_expand ranges :
  Forall (λ r, r.1 ≤ r.2) ranges →
  len (expand ranges) = sum_Z (range_size <$> ranges)
  ∧ len ranges ≤ len (expand ranges).
Proof.
  unfold len. induction 1 as [|[s e] ranges Hse _ [IH1 IH2]]; [done|].
  change (expand ((s, e) :: ranges))
    with (seqZ s (e - s + 1) ++ expand ranges).
  rewrite length_app, length_seqZ. csimpl. unfold range_size at 1.
  simpl in *. lia.
Qed.

End CompressMore.

(** X1. Flattening the ranges of [compress_ranges] gives the input sorted
    and without repetitions, as a list: [sorted(set(lines))]. *)
Theorem compress_ranges_expand (lines : list Z) :
  ∃ ranges,
    CoverageUncovered.compress_ranges lines = Some ranges
    ∧ expand ranges = sorted (elements (list_to_set lines : gset Z)).
Proof. apply CompressMore.expand_compress_ranges. Qed.

(** X2. Round trip: the integers of a canonical list of ranges compress
    back to that list. *)
Theorem compress_ranges_round_trip (ranges : list (Z * Z)) :
  canonical ranges →
  CoverageUncovered.compress_ranges (expand ranges) = Some ranges.
Proof. apply CompressMore.compress_expand. Qed.

Lemma compress_ranges_round_trip_witness :
  CoverageUncovered.compress_ranges (expand [(1, 3); (5, 5); (8, 9)])
  = Some [(1, 3); (5, 5); (8, 9)].
Proof.
  apply compress_ranges_round_trip. split.
  - repeat constructor; simpl; lia.
  - repeat constructor; unfold separated; simpl; lia.
Defined.

(** X3. The result does not depend on the order or the repetitions of the
    input, and it is the only canonical list for the input: a canonical
    list with the integers of [lines] is what [compress_ranges] returns. *)
Theorem compress_ranges_unique (lines : list Z) (ranges : list (Z * Z)) :
  canonical ranges →
  (list_to_set (expand ranges) : gset Z) = list_to_set lines →
  CoverageUncovered.compress_ranges lines = Some ranges.
Proof.
  intros Hc Hset. rewrite <-(CompressMore.compress_expand ranges Hc).
  unfold CoverageUncovered.compress_ranges. rewrite Hset.
  destruct lines as [|x lines], (expand ranges) as [|y l]; try done.
  - rewrite list_to_set_nil in Hset. exfalso.
    apply (not_elem_of_empty (C:=gset Z) y). rewrite <-Hset.
    apply elem_of_list_to_set. by left.
  - rewrite list_to_set_nil in Hset. exfalso.
    apply (not_elem_of_empty (C:=gset Z) x). rewrite Hset.
    apply elem_of_list_to_set. by left.
Qed.

Lemma compress_ranges_unique_witness :
  CoverageUncovered.compress_ranges [9; 3; 1; 2; 3; 8; 5]
  = Some [(1, 3); (5, 5); (8, 9)].
Proof.
  apply compress_ranges_unique.
  - split.
    + repeat constructor; simpl; lia.
    + repeat constructor; unfold separated; simpl; lia.
  - apply (bool_decide_unpack _). vm_compute. exact I.
Defined.

(** X4. The ranges account for each distinct input line once: their sizes
    add up to the number of distinct lines, which is at most [len(lines)],
    and there are at most as many ranges as distinct lines. *)
Theorem compress_ranges_sizes (lines : list Z) :
  ∃ ranges,
    CoverageUncovered.compress_ranges lines = Some ranges
    ∧ sum_Z (range_size <$> ranges)
      = Z.of_nat (size (list_to_set lines : gset Z))
    ∧ sum_Z (range_size <$> ranges) ≤ len lines
    ∧ len ranges ≤ sum_Z (range_size <$> ranges).
Proof.
  destruct (CompressMore.expand_compress_ranges lines) as (ranges & Hc & Hex).
  pose proof (CompressMore.compress_ranges_nonempty _ _ Hc) as Hne.
  destruct (CompressMore.length_expand ranges Hne) as [Hlen Hcount].
  exists ranges. split; [done|]. rewrite <-Hlen.
  assert (len (expand ranges) = Z.of_nat (size (list_to_set lines : gset Z)))
    as Hsize.
  { rewrite Hex. unfold len, sorted, size, set_size. simpl.
    by rewrite merge_sort_Permutation. }
  pose proof (CompressMore.size_list_to_set_le lines).
  unfold len in *. split_and!; lia.
Qed.

(** ** More on [splitlines] and [parse_annotated] *)

Module ParseMore.
Import CoverageUncovered TextFacts.

Lemma splitlines_go_cons cur c s :
  splitlines_go cur (c :: s) =
  if is_linebreak c
  then cur :: match s with
              | c' :: s'' =>
                  if eqc c CR && eqc c' LF
                  then splitlines_go [] s''
                  else splitlines_go [] s
              | [] => splitlines_go [] s
              end
  else splitlines_go (cur ++ [c]) s.
Proof. reflexivity. Qed.

Lemma splitlines_go_LF_cons cur s :
  splitlines_go cur (LF :: s) = cur :: splitlines_go [] s.
Proof. by destruct s. Qed.

(** A line feed ends the line being read, also as the second half of a
    CR LF pair; what follows it is split on its own. *)
Lemma splitlines_go_LF a : ∀ cur b,
  splitlines_go cur (a ++ LF :: b)
  = splitlines_go cur (a ++ [LF]) ++ splitlines_go [] b.
Proof.
  induction a as [a IH] using (induction_ltof1 _ length).
  unfold ltof in IH. intros cur b. destruct a as [|c a].
  - cbn [app]. by rewrite !splitlines_go_LF_cons.
  - cbn [app]. rewrite !(splitlines_go_cons cur c).
    destruct (is_linebreak c); [|apply IH; simpl; lia].
    cbn [app]. f_equal. destruct a as [|c' a]; cbn [app].
    + change (eqc LF LF) with true. rewrite andb_true_r.
      destruct (eqc c CR); [done|]. by rewrite !splitlines_go_LF_cons.
    + destruct (eqc c CR && eqc c' LF).
      * apply IH. simpl. lia.
      * apply (IH (c' :: a)). simpl. lia.
Qed.

(** A line feed at the end adds at most an empty line. *)
Lemma splitlines_go_end a : ∀ cur,
  splitlines_go cur (a ++ [LF]) = splitlines_go cur a
  ∨ splitlines_go cur (a ++ [LF]) = splitlines_go cur a ++ [[]].
Proof.
  induction a as [a IH] using (induction_ltof1 _ length).
  unfold ltof in IH. intros cur. destruct a as [|c a].
  - cbn [app]. rewrite splitlines_go_LF_cons. simpl.
    destruct cur; [by right|by left].
  - cbn [app]. rewrite !(splitlines_go_cons cur c).
    destruct (is_linebreak c); [|apply IH; simpl; lia].
    destruct a as [|c' a]; cbn [app].
    + change (eqc LF LF) with true. rewrite andb_true_r.
      destruct (eqc c CR); [by left|]. rewrite splitlines_go_LF_cons.
      by right.
    + destruct (eqc c CR && eqc c' LF).
      * destruct (IH a ltac:(simpl; lia) []) as [->| ->]; [by left|by right].
      * destruct (IH (c' :: a) ltac:(simpl; lia) []) as [E|E];
          cbn [app] in E; rewrite E; [by left|by right].
Qed.

Lemma line_result_empty : line_result [] = Some [].
Proof. reflexivity. Qed.

Lemma mapM_app {A B} (f : A → option B) l1 l2 :
  mapM f (l1 ++ l2) = r1 ← mapM f l1; r2 ← mapM f l2; Some (r1 ++ r2).
Proof.
  induction l1 as [|x l1 IH]; cbn [app mapM].
  - by destruct (mapM f l2).
  - destruct (f x); cbn [mbind option_bind]; [|done]. rewrite IH.
    destruct (mapM f l1); cbn [mbind option_bind mret option_ret]; [|done].
    by destruct (mapM f l2).
Qed.

Lemma parse_annotated_concat output :
  parse_annotated output = @concat Z <$> mapM line_result (splitlines output).
Proof.
  unfold parse_annotated. rewrite ParseFacts.parse_lines_app.
  by destruct (mapM line_result (splitlines output)).
Qed.

Lemma parse_annotated_LF a b :
  parse_annotated (a ++ LF :: b)
  = la ← parse_annotated a; lb ← parse_annotated b; Some (la ++ lb).
Proof.
  rewrite !parse_annotated_concat. unfold splitlines.
  rewrite splitlines_go_LF, mapM_app.
  assert (@concat Z <$> mapM line_result (splitlines_go [] (a ++ [LF]))
          = @concat Z <$> mapM line_result (splitlines_go [] a)) as E.
  { destruct (splitlines_go_end a []) as [->| ->]; [done|].
    rewrite mapM_app. csimpl.
    destruct (mapM line_result (splitlines_go [] a)) as [rs|]; csimpl;
      [|done].
    by rewrite concat_app, app_nil_r. }
  destruct (mapM line_result (splitlines_go [] (a ++ [LF]))) as [r1|],
    (mapM line_result (splitlines_go [] a)) as [r1'|]; csimpl in *;
    try done.
  injection E as E.
  destruct (mapM line_result (splitlines_go [] b)) as [r2|]; csimpl; [|done].
  by rewrite concat_app, E.
Qed.

Lemma digit_value_range c : is_digit c = true → 0 ≤ digit_value c ≤ 9.
Proof. destruct c as [[] [] [] [] [] [] [] []]; try done; by vm_compute. Qed.

Lemma digits_value_bounds s : ∀ acc k,
  all_of is_digit s → 0 ≤ k → 0 ≤ acc < 10 ^ k →
  0 ≤ foldl (λ acc c, 10 * acc + digit_value c) acc s < 10 ^ (k + len s).
Proof.
  unfold len. induction s as [|c s IH]; intros acc k Hs Hk Hacc.
  - simpl. by rewrite Z.add_0_r.
  - apply Forall_cons in Hs as [Hc%digit_value_range Hs]. simpl foldl.
    replace (k + Z.of_nat (length (c :: s)))
      with ((k + 1) + Z.of_nat (length s)) by (simpl; lia).
    apply IH; [done|lia|]. rewrite Z.pow_add_r by lia.
    change (10 ^ 1) with 10. lia.
Qed.

(** The value of [int] is not negative and has no more digits than the
    text. *)
Lemma int_bounds s n :
  all_of is_digit s → int s = Some n → 0 ≤ n < 10 ^ max_str_digits.
Proof.
  unfold int. intros Hs. case_decide as Hlen; [|done]. intros [= <-].
  destruct (digits_value_bounds s 0 0 Hs) as [H0 Hlt]; [done..|].
  split; [done|]. eapply Z.lt_le_trans; [exact Hlt|].
  apply Z.pow_le_mono_r; unfold len in *; lia.
Qed.

Lemma line_result_bounds ln r :
  line_result ln = Some r →
  (length r ≤ 1)%nat ∧ Forall (λ n, 0 ≤ n < 10 ^ max_str_digits) r.
Proof.
  unfold line_result.
  destruct (line_rx_match ln) as [[g1 count]|] eqn:E;
    [|intros [= <-]; split; [simpl; lia|constructor]].
  destruct (int g1) as [lineno|] eqn:Ei; [|done]. csimpl. intros [= <-].
  destruct count as [count|]; [|split; [simpl; lia|constructor]].
  case_decide; [|split; [simpl; lia|constructor]].
  split; [simpl; lia|]. repeat constructor;
    apply ParseFacts.line_rx_match_shape in E
      as (? & ? & ? & _ & _ & Hd & _);
    by destruct (int_bounds g1 lineno Hd Ei).
Qed.

Lemma parse_bounds output lines :
  parse_annotated output = Some lines →
  (length lines ≤ length (splitlines output))%nat
  ∧ Forall (λ n, 0 ≤ n < 10 ^ max_str_digits) lines.
Proof.
  intros (rs & Hrs & ->)%ParseFacts.parse_annotated_Some.
  induction Hrs as [|ln r lines rs Hr _ [IH1 IH2]]; csimpl.
  - split; [lia|constructor].
  - destruct (line_result_bounds ln r Hr) as [H1 H2].
    rewrite length_app. split; [lia|]. by apply Forall_app.
Qed.

End ParseMore.

(** X5. [parse_annotated] reports at most one number for each line of the
    text, no negative number and none of more digits than [int] converts.
    It raises only on a text with a data line whose line number has more
    digits. *)
Theorem parse_annotated_bounds (output : str) :
  match CoverageUncovered.parse_annotated output with
  | Some lines =>
      (length lines ≤ length (splitlines output))%nat
      ∧ Forall (λ n, 0 ≤ n < 10 ^ max_str_digits) lines
  | None => ∃ ln, ln ∈ splitlines output ∧ long_number ln
  end.
Proof.
  destruct (CoverageUncovered.parse_annotated output) as [lines|] eqn:E.
  - by apply ParseMore.parse_bounds.
  - by apply ParseFacts.parse_annotated_None.
Qed.

(** X6. The lines are parsed one by one: a listing cut at a line feed gives
    the numbers of the first part followed by those of the second, and it
    raises when one of the parts does. *)
Theorem parse_annotated_line_feed (a b : str) :
  CoverageUncovered.parse_annotated (a ++ LF :: b)
  = la ← CoverageUncovered.parse_annotated a;
    lb ← CoverageUncovered.parse_annotated b; Some (la ++ lb).
Proof. apply ParseMore.parse_annotated_LF. Qed.

(** ** More on [extract_report_for_file] *)

Module ExtractMore.
Import CoverageUncovered TextFacts.

Lemma substring_trans (a b c : str) :
  substring a b → substring b c → substring a c.
Proof.
  intros (x & y & ->) (x' & y' & ->). exists (x' ++ x), (y ++ y').
  by rewrite <-!app_assoc.
Qed.

(** The scan stops at the first line that contains the name. *)
Lemma extract_loop_found lines filename before line after :
  lines = before ++ line :: after →
  substring filename line →
  (∀ l, l ∈ before → ¬ substring filename l) →
  ∃ pcts, extract_loop lines filename = Some (Some line, pcts).
Proof.
  intros -> Hline. induction before as [|l before IH]; intros Hbefore; simpl.
  - rewrite (proj2 (ExtractFacts.contains_true filename line)) by done.
    destruct (ExtractFacts.findall_total (S (length line)) line)
      as [pcts Hp]; [lia|].
    fold (pct_rx_findall line) in Hp. rewrite Hp. by exists pcts.
  - rewrite (proj2 (ExtractFacts.contains_false filename l)).
    + apply IH. intros l' Hl'. apply Hbefore. by right.
    + apply Hbefore. by left.
Qed.

(** Where a name is found, each part of the name is found too, on that
    line or on an earlier one. *)
Lemma extract_loop_part lines : ∀ filename part line pcts,
  substring part filename →
  extract_loop lines filename = Some (Some line, pcts) →
  ∃ before line' after pcts',
    extract_loop lines part = Some (Some line', pcts')
    ∧ lines = before ++ line' :: after
    ∧ (line' = line ∨ line ∈ after).
Proof.
  induction lines as [|l lines IH]; intros filename part line pcts Hpart;
    simpl; [done|].
  destruct (contains filename l) eqn:Hf.
  - apply ExtractFacts.contains_true in Hf.
    rewrite (proj2 (ExtractFacts.contains_true part l))
      by eauto using substring_trans.
    destruct (pct_rx_findall l) as [p|]; [|done]. csimpl.
    intros [= <- <-]. exists [], l, lines, p. split_and!; [done..|by left].
  - intros Hex. destruct (contains part l) eqn:Hp.
    + destruct (ExtractFacts.findall_total (S (length l)) l)
        as [p Hfind]; [lia|].
      fold (pct_rx_findall l) in Hfind. rewrite Hfind. csimpl.
      exists [], l, lines, p. split_and!; [done..|]. right.
      clear -Hex. induction lines as [|l' lines IH]; simpl in Hex; [done|].
      destruct (contains filename l').
      * destruct (pct_rx_findall l'); [|done]. injection Hex as -> _.
        by left.
      * right. by apply IH.
    + destruct (IH _ _ _ _ Hpart Hex)
        as (before & line' & after & pcts' & -> & -> & Hpos).
      exists (l :: before), line', after, pcts'. done.
Qed.

(** The search returns for every report. *)
Lemma extract_report_total report_output filename :
  ∃ r, extract_report_for_file report_output filename = Some r.
Proof.
  unfold extract_report_for_file.
  induction (splitlines report_output) as [|l lines IH]; simpl; [by eexists|].
  destruct (contains filename l); [|done].
  destruct (ExtractFacts.findall_total (S (length l)) l) as [p Hp]; [lia|].
  fold (pct_rx_findall l) in Hp. rewrite Hp. by eexists.
Qed.

Lemma count_char_app c (a b : str) :
  count_char c (a ++ b) = count_char c a + count_char c b.
Proof. unfold count_char, len, str. rewrite filter_app, length_app. lia. Qed.

Lemma count_char_cons c x (s : str) :
  count_char c (x :: s) = (if decide (x = c) then 1 else 0) + count_char c s.
Proof.
  unfold count_char, len, str. rewrite filter_cons.
  destruct (decide (x = c)); simpl; lia.
Qed.

Lemma count_char_nonneg c (s : str) : 0 ≤ count_char c s.
Proof. unfold count_char, len. lia. Qed.

(** Each match of [pct_rx] uses up a percent sign. *)
Lemma findall_count fuel : ∀ s pcts,
  pct_rx_findall_from fuel s = Some pcts →
  len pcts ≤ count_char percent s.
Proof.
  induction fuel as [|fuel IH]; intros s pcts; [done|]. simpl.
  destruct (pct_rx_match s) as [[g rest]|] eqn:E.
  - destruct (pct_rx_findall_from fuel rest) as [l|] eqn:El; [|done].
    intros [= <-]. apply IH in El.
    apply ExtractFacts.pct_rx_match_Some in E as (d1 & d2 & _ & -> & _).
    rewrite count_char_app, count_char_cons, count_char_app, count_char_cons.
    pose proof (count_char_nonneg percent d1).
    pose proof (count_char_nonneg percent d2).
    destruct (decide (percent = percent)); [|done].
    destruct (decide (dot = percent)); unfold len in *; simpl length; lia.
  - destruct s as [|c s]; [by intros [= <-]|].
    intros Hs%IH. rewrite count_char_cons. case_decide; lia.
Qed.

End ExtractMore.

(** X7. A shorter target is found at least as early: when the report has a
    line for [filename], the search for any text that is part of [filename]
    (the empty text too) also finds a line, the same one or an earlier
    one. *)
Theorem extract_report_part_of_name (report_output filename part line : str)
    (pcts : list str) :
  substring part filename →
  CoverageUncovered.extract_report_for_file report_output filename
  = Some (Some line, pcts) →
  ∃ before line' after pcts',
    CoverageUncovered.extract_report_for_file report_output part
    = Some (Some line', pcts')
    ∧ splitlines report_output = before ++ line' :: after
    ∧ (line' = line ∨ line ∈ after).
Proof. apply ExtractMore.extract_loop_part. Qed.

Lemma extract_report_part_of_name_witness :
  ∃ before line' after pcts',
    CoverageUncovered.extract_report_for_file
      (nl "src/ai/foo.cpp 10.00%" ++ nl "src/foo.cpp 85.00%") (lit "foo.cpp")
    = Some (Some line', pcts')
    ∧ splitlines (nl "src/ai/foo.cpp 10.00%" ++ nl "src/foo.cpp 85.00%")
      = before ++ line' :: after
    ∧ (line' = lit "src/foo.cpp 85.00%" ∨ lit "src/foo.cpp 85.00%" ∈ after).
Proof.
  apply (extract_report_part_of_name
           (nl "src/ai/foo.cpp 10.00%" ++ nl "src/foo.cpp 85.00%")
           (lit "src/foo.cpp") (lit "foo.cpp") (lit "src/foo.cpp 85.00%")
           [lit "85.00"]).
  - exists (lit "src/"), []. reflexivity.
  - reflexivity.
Defined.

(** X8. No more percentages are reported than the matched line has percent
    signs. *)
Theorem extract_report_percent_signs (report_output filename line : str)
    (pcts : list str) :
  CoverageUncovered.extract_report_for_file report_output filename
  = Some (Some line, pcts) →
  len pcts ≤ count_char percent line.
Proof.
  unfold CoverageUncovered.extract_report_for_file.
  induction (splitlines report_output) as [|l lines IH]; simpl; [done|].
  destruct (contains filename l); [|done].
  destruct (CoverageUncovered.pct_rx_findall l) as [p|] eqn:Hp; [|done].
  csimpl. intros [= <- <-].
  by apply ExtractMore.findall_count in Hp.
Qed.

Lemma extract_report_percent_signs_witness :
  len [lit "85.00"; lit "90.00"]
  ≤ count_char percent (lit "src/foo.cpp 85.00% 90.00% 7%").
Proof.
  apply (extract_report_percent_signs
           (nl "hdr" ++ nl "src/foo.cpp 85.00% 90.00% 7%") (lit "foo")).
  reflexivity.
Defined.

(** ** More on [find_functions] *)

Module FindMore.
Import MapUncovered.

(** The look-ahead stops at the first line with a brace. *)
Lemma look_ahead_full source_lines (m : nat) : ∀ a,
  (a + m ≤ length source_lines)%nat →
  ∃ r, look_ahead source_lines (seq a m) = Some r
       ∧ match r with
         | Some j => (a ≤ j < a + m)%nat ∧ has_brace source_lines j
                     ∧ ∀ j', (a ≤ j' < j)%nat → ¬ has_brace source_lines j'
         | None => ∀ j', (a ≤ j' < a + m)%nat → ¬ has_brace source_lines j'
         end.
Proof.
  induction m as [|m IH]; intros a Hlen.
  - exists None. split; [done|]. intros j' ?. lia.
  - simpl. destruct (lookup_lt_is_Some_2 source_lines a) as [l Hl]; [lia|].
    rewrite Hl. csimpl. destruct (char_in lbrace l) eqn:Hb.
    + exists (Some a). split; [done|]. split_and!; [lia|lia|by exists l|].
      intros j' ?. lia.
    + destruct (IH (S a)) as (r & -> & Hr); [lia|].
      assert (¬ has_brace source_lines a) as Ha.
      { intros (l' & Hl' & Hb'). congruence. }
      exists r. split; [done|]. destruct r as [j|].
      * destruct Hr as (? & ? & Hr). split_and!; [lia|lia|done|].
        intros j' Hj'. destruct (decide (j' = a)) as [->|]; [done|].
        apply Hr. lia.
      * intros j' Hj'. destruct (decide (j' = a)) as [->|]; [done|].
        apply Hr. lia.
Qed.

Lemma brace_balance_snoc ls l :
  brace_balance (ls ++ [l]) = brace_balance ls + brace_delta l.
Proof.
  unfold brace_balance. rewrite fmap_app. csimpl.
  induction (brace_delta <$> ls) as [|x xs IH]; simpl; lia.
Qed.

Lemma lines_between_snoc source_lines bl a l :
  (bl ≤ a)%nat → source_lines !! a = Some l →
  lines_between source_lines bl a
  = take (a - bl) (drop bl source_lines) ++ [l].
Proof.
  intros Hle Hl. unfold lines_between.
  replace (a + 1 - bl)%nat with (S (a - bl)) by lia.
  apply take_S_r. rewrite lookup_drop. rewrite <-Hl. f_equal. lia.
Qed.

(** The brace count closes the span where the braces from the body line on
    balance for the first time, or on the last line. *)
Lemma match_braces_full source_lines bl (m : nat) : ∀ a brace_count end_line,
  (bl ≤ a)%nat → (a + m ≤ length source_lines)%nat →
  brace_count = brace_balance (take (a - bl) (drop bl source_lines)) →
  ∃ e, match_braces source_lines (seq a m) brace_count end_line = Some e
       ∧ ((m = 0%nat ∧ e = end_line)
          ∨ ((a ≤ e < a + m)%nat
             ∧ (brace_balance (lines_between source_lines bl e) = 0
                ∨ (e + 1 = a + m)%nat)
             ∧ ∀ k, (a ≤ k < e)%nat →
                    brace_balance (lines_between source_lines bl k) ≠ 0)).
Proof.
  induction m as [|m IH]; intros a bc el Hbl Hlen Hbc.
  - exists el. split; [done|]. by left.
  - simpl. destruct (lookup_lt_is_Some_2 source_lines a) as [l Hl]; [lia|].
    rewrite Hl. csimpl.
    assert (bc + count_char lbrace l - count_char rbrace l
            = brace_balance (lines_between source_lines bl a)) as Hnew.
    { rewrite (lines_between_snoc _ _ _ l) by done.
      rewrite brace_balance_snoc, <-Hbc. unfold brace_delta. lia. }
    case_decide as Hz.
    + exists a. split; [done|]. right. split_and!; [lia|lia| |].
      * left. by rewrite <-Hnew.
      * intros k ?. lia.
    + destruct (IH (S a) (bc + count_char lbrace l - count_char rbrace l) a)
        as (e & -> & He); [lia|lia| |].
      { rewrite Hnew. unfold lines_between. do 2 f_equal. lia. }
      exists e. split; [done|]. right.
      destruct He as [[-> ->]|(? & Hend & Hk)].
      * split_and!; [lia|lia|right; lia|]. intros k ?. lia.
      * split_and!; [lia|lia| |].
        -- destruct Hend; [by left|right; lia].
        -- intros k Hk'. destruct (decide (k = a)) as [->|].
           ++ by rewrite <-Hnew.
           ++ apply Hk. lia.
Qed.

(** The loop, unfolded once. *)
Lemma find_functions_loop_S fuel source_lines i funcs :
  find_functions_loop (S fuel) source_lines i funcs =
  let n := length source_lines in
  if decide (i < n)%nat then
    line ← source_lines !! i;
    let stripped := strip line in
    if startswith (lit "#") stripped || startswith (lit "//") stripped
    then find_functions_loop fuel source_lines (i + 1) funcs
    else if char_in lparen line && char_in rparen line
            && negb (endswith (lit ";") stripped) then
      let first_word := default [] (head (split stripped)) in
      if bool_decide (first_word ∈ control_kw)
      then find_functions_loop fuel source_lines (i + 1) funcs
      else
        brace_line ←
          (if char_in lbrace line then Some (Some i)
           else look_ahead source_lines
                  (range (i + 1) (Nat.min (i + 6) n)));
        match brace_line with
        | Some brace_line =>
            let fname := function_name line in
            end_line ←
              match_braces source_lines (range brace_line n) 0 brace_line;
            find_functions_loop fuel source_lines (end_line + 1)
              (funcs ++ [Span fname (Z.of_nat i + 1)
                           (Z.of_nat brace_line + 1)
                           (Z.of_nat end_line + 1)])
        | None => find_functions_loop fuel source_lines (i + 1) funcs
        end
    else find_functions_loop fuel source_lines (i + 1) funcs
  else Some funcs.
Proof. reflexivity. Qed.

(** One turn of the loop, with what it has looked at. *)
Lemma find_functions_loop_turn fuel source_lines i funcs :
  (i < length source_lines)%nat →
  (find_functions_loop (S fuel) source_lines i funcs
   = find_functions_loop fuel source_lines (i + 1) funcs
   ∧ ¬ candidate source_lines i)
  ∨ ∃ f bl el,
      span_at source_lines f i bl el
      ∧ find_functions_loop (S fuel) source_lines i funcs
        = find_functions_loop fuel source_lines (el + 1) (funcs ++ [f]).
Proof.
  intros Hi. rewrite find_functions_loop_S. cbv zeta.
  rewrite decide_True by done.
  destruct (lookup_lt_is_Some_2 source_lines i Hi) as [line Hline].
  rewrite Hline. change (Some line ≫= ?f) with (f line). cbv beta.
  assert (∀ b, is_signature_line line = b → b = false →
               ¬ candidate source_lines i) as Hcand.
  { intros b <- Hb (line' & Hl' & Hsig & _). congruence. }
  specialize (Hcand _ eq_refl).
  unfold is_signature_line in Hcand. cbv zeta in Hcand.
  destruct (startswith (lit "#") (strip line)
            || startswith (lit "//") (strip line)) eqn:E1.
  { left. split; [done|]. by apply Hcand. }
  destruct (char_in lparen line && char_in rparen line
            && negb (endswith (lit ";") (strip line))) eqn:E2.
  2: { left. split; [done|]. by apply Hcand. }
  destruct (bool_decide (default [] (head (split (strip line)))
                         ∈ control_kw)) eqn:E3.
  { left. split; [done|]. by apply Hcand. }
  clear Hcand.
  assert (∃ r, (if char_in lbrace line then Some (Some i)
                else look_ahead source_lines
                       (range (i + 1) (Nat.min (i + 6) (length source_lines))))
               = Some r
               ∧ match r with
                 | Some bl =>
                     (i ≤ bl ≤ i + 5)%nat ∧ (bl < length source_lines)%nat
                     ∧ has_brace source_lines bl
                     ∧ ∀ j, (i ≤ j < bl)%nat → ¬ has_brace source_lines j
                 | None =>
                     ∀ j, (i ≤ j ≤ i + 5)%nat → ¬ has_brace source_lines j
                 end)
    as (r & -> & Hr).
  { destruct (char_in lbrace line) eqn:Hb.
    - exists (Some i). split; [done|].
      split_and!; [lia|lia|done|by exists line|]. intros j ?. lia.
    - assert (¬ has_brace source_lines i) as Hno.
      { intros (l' & Hl' & Hb'). congruence. }
      unfold range.
      destruct (look_ahead_full source_lines
                  (Nat.min (i + 6) (length source_lines) - (i + 1)) (i + 1))
        as (r & -> & Hr); [lia|].
      exists r. split; [done|]. destruct r as [bl|].
      + destruct Hr as (? & ? & Hr). split_and!; [lia|lia|lia|done|].
        intros j Hj. destruct (decide (j = i)) as [->|]; [done|].
        apply Hr. lia.
      + intros j Hj. destruct (decide (j = i)) as [->|]; [done|].
        destruct (decide (j < length source_lines)%nat).
        * apply Hr. lia.
        * intros (l' & Hl'%lookup_lt_Some & _). lia. }
  csimpl. destruct r as [bl|].
  - destruct Hr as (Hbl & Hbln & Hbrace & Hfirst).
    unfold range.
    destruct (match_braces_full source_lines bl
                (length source_lines - bl) bl 0 bl)
      as (el & -> & Hel); [lia|lia| |].
    { by rewrite Nat.sub_diag. }
    csimpl. right.
    destruct Hel as [[? _]|(Hle & Hend & Hk)]; [lia|].
    eexists _, bl, el. split; [|reflexivity].
    unfold span_at. simpl.
    split_and!; try done; try lia;
      try (destruct Hend as [?|?]; [by left|right; lia]).
    exists line. split_and!; [done| |done].
    unfold is_signature_line. cbv zeta. by rewrite E1, E2, E3.
  - left. split; [done|].
    intros (line' & _ & _ & j & Hj & Hb). by apply (Hr j).
Qed.

(** What the loop adds from the cursor [i] on: spans found as above, and
    one around every candidate line. *)
Lemma find_functions_loop_full fuel : ∀ source_lines i funcs res,
  find_functions_loop fuel source_lines i funcs = Some res →
  ∃ new,
    res = funcs ++ new
    ∧ Forall (λ f, ∃ i bl el, span_at source_lines f i bl el) new
    ∧ ∀ k, (i ≤ k)%nat → candidate source_lines k →
           ∃ f, f ∈ new ∧ start f ≤ Z.of_nat k + 1 ≤ end_ f.
Proof.
  induction fuel as [|fuel IH]; intros source_lines i funcs res.
  - simpl. case_decide as Hi; [done|]. intros [= <-].
    exists []. split_and!; [by rewrite app_nil_r|constructor|].
    intros k Hk (line & Hl%lookup_lt_Some & _). lia.
  - destruct (decide (i < length source_lines)%nat) as [Hi|Hi].
    + destruct (find_functions_loop_turn fuel source_lines i funcs Hi)
        as [[-> Hno]|(f & bl & el & Hf & ->)]; intros Hres.
      * destruct (IH _ _ _ _ Hres) as (new & -> & Hwf & Hcov).
        exists new. split_and!; [done..|].
        intros k Hk Hc. destruct (decide (k = i)) as [->|]; [done|].
        apply Hcov; [lia|done].
      * destruct (IH _ _ _ _ Hres) as (new & -> & Hwf & Hcov).
        exists (f :: new). split_and!.
        -- by rewrite <-app_assoc.
        -- constructor; [by exists i, bl, el|done].
        -- intros k Hk Hc. destruct (decide (k ≤ el)%nat).
           ++ exists f. split; [by left|].
              destruct Hf as (-> & _ & -> & ? & _). lia.
           ++ destruct (Hcov k) as (g & ? & ?); [lia|done|].
              exists g. split; [by right|done].
    + simpl. rewrite decide_False by done. intros [= <-].
      exists []. split_and!; [by rewrite app_nil_r|constructor|].
      intros k Hk (line & Hl%lookup_lt_Some & _). lia.
Qed.

(** [find_functions] returns, and what holds of its spans. *)
Lemma find_functions_full source_lines :
  ∃ funcs,
    find_functions source_lines = Some funcs
    ∧ Forall (λ f, ∃ i bl el, span_at source_lines f i bl el) funcs
    ∧ StronglySorted (λ f g, end_ f < start g) funcs
    ∧ ∀ k, candidate source_lines k →
           ∃ f, f ∈ funcs ∧ start f ≤ Z.of_nat k + 1 ≤ end_ f.
Proof.
  destruct (FindFacts.find_functions_loop_spec (length source_lines)
              source_lines 0 [])
    as (funcs & Hf & _ & Hsorted); [lia|by split; constructor|].
  exists funcs. split; [done|].
  destruct (find_functions_loop_full _ _ _ _ _ Hf) as (new & -> & Hwf & Hcov).
  split_and!; [done|done|]. intros k Hk. apply Hcov; [lia|done].
Qed.

End FindMore.

(** X9. Every span of [find_functions] lies in the file, and its body opens
    on the signature line or on one of the five lines after it. *)
Theorem find_functions_spans_in_file (source_lines : list str) :
  ∃ funcs,
    MapUncovered.find_functions source_lines = Some funcs
    ∧ Forall (λ f, 1 ≤ start f ∧ end_ f ≤ len source_lines
                   ∧ body_start f - start f ≤ 5) funcs.
Proof.
  destruct (FindMore.find_functions_full source_lines)
    as (funcs & Hf & Hwf & _).
  exists funcs. split; [done|].
  eapply Forall_impl; [exact Hwf|]. simpl.
  intros f (i & bl & el & -> & -> & -> & ? & ? & ? & _). unfold len. lia.
Qed.

(** X10. Every span starts on a signature line, from which its name is
    taken, and its body line is the first line from there on that has an
    opening brace. *)
Theorem find_functions_signature_lines (source_lines : list str) :
  ∃ funcs,
    MapUncovered.find_functions source_lines = Some funcs
    ∧ Forall (λ f,
        let i := Z.to_nat (start f - 1) in
        let bl := Z.to_nat (body_start f - 1) in
        (∃ line, source_lines !! i = Some line
                 ∧ is_signature_line line = true
                 ∧ name f = function_name line)
        ∧ has_brace source_lines bl
        ∧ ∀ j, (i ≤ j < bl)%nat → ¬ has_brace source_lines j) funcs.
Proof.
  destruct (FindMore.find_functions_full source_lines)
    as (funcs & Hf & Hwf & _).
  exists funcs. split; [done|].
  eapply Forall_impl; [exact Hwf|]. simpl.
  intros f (i & bl & el & -> & -> & _ & _ & _ & _ & Hsig & Hb & Hfirst & _).
  replace (Z.to_nat (Z.of_nat i + 1 - 1)) with i by lia.
  replace (Z.to_nat (Z.of_nat bl + 1 - 1)) with bl by lia.
  done.
Qed.

Lemma find_functions_signature_lines_witness :
  ∃ funcs,
    MapUncovered.find_functions [nl "int g(void)"; nl "  // body"; nl "{ }"]
    = Some funcs
    ∧ Forall (λ f,
        ¬ has_brace [nl "int g(void)"; nl "  // body"; nl "{ }"]
            (Z.to_nat (start f - 1))) funcs.
Proof.
  destruct (find_functions_signature_lines
              [nl "int g(void)"; nl "  // body"; nl "{ }"])
    as (funcs & Hf & Hall).
  exists funcs. split; [exact Hf|].
  assert (funcs = [Span (lit "g") 1 3 3]) as ->.
  { assert (MapUncovered.find_functions
              [nl "int g(void)"; nl "  // body"; nl "{ }"]
            = Some [Span (lit "g") 1 3 3]) as Hval by reflexivity.
    rewrite Hval in Hf. by injection Hf. }
  apply Forall_cons in Hall as [(_ & _ & Hfirst) _].
  repeat constructor. apply Hfirst. simpl. lia.
Defined.

(** X11. A span ends on the first line at which the braces counted from
    its body line balance, or on the last line of the file when they do
    not balance before. *)
Theorem find_functions_braces_balance (source_lines : list str) :
  ∃ funcs,
    MapUncovered.find_functions source_lines = Some funcs
    ∧ Forall (λ f,
        let bl := Z.to_nat (body_start f - 1) in
        let el := Z.to_nat (end_ f - 1) in
        (brace_balance (lines_between source_lines bl el) = 0
         ∨ end_ f = len source_lines)
        ∧ ∀ k, (bl ≤ k < el)%nat →
               brace_balance (lines_between source_lines bl k) ≠ 0) funcs.
Proof.
  destruct (FindMore.find_functions_full source_lines)
    as (funcs & Hf & Hwf & _).
  exists funcs. split; [done|].
  eapply Forall_impl; [exact Hwf|]. simpl.
  intros f (i & bl & el & _ & -> & -> & _ & _ & _ & _ & _ & _ & Hend & Hk).
  replace (Z.to_nat (Z.of_nat el + 1 - 1)) with el by lia.
  replace (Z.to_nat (Z.of_nat bl + 1 - 1)) with bl by lia.
  split; [|done]. destruct Hend as [?|Hlast]; [by left|right].
  unfold len. lia.
Qed.

Lemma find_functions_braces_balance_witness :
  ∃ funcs,
    MapUncovered.find_functions
      [nl "int g(void) {"; nl "  if (x) {"; nl "  }"; nl "}"; nl "int z;"]
    = Some funcs
    ∧ Forall (λ f,
        brace_balance
          (lines_between
             [nl "int g(void) {"; nl "  if (x) {"; nl "  }"; nl "}";
              nl "int z;"]
             (Z.to_nat (body_start f - 1)) 2) ≠ 0) funcs.
Proof.
  destruct (find_functions_braces_balance
              [nl "int g(void) {"; nl "  if (x) {"; nl "  }"; nl "}";
               nl "int z;"])
    as (funcs & Hf & Hall).
  exists funcs. split; [exact Hf|].
  assert (funcs = [Span (lit "g") 1 1 4]) as ->.
  { assert (MapUncovered.find_functions
              [nl "int g(void) {"; nl "  if (x) {"; nl "  }"; nl "}";
               nl "int z;"]
            = Some [Span (lit "g") 1 1 4]) as Hval by reflexivity.
    rewrite Hval in Hf. by injection Hf. }
  apply Forall_cons in Hall as [(_ & Hk) _].
  repeat constructor. apply Hk. simpl. lia.
Defined.

(** X12. No candidate is skipped: every signature line that has an opening
    brace on it or within the five lines after it lies in a span, which
    starts there or earlier. *)
Theorem find_functions_covers_candidates (source_lines : list str) :
  ∃ funcs,
    MapUncovered.find_functions source_lines = Some funcs
    ∧ ∀ k, candidate source_lines k →
           ∃ f, f ∈ funcs ∧ start f ≤ Z.of_nat k + 1 ≤ end_ f.
Proof.
  destruct (FindMore.find_functions_full source_lines)
    as (funcs & Hf & _ & _ & Hcov).
  by exists funcs.
Qed.

Lemma find_functions_covers_candidates_witness :
  ∃ funcs,
    MapUncovered.find_functions [nl "int g(void)"; nl "{"; nl "}"]
    = Some funcs
    ∧ ∃ f, f ∈ funcs ∧ start f ≤ 1 ≤ end_ f.
Proof.
  destruct (find_functions_covers_candidates
              [nl "int g(void)"; nl "{"; nl "}"])
    as (funcs & Hf & Hcov).
  exists funcs. split; [exact Hf|].
  apply (Hcov 0%nat).
  exists (nl "int g(void)"). split_and!; [reflexivity..|].
  exists 1%nat. split; [lia|]. exists (nl "{"). split; reflexivity.
Defined.



(** ** More on [map_uncovered_to_functions] *)

Module AttributorMore.
Import MapUncovered.

Lemma set_absent {V} (d : Dict.t V) k v :
  k ∉ Dict.keys d → Dict.set d k v = d ++ [(k, v)].
Proof.
  unfold Dict.keys. induction d as [|[k' v'] d IH]; csimpl; [done|].
  intros [Hne Hd]%not_elem_of_cons.
  rewrite decide_False by done. f_equal. by apply IH.
Qed.

(** With pairwise distinct names the first loop makes one item per span. *)
Lemma init_func_map_distinct funcs :
  NoDup (name <$> funcs) →
  init_func_map funcs
  = (λ f, (name f, FData (start f) (end_ f) [])) <$> funcs.
Proof.
  induction funcs as [|f funcs IH] using rev_ind; [done|].
  rewrite fmap_app. csimpl. intros [Hnd [Hf _]]%NoDup_app.
  rewrite AttributorFacts.init_func_map_snoc, IH by done.
  rewrite set_absent, fmap_app; [done|].
  unfold Dict.keys. rewrite <-list_fmap_compose.
  intros Hin. apply (Hf (name f)); [done|by left].
Qed.

Lemma NoDup_fmap_eq {A B} (g : A → B) (l : list A) x y :
  NoDup (g <$> l) → x ∈ l → y ∈ l → g x = g y → x = y.
Proof.
  induction l as [|a l IH]; csimpl; [by intros _ ?%elem_of_nil|].
  intros [Ha Hnd]%NoDup_cons [->|Hx]%elem_of_cons [->|Hy]%elem_of_cons Heq;
    [done| | |by apply IH].
  - destruct Ha. rewrite Heq. by apply list_elem_of_fmap_2.
  - destruct Ha. rewrite <-Heq. by apply list_elem_of_fmap_2.
Qed.

Lemma distinct_names_result uncovered funcs :
  NoDup (name <$> funcs) →
  ∃ result others,
    map_uncovered_to_functions uncovered funcs = Some (result, others)
    ∧ (λ e, (e_name e, e_start e, e_end e)) <$> result
      = (λ f, (name f, start f, end_ f)) <$> funcs
    ∧ Forall (λ e, Forall (λ ln, e_start e ≤ ln ≤ e_end e)
                     (e_uncovered_lines e)) result.
Proof.
  intros Hnd. eexists _, _.
  split; [apply AttributorFacts.result_closed_form|].
  rewrite init_func_map_distinct by done.
  rewrite <-!list_fmap_compose. split; [done|].
  apply Forall_fmap, Forall_forall. intros f Hf. simpl.
  apply Forall_forall. intros ln Hln.
  unfold sorted in Hln. rewrite merge_sort_Permutation in Hln.
  apply list_elem_of_filter in Hln as [Hb _]. unfold bucket in Hb.
  destruct (first_match ln funcs) as [g|] eqn:Hg; [|done].
  injection Hb as Hb.
  pose proof (AttributorFacts.first_match_name_elem_of _ _ _ Hg) as Hgin.
  assert (g = f) as -> by eauto using NoDup_fmap_eq.
  apply AttributorFacts.first_match_Some in Hg as (_ & _ & _ & Hspan & _).
  by apply AttributorFacts.in_span_true.
Qed.


Lemma no_lines_result funcs :
  ∃ result,
    map_uncovered_to_functions [] funcs = Some (result, [])
    ∧ Forall (λ e, e_uncovered_count e = 0 ∧ e_uncovered_lines e = []) result.
Proof.
  eexists. split; [apply AttributorFacts.result_closed_form|].
  apply Forall_fmap, Forall_forall. by intros kv _.
Qed.

End AttributorMore.

(** X14. When the spans have pairwise distinct names, the result has one
    entry for each span, in the order of the spans, with the span's name and
    bounds. *)
Theorem distinct_names_one_entry_per_span (uncovered : list Z)
    (funcs : list span) :
  NoDup (name <$> funcs) →
  ∃ result others,
    map_uncovered_to_functions uncovered funcs = Some (result, others)
    ∧ (λ e, (e_name e, e_start e, e_end e)) <$> result
      = (λ f, (name f, start f, end_ f)) <$> funcs.
Proof.
  intros Hnd.
  destruct (AttributorMore.distinct_names_result uncovered funcs Hnd)
    as (result & others & ? & ? & _).
  by exists result, others.
Qed.

Lemma distinct_names_one_entry_per_span_witness :
  ∃ result others,
    map_uncovered_to_functions [5; 2; 30]
      [Span (lit "f") 1 1 3; Span (lit "g") 4 4 10]
    = Some (result, others)
    ∧ (λ e, (e_name e, e_start e, e_end e)) <$> result
      = [(lit "f", 1, 3); (lit "g", 4, 10)].
Proof.
  apply (distinct_names_one_entry_per_span [5; 2; 30]
           [Span (lit "f") 1 1 3; Span (lit "g") 4 4 10]).
  apply (bool_decide_unpack _). vm_compute. exact I.
Defined.

(** X15. When the spans have pairwise distinct names, the lines of each
    entry lie within the bounds of the entry. *)
Theorem distinct_names_lines_in_bounds (uncovered : list Z)
    (funcs : list span) :
  NoDup (name <$> funcs) →
  ∃ result others,
    map_uncovered_to_functions uncovered funcs = Some (result, others)
    ∧ Forall (λ e, Forall (λ ln, e_start e ≤ ln ≤ e_end e)
                     (e_uncovered_lines e)) result.
Proof.
  intros Hnd.
  destruct (AttributorMore.distinct_names_result uncovered funcs Hnd)
    as (result & others & ? & _ & ?).
  by exists result, others.
Qed.

Lemma distinct_names_lines_in_bounds_witness :
  ∃ result others,
    map_uncovered_to_functions [5; 2; 30]
      [Span (lit "f") 1 1 6; Span (lit "g") 4 4 10]
    = Some (result, others)
    ∧ Forall (λ e, Forall (λ ln, e_start e ≤ ln ≤ e_end e)
                     (e_uncovered_lines e)) result.
Proof.
  apply (distinct_names_lines_in_bounds [5; 2; 30]
           [Span (lit "f") 1 1 6; Span (lit "g") 4 4 10]).
  apply (bool_decide_unpack _). vm_compute. exact I.
Defined.


(** ** More on [get_uncovered] *)

Module JsonMore.

Lemma substring_prefix (a b : str) : substring a (a ++ b).
Proof. by exists [], b. Qed.

Lemma substring_suffix (a b : str) : substring b (a ++ b).
Proof. exists a, []. by rewrite app_nil_r. Qed.

End JsonMore.

(** X17. What [get_uncovered] can end in. It calls [json.loads] at most
    twice, each time on a part of the output that starts with an opening
    brace, and not at all when the output has no opening brace. A value it
    returns is the value of its last call. An error it raises names the
    whole output, unless the output is empty. *)
Theorem get_uncovered_outcomes {J : Type} (run : str → Z * str)
    (shlex_quote : str → str) (json_loads : str → str + J)
    (file_path cov_script : str) :
  let cmd := shlex_quote cov_script ++ lit " --file "
             ++ shlex_quote file_path ++ lit " --json" in
  let out := (run cmd).2 in
  let '(calls, res) := get_uncovered run shlex_quote json_loads
                         file_path cov_script in
  (length calls ≤ 2)%nat
  ∧ Forall (λ t, substring t out ∧ head t = Some lbrace) calls
  ∧ (lbrace ∉ out → calls = [])
  ∧ match res with
    | Returned j => ∃ t, last calls = Some t ∧ json_loads t = inr j
    | Raised msg => out = [] ∨ substring out msg
    end.
Proof.
  cbv zeta. unfold get_uncovered. destruct (run _) as [code out]. cbn [snd].
  destruct out as [|c0 out0] eqn:Eout.
  { split_and!; [simpl; lia|constructor|done|by left]. }
  rewrite <-Eout. clear Eout.
  destruct (JsonFacts.find_char_spec lbrace out)
    as [[Hf Hno]|(pre & post & Hout & Hpre & Hf)].
  { rewrite decide_True by done. cbv beta iota.
    split_and!; [simpl; lia|constructor|done|].
    right. apply JsonFacts.substring_app_r, JsonMore.substring_suffix. }
  rewrite decide_False by (unfold len in Hf; lia).
  assert (slice_from (find_char lbrace out) out = lbrace :: post) as Htext.
  { rewrite Hf, Hout. apply JsonFacts.slice_from_len. }
  rewrite Htext.
  assert (substring (lbrace :: post) out) as Hsub.
  { rewrite Hout. apply JsonMore.substring_suffix. }
  assert (lbrace ∈ out) as Hin.
  { rewrite Hout. apply elem_of_app. right. by left. }
  destruct (json_loads (lbrace :: post)) as [e|j] eqn:Hfirst.
  2: { cbv beta iota.
       split_and!; [simpl; lia|repeat (apply Forall_cons; split; [done|]); constructor|done|].
       by exists (lbrace :: post). }
  destruct (JsonFacts.rfind_char_spec rbrace (lbrace :: post))
    as [[Hr _]|(pre' & suf & Etext & Hsuf & Hr)].
  { rewrite decide_True by done. cbv beta iota.
    split_and!; [simpl; lia|repeat (apply Forall_cons; split; [done|]); constructor|done|].
    right. apply JsonFacts.substring_app_r, JsonMore.substring_suffix. }
  rewrite decide_False by (unfold len in Hr; lia).
  rewrite Hr, Etext, JsonFacts.slice_to_len.
  assert (substring (pre' ++ [rbrace]) out ∧ head (pre' ++ [rbrace]) = Some lbrace)
    as Htrim.
  { split.
    - apply (ExtractMore.substring_trans _ (lbrace :: post)); [|done].
      exists [], suf. rewrite Etext. simpl. by rewrite <-app_assoc.
    - destruct pre' as [|c pre']; [done|]. by injection Etext as <- _. }
  rewrite <-Etext.
  destruct (json_loads (pre' ++ [rbrace])) as [e'|j] eqn:Hsecond;
    cbv beta iota.
  - split_and!; [simpl; lia|repeat (apply Forall_cons; split; [done|]); constructor|done|].
    right. do 4 apply JsonFacts.substring_app_r.
    apply JsonMore.substring_suffix.
  - split_and!; [simpl; lia|repeat (apply Forall_cons; split; [done|]); constructor|done|].
    by exists (pre' ++ [rbrace]).
Qed.

(** ** [main] of [coverage_uncovered.py] *)

Module CovMainFacts.
Import CoverageUncovered CoverageUncoveredMain.

Lemma summary_text file lines ranges : Forall is_text (summary file lines ranges).
Proof.
  unfold summary. constructor; [by eexists|].
  destruct lines; [by repeat constructor; eexists|].
  repeat (constructor; [by eexists|]).
  apply Forall_fmap, Forall_forall. intros r _. by eexists.
Qed.

Lemma report_block_text rep_line pcts : Forall is_text (report_block rep_line pcts).
Proof.
  unfold report_block. constructor; [by eexists|].
  destruct rep_line as [[|c l]|]; [by repeat constructor; eexists| |
    by repeat constructor; eexists].
  constructor; [by eexists|]. destruct pcts; [constructor|].
  by repeat constructor; eexists.
Qed.

Lemma text_not_error it : is_text it → ¬ is_error_doc it.
Proof. intros [s ->] (? & ? & ? & ? & ?). done. Qed.

Section main.
Variable path_exists : str → bool.
Variable run_proc : str → Z * str.
Variable shlex_quote : str → str.
Local Abbreviation main := (main path_exists run_proc shlex_quote).
Local Abbreviation show_cmd := (show_cmd shlex_quote).
Local Abbreviation report_cmd := (report_cmd shlex_quote).

Lemma main_not_found a :
  path_exists (profdata a) = false → main a = Some ([not_found a], Return 2).
Proof. intros Hex. unfold CoverageUncoveredMain.main. by rewrite Hex. Qed.

Lemma main_show_failed a :
  path_exists (profdata a) = true → (run_proc (show_cmd a)).1 ≠ 0 →
  main a = Some (Text (lit "> " ++ show_cmd a)
                 :: show_failed (run_proc (show_cmd a)).2, Return 3).
Proof.
  intros Hex Hcode. unfold CoverageUncoveredMain.main, run.
  rewrite Hex. cbn [negb].
  destruct (run_proc (show_cmd a)) as [code out]. cbn [fst snd] in *.
  by rewrite decide_True by done.
Qed.

(** The run that [int] ends: only the command line was printed. *)
Lemma main_raises a :
  path_exists (profdata a) = true → (run_proc (show_cmd a)).1 = 0 →
  parse_annotated (run_proc (show_cmd a)).2 = None →
  main a = Some ([Text (lit "> " ++ show_cmd a)], ValueError).
Proof.
  intros Hex Hcode Hparse. unfold CoverageUncoveredMain.main, run.
  rewrite Hex. cbn [negb].
  destruct (run_proc (show_cmd a)) as [code out]. cbn [fst snd] in *.
  subst code. rewrite !decide_False by (by intros ?). by rewrite Hparse.
Qed.

(** The successful run, in closed form. *)
Lemma main_success a lines :
  path_exists (profdata a) = true → (run_proc (show_cmd a)).1 = 0 →
  parse_annotated (run_proc (show_cmd a)).2 = Some lines →
  ∃ ranges rep_line pcts,
    compress_ranges lines = Some ranges
    ∧ extract_report_for_file (run_proc (report_cmd a)).2 (file a)
      = Some (rep_line, pcts)
    ∧ main a
      = Some ([Text (lit "> " ++ show_cmd a)]
              ++ summary (file a) lines ranges
              ++ (if json a then [] else summary (file a) lines ranges)
              ++ [Text (lit "> " ++ report_cmd a)]
              ++ report_block rep_line pcts
              ++ (if json a
                  then [Json true
                          (ResultDoc (file a) (len lines)
                             ((λ r, [r.1; r.2]) <$> ranges) lines
                             rep_line pcts)]
                  else report_block rep_line pcts), Return 0).
Proof.
  intros Hex Hcode Hparse. unfold CoverageUncoveredMain.main.
  rewrite Hex. cbn [negb]. unfold run.
  destruct (run_proc (show_cmd a)) as [code out] eqn:Hshow.
  cbn [fst snd] in *. subst code.
  rewrite !decide_False by (by intros ?). rewrite Hparse.
  destruct (CompressMore.expand_compress_ranges lines) as (ranges & Hr & _).
  rewrite Hr. cbn [mbind option_bind].
  destruct (run_proc (report_cmd a)) as [rcode report_out].
  destruct (ExtractMore.extract_report_total report_out (file a))
    as ([rep_line pcts] & Hx).
  rewrite Hx. cbn [mbind option_bind snd].
  by exists ranges, rep_line, pcts.
Qed.

(** Whatever [main] prints, it is no error dictionary. *)
Lemma main_no_error_doc a :
  ∃ stdout r,
    main a = Some (stdout, r) ∧ Forall (λ it, ¬ is_error_doc it) stdout.
Proof.
  assert (∀ l, Forall is_text l → Forall (λ it, ¬ is_error_doc it) l)
    as Htext.
  { intros l Hl. eapply Forall_impl; [exact Hl|]. apply text_not_error. }
  destruct (path_exists (profdata a)) eqn:Hex.
  - destruct (decide ((run_proc (show_cmd a)).1 = 0)) as [Hcode|Hcode].
    + destruct (parse_annotated (run_proc (show_cmd a)).2) as [lines|]
        eqn:Hparse.
      * destruct (main_success a lines Hex Hcode Hparse)
          as (ranges & rep & pcts & _ & _ & ->).
        eexists _, _. split; [done|].
        repeat apply Forall_app_2.
        -- repeat constructor. by intros (? & ? & ? & ? & ?).
        -- apply Htext, summary_text.
        -- destruct (json a); [constructor|]. apply Htext, summary_text.
        -- repeat constructor. by intros (? & ? & ? & ? & ?).
        -- apply Htext, report_block_text.
        -- destruct (json a); [|apply Htext, report_block_text].
           repeat constructor. by intros (? & ? & ? & ? & ?).
      * rewrite (main_raises a Hex Hcode Hparse).
        eexists _, _. split; [done|].
        repeat constructor. by intros (? & ? & ? & ? & ?).
    + rewrite (main_show_failed a Hex Hcode).
      eexists _, _. split; [done|].
      repeat constructor; by intros (? & ? & ? & ? & ?).
  - rewrite (main_not_found a Hex). eexists _, _. split; [done|].
    repeat constructor; by intros (? & ? & ? & ? & ?).
Qed.

End main.
End CovMainFacts.

(** X18. How [main] of [coverage_uncovered.py] ends. When the profile file
    does not exist it returns 2, having printed the hint that names the file
    and nothing else, so no command was run. When the show command fails it
    returns 3 after the command, the failure text and the output. When the
    show command succeeds, [main] is ended by the [ValueError] of
    [parse_annotated], with only the command printed, if the listing has a
    line number of too many digits; otherwise it returns 0, whatever the
    report command returns. *)
Theorem coverage_main_status (path_exists : str → bool)
    (run_proc : str → Z * str) (shlex_quote : str → str)
    (a : CoverageUncoveredMain.args) :
  let show := CoverageUncoveredMain.show_cmd shlex_quote a in
  let listing := CoverageUncovered.parse_annotated (run_proc show).2 in
  ∃ stdout r,
    CoverageUncoveredMain.main path_exists run_proc shlex_quote a
    = Some (stdout, r)
    ∧ (path_exists (CoverageUncoveredMain.profdata a) = false →
       r = CoverageUncoveredMain.Return 2
       ∧ stdout
         = [CoverageUncoveredMain.Text
              (lit "profdata " ++ CoverageUncoveredMain.profdata a
               ++ lit " not found; run the instrumented tests and merge first")])
    ∧ (path_exists (CoverageUncoveredMain.profdata a) = true →
       (run_proc show).1 ≠ 0 →
       r = CoverageUncoveredMain.Return 3
       ∧ stdout
         = [CoverageUncoveredMain.Text (lit "> " ++ show);
            CoverageUncoveredMain.Text
              (lit "llvm-cov show failed or returned non-zero; output below:");
            CoverageUncoveredMain.Text (run_proc show).2])
    ∧ (path_exists (CoverageUncoveredMain.profdata a) = true →
       (run_proc show).1 = 0 → listing = None →
       r = CoverageUncoveredMain.ValueError
       ∧ stdout = [CoverageUncoveredMain.Text (lit "> " ++ show)])
    ∧ (path_exists (CoverageUncoveredMain.profdata a) = true →
       (run_proc show).1 = 0 → listing ≠ None →
       r = CoverageUncoveredMain.Return 0).
Proof.
  cbv zeta.
  destruct (path_exists (CoverageUncoveredMain.profdata a)) eqn:Hex.
  - destruct (decide ((run_proc
                (CoverageUncoveredMain.show_cmd shlex_quote a)).1 = 0))
      as [Hcode|Hcode].
    + destruct (CoverageUncovered.parse_annotated
                  (run_proc (CoverageUncoveredMain.show_cmd shlex_quote a)).2)
        as [lines|] eqn:Hparse.
      * destruct (CovMainFacts.main_success path_exists run_proc shlex_quote
                    a lines Hex Hcode Hparse)
          as (ranges & rep & pcts & _ & _ & ->).
        eexists _, _. split; [done|]. split_and!; done.
      * rewrite (CovMainFacts.main_raises path_exists run_proc shlex_quote
                   a Hex Hcode Hparse).
        eexists _, _. split; [done|]. split_and!; done.
    + rewrite (CovMainFacts.main_show_failed path_exists run_proc shlex_quote
                 a Hex Hcode).
      eexists _, _. split; [done|]. split_and!; done.
  - rewrite (CovMainFacts.main_not_found path_exists run_proc shlex_quote
               a Hex).
    eexists _, _. split; [done|]. split_and!; done.
Qed.

Lemma coverage_main_status_witness :
  CoverageUncoveredMain.main (λ _, false) (λ _, (0, [])) id
    (CoverageUncoveredMain.Args (lit "a.cpp") (lit "bin") (lit "prof")
       (lit "lib.a") true)
  = Some ([CoverageUncoveredMain.Text
             (lit "profdata prof not found; run the instrumented tests and merge first")],
          CoverageUncoveredMain.Return 2).
Proof.
  destruct (coverage_main_status (λ _, false) (λ _, (0, [])) id
              (CoverageUncoveredMain.Args (lit "a.cpp") (lit "bin")
                 (lit "prof") (lit "lib.a") true))
    as (stdout & r & Hmain & Hmissing & _).
  destruct (Hmissing eq_refl) as [-> ->]. exact Hmain.
Defined.

(** X19. [main] of [coverage_uncovered.py] never prints the error
    dictionary: when the show command fails, the first test returns before
    the branch that would print it, with [--json] too. *)
Theorem coverage_main_no_error_document (path_exists : str → bool)
    (run_proc : str → Z * str) (shlex_quote : str → str)
    (a : CoverageUncoveredMain.args) :
  ∃ stdout r,
    CoverageUncoveredMain.main path_exists run_proc shlex_quote a
    = Some (stdout, r)
    ∧ Forall (λ it, ¬ is_error_doc it) stdout.
Proof. apply CovMainFacts.main_no_error_doc. Qed.

(** X20. With [--json], a run in which the show command succeeds and the
    listing is parsed prints the result dictionary once, as its last item,
    after the text of the summary and of the report line, and returns 0. In
    the dictionary, the total is the number of uncovered lines found in the
    listing, and the ranges flatten to those lines sorted and without
    repetitions. *)
Theorem coverage_main_json_mode (path_exists : str → bool)
    (run_proc : str → Z * str) (shlex_quote : str → str)
    (a : CoverageUncoveredMain.args) (lines : list Z) :
  path_exists (CoverageUncoveredMain.profdata a) = true →
  (run_proc (CoverageUncoveredMain.show_cmd shlex_quote a)).1 = 0 →
  CoverageUncovered.parse_annotated
    (run_proc (CoverageUncoveredMain.show_cmd shlex_quote a)).2
  = Some lines →
  CoverageUncoveredMain.json a = true →
  ∃ texts ranges rep_line pcts,
    CoverageUncoveredMain.main path_exists run_proc shlex_quote a
    = Some (texts
            ++ [CoverageUncoveredMain.Json true
                  (CoverageUncoveredMain.ResultDoc
                     (CoverageUncoveredMain.file a) (len lines)
                     ((λ r, [r.1; r.2]) <$> ranges) lines rep_line pcts)],
            CoverageUncoveredMain.Return 0)
    ∧ Forall is_text texts ∧ (4 ≤ length texts)%nat
    ∧ expand ranges = sorted (elements (list_to_set lines : gset Z)).
Proof.
  intros Hex Hcode Hparse Hjson.
  destruct (CovMainFacts.main_success path_exists run_proc shlex_quote
              a lines Hex Hcode Hparse)
    as (ranges & rep & pcts & Hr & _ & ->).
  rewrite Hjson.
  destruct (CompressMore.expand_compress_ranges lines)
    as (ranges' & Hr' & Hexp).
  rewrite Hr in Hr'. injection Hr' as <-.
  eexists _, ranges, rep, pcts. split_and!; [|  | |exact Hexp].
  - rewrite app_nil_l, !app_assoc. reflexivity.
  - repeat apply Forall_app_2;
      auto using CovMainFacts.summary_text, CovMainFacts.report_block_text;
      repeat constructor; by eexists.
  - rewrite !length_app. simpl. lia.
Qed.

Lemma coverage_main_json_mode_witness :
  ∃ texts ranges rep_line pcts,
    CoverageUncoveredMain.main (λ _, true)
      (λ _, (0, nl " 3| 0|x" ++ nl " 4| 0|y")) id
      (CoverageUncoveredMain.Args (lit "y") (lit "bin") (lit "prof")
         (lit "lib.a") true)
    = Some (texts
            ++ [CoverageUncoveredMain.Json true
                  (CoverageUncoveredMain.ResultDoc (lit "y") 2
                     ((λ r, [r.1; r.2]) <$> ranges) [3; 4] rep_line pcts)],
            CoverageUncoveredMain.Return 0)
    ∧ Forall is_text texts ∧ (4 ≤ length texts)%nat
    ∧ expand ranges = [3; 4].
Proof.
  apply (coverage_main_json_mode (λ _, true)
           (λ _, (0, nl " 3| 0|x" ++ nl " 4| 0|y")) id
           (CoverageUncoveredMain.Args (lit "y") (lit "bin") (lit "prof")
              (lit "lib.a") true) [3; 4]); reflexivity.
Defined.

(** X21. Without [--json], a run in which the show command succeeds and the
    listing is parsed prints the summary twice in a row and the report line
    twice in a row, and no dictionary, and returns 0. *)
Theorem coverage_main_text_mode (path_exists : str → bool)
    (run_proc : str → Z * str) (shlex_quote : str → str)
    (a : CoverageUncoveredMain.args) (lines : list Z) :
  path_exists (CoverageUncoveredMain.profdata a) = true →
  (run_proc (CoverageUncoveredMain.show_cmd shlex_quote a)).1 = 0 →
  CoverageUncovered.parse_annotated
    (run_proc (CoverageUncoveredMain.show_cmd shlex_quote a)).2
  = Some lines →
  CoverageUncoveredMain.json a = false →
  ∃ summary report,
    CoverageUncoveredMain.main path_exists run_proc shlex_quote a
    = Some ([CoverageUncoveredMain.Text
               (lit "> " ++ CoverageUncoveredMain.show_cmd shlex_quote a)]
            ++ summary ++ summary
            ++ [CoverageUncoveredMain.Text
                  (lit "> " ++ CoverageUncoveredMain.report_cmd shlex_quote a)]
            ++ report ++ report, CoverageUncoveredMain.Return 0)
    ∧ Forall is_text summary ∧ Forall is_text report
    ∧ (2 ≤ length summary)%nat ∧ (2 ≤ length report)%nat.
Proof.
  intros Hex Hcode Hparse Hjson.
  destruct (CovMainFacts.main_success path_exists run_proc shlex_quote
              a lines Hex Hcode Hparse)
    as (ranges & rep & pcts & _ & _ & ->).
  rewrite Hjson. eexists _, _. split; [reflexivity|].
  split_and!;
    auto using CovMainFacts.summary_text, CovMainFacts.report_block_text.
  - unfold CoverageUncoveredMain.summary. destruct lines; simpl; lia.
  - unfold CoverageUncoveredMain.report_block.
    destruct rep as [[|??]|]; simpl; lia.
Qed.

Lemma coverage_main_text_mode_witness :
  ∃ summary report,
    CoverageUncoveredMain.main (λ _, true)
      (λ _, (0, nl " 3| 0|x" ++ nl " 4| 0|y")) id
      (CoverageUncoveredMain.Args (lit "y") (lit "bin") (lit "prof")
         (lit "lib.a") false)
    = Some ([CoverageUncoveredMain.Text
               (lit "> " ++ CoverageUncoveredMain.show_cmd id
                  (CoverageUncoveredMain.Args (lit "y") (lit "bin")
                     (lit "prof") (lit "lib.a") false))]
            ++ summary ++ summary
            ++ [CoverageUncoveredMain.Text
                  (lit "> " ++ CoverageUncoveredMain.report_cmd id
                     (CoverageUncoveredMain.Args (lit "y") (lit "bin")
                        (lit "prof") (lit "lib.a") false))]
            ++ report ++ report, CoverageUncoveredMain.Return 0)
    ∧ Forall is_text summary ∧ Forall is_text report
    ∧ (2 ≤ length summary)%nat ∧ (2 ≤ length report)%nat.
Proof.
  apply (coverage_main_text_mode (λ _, true)
           (λ _, (0, nl " 3| 0|x" ++ nl " 4| 0|y")) id
           (CoverageUncoveredMain.Args (lit "y") (lit "bin") (lit "prof")
              (lit "lib.a") false) [3; 4]); reflexivity.
Defined.

(** ** [main] of [map_uncovered_to_functions.py] *)

Module MapMainFacts.
Import MapUncovered MapUncoveredMain.

Lemma insert_by_count_Permutation e l : insert_by_count e l ≡ₚ e :: l.
Proof.
  induction l as [|x l IH]; simpl; [done|].
  case_decide; [|done]. rewrite IH. apply Permutation_swap.
Qed.

Lemma sorted_by_count_Permutation l : sorted_by_count l ≡ₚ l.
Proof.
  induction l as [|e l IH]; simpl; [done|].
  by rewrite insert_by_count_Permutation, IH.
Qed.

Lemma insert_by_count_sorted e l :
  StronglySorted count_ge l → StronglySorted count_ge (insert_by_count e l).
Proof.
  induction 1 as [|x l Hl IH Hx]; simpl; [by repeat constructor|].
  case_decide as Hlt.
  - constructor; [done|]. rewrite insert_by_count_Permutation.
    constructor; [unfold count_ge; lia|done].
  - constructor; [by constructor|].
    constructor; [unfold count_ge; lia|].
    eapply Forall_impl; [exact Hx|]. unfold count_ge. intros y ?. lia.
Qed.

Lemma sorted_by_count_sorted l : StronglySorted count_ge (sorted_by_count l).
Proof.
  induction l as [|e l IH]; simpl; [constructor|].
  by apply insert_by_count_sorted.
Qed.

(** The sort is stable: entries of one count keep their order. *)
Lemma insert_by_count_stable c e l :
  filter (λ x, e_uncovered_count x = c) (insert_by_count e l)
  = filter (λ x, e_uncovered_count x = c) (e :: l).
Proof.
  induction l as [|x l IH]; simpl; [done|].
  case_decide as Hlt; [|done].
  rewrite (filter_cons _ x), IH, !filter_cons.
  repeat case_decide; try done; lia.
Qed.

Lemma sorted_by_count_stable c l :
  filter (λ x, e_uncovered_count x = c) (sorted_by_count l)
  = filter (λ x, e_uncovered_count x = c) l.
Proof.
  induction l as [|e l IH]; simpl; [done|].
  by rewrite insert_by_count_stable, !filter_cons, IH.
Qed.

Lemma sum_Z_Permutation (l1 l2 : list Z) : l1 ≡ₚ l2 → sum_Z l1 = sum_Z l2.
Proof. induction 1; simpl; lia. Qed.

(** The counts and the unattributed lines account for the input. *)
Lemma lines_accounted uncovered funcs result others :
  map_uncovered_to_functions uncovered funcs = Some (result, others) →
  sum_Z (e_uncovered_count <$> result) + len others = len uncovered.
Proof.
  rewrite AttributorFacts.result_closed_form. intros [= <- <-].
  assert (concat (e_uncovered_lines <$>
            (entry_of funcs uncovered <$> init_func_map funcs))
          ++ sorted (filter (λ ln, bucket funcs ln = None) uncovered)
          ≡ₚ uncovered) as HP.
  { rewrite AttributorFacts.result_lines.
    rewrite AttributorFacts.concat_sorted_Permutation.
    unfold sorted. rewrite merge_sort_Permutation.
    apply AttributorFacts.buckets_partition.
    - apply AttributorFacts.init_func_map_NoDup.
    - apply AttributorFacts.bucket_Some_key. }
  rewrite AttributorFacts.sum_counts.
  - apply Permutation_length in HP. rewrite length_app in HP.
    unfold len. lia.
  - apply Forall_fmap, Forall_forall. done.
Qed.

Lemma take_sorted_ge (l : list entry) n e e' :
  StronglySorted count_ge l → e ∈ take n l → e' ∈ drop n l → count_ge e e'.
Proof.
  intros Hl He He'. rewrite <-(take_drop n l) in Hl.
  apply StronglySorted_app in Hl as (Hrel & _ & _). by apply Hrel.
Qed.

Section main.
Context {J : Type}.
Variable run : str → Z * str.
Variable shlex_quote : str → str.
Variable json_loads : str → str + J.
Variable uncovered_lines_of : J → str + list Z.
Variable readlines : str → str + list str.
Local Abbreviation main :=
  (main run shlex_quote json_loads uncovered_lines_of readlines).

(** A run that returns, in closed form. *)
Lemma main_returned file top stdout code :
  main file top = Some (Returned (stdout, code)) →
  ∃ data uncovered_lines src_lines funcs mapped others,
    (get_uncovered run shlex_quote json_loads file
       (lit "./tools/coverage_uncovered.py")).2 = Returned data
    ∧ uncovered_lines_of data = inr uncovered_lines
    ∧ readlines file = inr src_lines
    ∧ find_functions src_lines = Some funcs
    ∧ map_uncovered_to_functions uncovered_lines funcs = Some (mapped, others)
    ∧ code = 0
    ∧ stdout
      = [Text (lit "Top " ++ str_int top
               ++ lit " functions by uncovered lines:")]
        ++ (top_line <$> slice_list_to top (sorted_by_count mapped))
        ++ [Text ([LF] ++ lit "JSON output:");
            JsonOut (OutDoc file (len uncovered_lines)
                       (sorted_by_count mapped) others)].
Proof.
  unfold MapUncoveredMain.main.
  destruct (get_uncovered _ _ _ _ _).2 as [data|msg]; [|done].
  destruct (uncovered_lines_of data) as [msg|lines] eqn:Hl; [done|].
  destruct (readlines file) as [msg|src] eqn:Hs; [done|].
  destruct (find_functions src) as [funcs|] eqn:Hf; [|done].
  cbn [mbind option_bind].
  destruct (map_uncovered_to_functions lines funcs) as [[mapped others]|]
    eqn:Hm; [|done].
  cbn [mbind option_bind]. intros [= <- <-].
  by exists data, lines, src, funcs, mapped, others.
Qed.

(** [main] ends for every input, and an exception in it comes from one of
    its three inputs. *)
Lemma main_total file top :
  ∃ r, main file top = Some r
       ∧ match r with
         | Returned (_, code) => code = 0
         | Raised msg =>
             (get_uncovered run shlex_quote json_loads file
                (lit "./tools/coverage_uncovered.py")).2 = Raised msg
             ∨ (∃ data, uncovered_lines_of data = inl msg)
             ∨ readlines file = inl msg
         end.
Proof.
  unfold MapUncoveredMain.main.
  destruct (get_uncovered _ _ _ _ _).2 as [data|msg];
    [|eexists; split; [done|by left]].
  destruct (uncovered_lines_of data) as [msg|lines] eqn:Hl;
    [eexists; split; [done|right; left; by exists data]|].
  destruct (readlines file) as [msg|src] eqn:Hs;
    [eexists; split; [done|right; by right]|].
  destruct (FindFacts.find_functions_loop_spec (length src) src 0 [])
    as (funcs & Hf & _); [lia|by split; constructor|].
  fold (find_functions src) in Hf. rewrite Hf. cbn [mbind option_bind].
  rewrite AttributorFacts.result_closed_form. cbn [mbind option_bind].
  eexists. split; [done|]. done.
Qed.

End main.
End MapMainFacts.

(** X22. In the dictionary that [main] of [map_uncovered_to_functions.py]
    prints, the total is the sum of the counts of the functions plus the
    number of unattributed lines. The dictionary is the last item printed,
    after texts only. *)
Theorem map_main_document_totals {J : Type} (run : str → Z * str)
    (shlex_quote : str → str) (json_loads : str → str + J)
    (uncovered_lines_of : J → str + list Z)
    (readlines : str → str + list str) (file : str) (top : Z)
    (stdout : list MapUncoveredMain.item) (code : Z) :
  MapUncoveredMain.main run shlex_quote json_loads uncovered_lines_of
    readlines file top = Some (Returned (stdout, code)) →
  ∃ texts doc,
    stdout = texts ++ [MapUncoveredMain.JsonOut doc]
    ∧ Forall is_text_item texts
    ∧ MapUncoveredMain.o_file doc = file
    ∧ MapUncoveredMain.o_total_uncovered_lines doc
      = sum_Z (e_uncovered_count <$> MapUncoveredMain.o_functions doc)
        + len (MapUncoveredMain.o_others_uncovered_lines doc).
Proof.
  intros (data & lines & src & funcs & mapped & others & _ & _ & _ & _ & Hm
          & _ & ->)%MapMainFacts.main_returned.
  eexists (_ :: _ ++ [_]), _. split_and!.
  - simpl. by rewrite <-app_assoc.
  - constructor; [by eexists|]. apply Forall_app. split.
    + apply Forall_fmap, Forall_forall. intros e _. by eexists.
    + repeat constructor. by eexists.
  - done.
  - simpl. apply MapMainFacts.lines_accounted in Hm. rewrite <-Hm.
    f_equal. apply MapMainFacts.sum_Z_Permutation.
    by rewrite MapMainFacts.sorted_by_count_Permutation.
Qed.

Lemma map_main_document_totals_witness :
  ∃ texts doc,
    [MapUncoveredMain.Text (lit "Top 10 functions by uncovered lines:");
     MapUncoveredMain.Text (lit "- f (1..2): 1 lines");
     MapUncoveredMain.Text ([LF] ++ lit "JSON output:");
     MapUncoveredMain.JsonOut
       (MapUncoveredMain.OutDoc (lit "a.cpp") 2 [Entry (lit "f") 1 2 1 [2]]
          [7])]
    = texts ++ [MapUncoveredMain.JsonOut doc]
    ∧ Forall is_text_item texts
    ∧ MapUncoveredMain.o_file doc = lit "a.cpp"
    ∧ MapUncoveredMain.o_total_uncovered_lines doc
      = sum_Z (e_uncovered_count <$> MapUncoveredMain.o_functions doc)
        + len (MapUncoveredMain.o_others_uncovered_lines doc).
Proof.
  apply (map_main_document_totals (J:=unit) (λ _, (0, lit "{}")) id
           (λ _, inr ()) (λ _, inr [7; 2])
           (λ _, inr [nl "int f() {"; nl "}"]) (lit "a.cpp") 10 _ 0).
  reflexivity.
Defined.

(** X23. The functions of the dictionary are the entries of the attributor
    in descending order of count, and entries of equal count are in the
    order in which the attributor returned them. *)
Theorem map_main_functions_ranked {J : Type} (run : str → Z * str)
    (shlex_quote : str → str) (json_loads : str → str + J)
    (uncovered_lines_of : J → str + list Z)
    (readlines : str → str + list str) (file : str) (top : Z)
    (stdout : list MapUncoveredMain.item) (code : Z) :
  MapUncoveredMain.main run shlex_quote json_loads uncovered_lines_of
    readlines file top = Some (Returned (stdout, code)) →
  ∃ texts doc data uncovered_lines src_lines funcs mapped others,
    stdout = texts ++ [MapUncoveredMain.JsonOut doc]
    ∧ uncovered_lines_of data = inr uncovered_lines
    ∧ readlines file = inr src_lines
    ∧ find_functions src_lines = Some funcs
    ∧ map_uncovered_to_functions uncovered_lines funcs = Some (mapped, others)
    ∧ MapUncoveredMain.o_functions doc ≡ₚ mapped
    ∧ StronglySorted count_ge (MapUncoveredMain.o_functions doc)
    ∧ ∀ c, filter (λ e, e_uncovered_count e = c)
             (MapUncoveredMain.o_functions doc)
           = filter (λ e, e_uncovered_count e = c) mapped.
Proof.
  intros (data & lines & src & funcs & mapped & others & _ & ? & ? & ? & Hm
          & _ & ->)%MapMainFacts.main_returned.
  eexists (_ :: _ ++ [_]), _, data, lines, src, funcs, mapped, others.
  split_and!; try done.
  - simpl. by rewrite <-app_assoc.
  - apply MapMainFacts.sorted_by_count_Permutation.
  - apply MapMainFacts.sorted_by_count_sorted.
  - intros c. apply MapMainFacts.sorted_by_count_stable.
Qed.

Lemma map_main_functions_ranked_witness :
  ∃ texts doc,
    MapUncoveredMain.main (J:=unit) (λ _, (0, lit "{}")) id (λ _, inr ())
      (λ _, inr [7; 2; 5; 6])
      (λ _, inr [nl "int f() {"; nl "}"; nl "int g() {"; nl "";
                 nl "";  nl "}"; nl "int h() {"; nl "}"])
      (lit "a.cpp") 1
    = Some (Returned (texts ++ [MapUncoveredMain.JsonOut doc], 0))
    ∧ StronglySorted count_ge (MapUncoveredMain.o_functions doc).
Proof.
  destruct (map_main_functions_ranked (J:=unit) (λ _, (0, lit "{}")) id
              (λ _, inr ()) (λ _, inr [7; 2; 5; 6])
              (λ _, inr [nl "int f() {"; nl "}"; nl "int g() {"; nl "";
                         nl "";  nl "}"; nl "int h() {"; nl "}"])
              (lit "a.cpp") 1
              [MapUncoveredMain.Text (lit "Top 1 functions by uncovered lines:");
               MapUncoveredMain.Text (lit "- g (3..6): 2 lines");
               MapUncoveredMain.Text ([LF] ++ lit "JSON output:");
               MapUncoveredMain.JsonOut
                 (MapUncoveredMain.OutDoc (lit "a.cpp") 4
                    [Entry (lit "g") 3 6 2 [5; 6]; Entry (lit "f") 1 2 1 [2];
                     Entry (lit "h") 7 8 1 [7]] [])] 0 eq_refl)
    as (texts & doc & data & ls & src & funcs & mapped & others & Hout & _
        & _ & _ & _ & _ & Hsorted & _).
  exists texts, doc. split; [by rewrite <-Hout|exact Hsorted].
Defined.

(** X24. For a top count that is not negative, [main] lists the first
    [top] functions of the ranking, all of them when there are fewer, and no
    function left out has a greater count than a listed one. *)
Theorem map_main_top_listing {J : Type} (run : str → Z * str)
    (shlex_quote : str → str) (json_loads : str → str + J)
    (uncovered_lines_of : J → str + list Z)
    (readlines : str → str + list str) (file : str) (top : Z)
    (stdout : list MapUncoveredMain.item) (code : Z) :
  0 ≤ top →
  MapUncoveredMain.main run shlex_quote json_loads uncovered_lines_of
    readlines file top = Some (Returned (stdout, code)) →
  ∃ header footer doc,
    let fns := MapUncoveredMain.o_functions doc in
    stdout = header
             :: (MapUncoveredMain.top_line <$> take (Z.to_nat top) fns)
             ++ [footer; MapUncoveredMain.JsonOut doc]
    ∧ ∀ e e', e ∈ take (Z.to_nat top) fns → e' ∈ drop (Z.to_nat top) fns →
              e_uncovered_count e' ≤ e_uncovered_count e.
Proof.
  intros Htop (data & lines & src & funcs & mapped & others & _ & _ & _ & _
               & _ & _ & ->)%MapMainFacts.main_returned.
  eexists _, _, (MapUncoveredMain.OutDoc file (len lines)
                   (MapUncoveredMain.sorted_by_count mapped) others).
  cbv zeta. split.
  - unfold slice_list_to. rewrite decide_False by lia. reflexivity.
  - simpl. intros e e' He He'.
    by apply (MapMainFacts.take_sorted_ge _ _ _ _
                (MapMainFacts.sorted_by_count_sorted mapped) He He').
Qed.

Lemma map_main_top_listing_witness :
  ∃ header footer doc,
    MapUncoveredMain.main (J:=unit) (λ _, (0, lit "{}")) id (λ _, inr ())
      (λ _, inr [7; 2; 5; 6])
      (λ _, inr [nl "int f() {"; nl "}"; nl "int g() {"; nl "";
                 nl "";  nl "}"; nl "int h() {"; nl "}"])
      (lit "a.cpp") 1
    = Some (Returned
              (header
               :: (MapUncoveredMain.top_line
                   <$> take 1 (MapUncoveredMain.o_functions doc))
               ++ [footer; MapUncoveredMain.JsonOut doc], 0)).
Proof.
  destruct (map_main_top_listing (J:=unit) (λ _, (0, lit "{}")) id
              (λ _, inr ()) (λ _, inr [7; 2; 5; 6])
              (λ _, inr [nl "int f() {"; nl "}"; nl "int g() {"; nl "";
                         nl "";  nl "}"; nl "int h() {"; nl "}"])
              (lit "a.cpp") 1
              [MapUncoveredMain.Text (lit "Top 1 functions by uncovered lines:");
               MapUncoveredMain.Text (lit "- g (3..6): 2 lines");
               MapUncoveredMain.Text ([LF] ++ lit "JSON output:");
               MapUncoveredMain.JsonOut
                 (MapUncoveredMain.OutDoc (lit "a.cpp") 4
                    [Entry (lit "g") 3 6 2 [5; 6]; Entry (lit "f") 1 2 1 [2];
                     Entry (lit "h") 7 8 1 [7]] [])] 0 ltac:(lia) eq_refl)
    as (header & footer & doc & Hout & _).
  change (Z.to_nat 1) with 1%nat in Hout.
  exists header, footer, doc. by rewrite <-Hout.
Defined.

(** X25. A negative top count is not refused: [main] then lists the
    ranking without its last [-top] functions, and nothing when there are no
    more than that. *)
Theorem map_main_negative_top {J : Type} (run : str → Z * str)
    (shlex_quote : str → str) (json_loads : str → str + J)
    (uncovered_lines_of : J → str + list Z)
    (readlines : str → str + list str) (file : str) (top : Z)
    (stdout : list MapUncoveredMain.item) (code : Z) :
  top < 0 →
  MapUncoveredMain.main run shlex_quote json_loads uncovered_lines_of
    readlines file top = Some (Returned (stdout, code)) →
  ∃ header footer doc listed,
    let fns := MapUncoveredMain.o_functions doc in
    stdout = header :: (MapUncoveredMain.top_line <$> listed)
             ++ [footer; MapUncoveredMain.JsonOut doc]
    ∧ listed = take (length fns - Z.to_nat (- top)) fns
    ∧ len listed = Z.max 0 (len fns + top).
Proof.
  intros Htop (data & lines & src & funcs & mapped & others & _ & _ & _ & _
               & _ & _ & ->)%MapMainFacts.main_returned.
  eexists _, _, (MapUncoveredMain.OutDoc file (len lines)
                   (MapUncoveredMain.sorted_by_count mapped) others), _.
  cbv zeta. split; [reflexivity|].
  unfold slice_list_to. rewrite decide_True by lia. simpl.
  unfold len. split.
  - f_equal. lia.
  - rewrite length_take. lia.
Qed.

Lemma map_main_negative_top_witness :
  ∃ header footer doc listed,
    MapUncoveredMain.main (J:=unit) (λ _, (0, lit "{}")) id (λ _, inr ())
      (λ _, inr [7; 2; 5; 6])
      (λ _, inr [nl "int f() {"; nl "}"; nl "int g() {"; nl "";
                 nl "";  nl "}"; nl "int h() {"; nl "}"])
      (lit "a.cpp") (-1)
    = Some (Returned
              (header :: (MapUncoveredMain.top_line <$> listed)
               ++ [footer; MapUncoveredMain.JsonOut doc], 0))
    ∧ len listed = Z.max 0 (len (MapUncoveredMain.o_functions doc) + -1).
Proof.
  destruct (map_main_negative_top (J:=unit) (λ _, (0, lit "{}")) id
              (λ _, inr ()) (λ _, inr [7; 2; 5; 6])
              (λ _, inr [nl "int f() {"; nl "}"; nl "int g() {"; nl "";
                         nl "";  nl "}"; nl "int h() {"; nl "}"])
              (lit "a.cpp") (-1)
              [MapUncoveredMain.Text (lit "Top -1 functions by uncovered lines:");
               MapUncoveredMain.Text (lit "- g (3..6): 2 lines");
               MapUncoveredMain.Text (lit "- f (1..2): 1 lines");
               MapUncoveredMain.Text ([LF] ++ lit "JSON output:");
               MapUncoveredMain.JsonOut
                 (MapUncoveredMain.OutDoc (lit "a.cpp") 4
                    [Entry (lit "g") 3 6 2 [5; 6]; Entry (lit "f") 1 2 1 [2];
                     Entry (lit "h") 7 8 1 [7]] [])] 0 ltac:(lia) eq_refl)
    as (header & footer & doc & listed & Hout & Hlisted & Hlen).
  exists header, footer, doc, listed. split; [by rewrite <-Hout|exact Hlen].
Defined.

(** X26. [main] of [map_uncovered_to_functions.py] always ends: it returns
    0, or it is ended by an exception of [get_uncovered], of reading the
    lines from the parsed value, or of reading the source file. Finding the
    functions and attributing the lines raise nothing. *)
Theorem map_main_ends {J : Type} (run : str → Z * str)
    (shlex_quote : str → str) (json_loads : str → str + J)
    (uncovered_lines_of : J → str + list Z)
    (readlines : str → str + list str) (file : str) (top : Z) :
  ∃ r,
    MapUncoveredMain.main run shlex_quote json_loads uncovered_lines_of
      readlines file top = Some r
    ∧ match r with
      | Returned (_, code) => code = 0
      | Raised msg =>
          (get_uncovered run shlex_quote json_loads file
             (lit "./tools/coverage_uncovered.py")).2 = Raised msg
          ∨ (∃ data, uncovered_lines_of data = inl msg)
          ∨ readlines file = inl msg
      end.
Proof. apply MapMainFacts.main_total. Qed.
